(** * skewer: the RELP engine, the binder and the plugin controller

    A shallow embedding of the parts of the Go sources that the
    specification talks about:

    - [services/network/relp.go]: the ack forwarder, the RELP frame
      splitter [RelpSplit], the connection handler, the response cooker
      [handleResponses] and the parser worker [Parse];
    - [sys/binder/binderserver.go]: the command loop of [binderOne];
    - the plugin controller ([PluginController.listen], [Start]) and
      [StorePlugin.Stash];
    - beyond the specification: the direct mode of the RELP service
      ([push2kafka], [handleKafkaResponses]), the life cycles of the RELP,
      TCP and UDP services, the splitters of [services/tcp.go] and the
      service names of [services/factory.go].

    Go's [int] is a 64-bit two's complement integer: it is modelled by [Z]
    with the wrap-around written out ([wrap64]).  A [[]byte] is a
    [list byte], a Go [string] that is only compared or printed is a
    [string].  The [hashmap.HashMap]s of the ack forwarder and the
    [map[int]bool]s of the response cooker are [gmap]s; the listeners of
    the binder are kept in the order they were added. *)

From Stdlib Require Import ZArith Lia List Bool Sorting.Sorted.
From Stdlib Require Import Strings.Byte Strings.String.
From stdpp Require Import base option list gmap.

Import ListNotations.
Local Open Scope Z_scope.

(* ===================================================================== *)
(** ** Go's integers and byte slices *)
(* ===================================================================== *)

Module GoBytes.

Abbreviation bytes := (list byte).

Definition SP : byte := x20.
Definition LF : byte := x0a.
Definition CR : byte := x0d.

(** [len(s)] as a Go [int]. *)
Definition len {A} (s : list A) : Z := Z.of_nat (length s).

(** The value a 64-bit signed integer holds after an overflowing
    operation. *)
Definition wrap64 (z : Z) : Z := (z + 2 ^ 63) mod 2 ^ 64 - 2 ^ 63.

Definition add64 (a b : Z) : Z := wrap64 (a + b).

Definition maxInt64 : Z := 2 ^ 63 - 1.
Definition minInt64 : Z := - 2 ^ 63.
Definition maxUint64 : Z := 2 ^ 64 - 1.

(** Membership in the cutset [" \r\n"] used by every [bytes.Trim*] call of
    relp.go; it is also the predicate [splitSpaceOrLF]. *)
Definition splitSpaceOrLF (r : byte) : bool :=
  (Byte.eqb r SP || Byte.eqb r LF || Byte.eqb r CR)%bool.

(** [bytes.TrimLeft(s, " \r\n")]. *)
Fixpoint TrimLeft (s : bytes) : bytes :=
  match s with
  | [] => []
  | b :: r => if splitSpaceOrLF b then TrimLeft r else s
  end.

(** [bytes.TrimRight(s, " \r\n")]. *)
Definition TrimRight (s : bytes) : bytes := rev (TrimLeft (rev s)).

(** [bytes.Trim(s, " \r\n")]. *)
Definition Trim (s : bytes) : bytes := TrimRight (TrimLeft s).

(** [bytes.FieldsFunc(s, f)]: the maximal runs of bytes on which [f] is
    false.  [cur] is the field being read, in reverse ([cur = []] is Go's
    [start < 0]).  The separators of relp.go are ASCII, so decoding runes
    changes nothing. *)
Fixpoint fieldsFrom (f : byte -> bool) (s : bytes) (cur : bytes) : list bytes :=
  match s with
  | [] => match cur with [] => [] | _ => [rev cur] end
  | b :: r =>
      if f b then
        match cur with
        | [] => fieldsFrom f r []
        | _ => rev cur :: fieldsFrom f r []
        end
      else fieldsFrom f r (b :: cur)
  end.

Definition FieldsFunc (s : bytes) (f : byte -> bool) : list bytes :=
  fieldsFrom f s [].

(** [bytes.Index(s, sep)] for a one-byte separator, as the two halves
    around the first occurrence. *)
Fixpoint cutAt (sep : byte) (s : bytes) : option (bytes * bytes) :=
  match s with
  | [] => None
  | b :: r =>
      if Byte.eqb b sep then Some ([], r)
      else match cutAt sep r with
           | Some (pre, post) => Some (b :: pre, post)
           | None => None
           end
  end.

(** [bytes.SplitN(s, sep, n)] for [n > 0] and a one-byte separator. *)
Fixpoint SplitN (s : bytes) (sep : byte) (n : nat) : list bytes :=
  match n with
  | O => []
  | S O => [s]
  | S n' =>
      match cutAt sep s with
      | None => [s]
      | Some (pre, post) => pre :: SplitN post sep n'
      end
  end.

(** The two errors of [strconv]. *)
Inductive NumError := ErrSyntax | ErrRange.

Definition digitVal (b : byte) : option Z :=
  let n := Z.of_N (Byte.to_N b) in
  if (48 <=? n) && (n <=? 57) then Some (n - 48) else None.

(** [strconv.ParseUint(s, 10, 64)] after its empty-string test: [n] is the
    value read so far. *)
Fixpoint parseUintFrom (s : bytes) (n : Z) : Z * option NumError :=
  match s with
  | [] => (n, None)
  | c :: r =>
      match digitVal c with
      | None => (0, Some ErrSyntax)
      | Some d =>
          if n >=? maxUint64 / 10 + 1 then (maxUint64, Some ErrRange)
          else
            let n1 := n * 10 + d in
            if n1 >? maxUint64 then (maxUint64, Some ErrRange)
            else parseUintFrom r n1
      end
  end.

Definition ParseUint (s : bytes) : Z * option NumError :=
  match s with
  | [] => (0, Some ErrSyntax)
  | _ => parseUintFrom s 0
  end.

(** [strconv.Atoi(s)] on a 64-bit platform ([ParseInt(s, 10, 0)]). *)
Definition Atoi (s : bytes) : Z * option NumError :=
  match s with
  | [] => (0, Some ErrSyntax)
  | c :: r =>
      let neg := Byte.eqb c "-"%byte in
      let s' := if (Byte.eqb c "+"%byte || neg)%bool then r else s in
      match ParseUint s' with
      | (_, Some ErrSyntax) => (0, Some ErrSyntax)
      | (un, _) =>
          let cutoff := 2 ^ 63 in
          if negb neg && (un >=? cutoff) then (cutoff - 1, Some ErrRange)
          else if neg && (un >? cutoff) then (- cutoff, Some ErrRange)
          else ((if neg then - un else un), None)
      end
  end.

(** The decimal digits of a natural number, most significant first. *)
Fixpoint digitsFrom (fuel : nat) (n : N) (acc : bytes) : bytes :=
  match fuel with
  | O => acc
  | S fuel' =>
      let d := match Byte.of_N (48 + n mod 10) with Some b => b | None => x30 end in
      if (n <? 10)%N then d :: acc
      else digitsFrom fuel' (n / 10)%N (d :: acc)
  end.

(** [strconv.FormatInt(n, 10)] and the verb [%d] of [fmt.Sprintf]. *)
Definition itoa (z : Z) : bytes :=
  let digits := digitsFrom (S (N.size_nat (Z.abs_N z))) (Z.abs_N z) [] in
  if z <? 0 then "-"%byte :: digits else digits.

(** A byte slice written as a string literal. *)
Definition B (s : string) : bytes := list_byte_of_string s.

Definition isDigit (b : byte) : Prop := exists d, digitVal b = Some d /\ 0 <= d <= 9.

Definition digitOf (k : N) : byte :=
  match Byte.of_N (48 + k) with Some b => b | None => x30 end.

(** A word: no byte of the cutset in it. *)
Definition word (w : bytes) : Prop := Forall (fun b => splitSpaceOrLF b = false) w.

End GoBytes.
Import GoBytes.

(* ===================================================================== *)
(** ** [RelpSplit]: the frame splitter (relp.go, l. 995-1041) *)
(* ===================================================================== *)

Module Splitter.

(** What a [bufio.SplitFunc] returns: [(0, nil, nil)] asks for more data,
    [(advance, token, nil)] hands a token over, [(0, nil, err)] stops the
    scanner.  A slice expression out of range panics. *)
Inductive SplitResult :=
| NeedMore
| Token (advance : Z) (token : bytes)
| SplitErr (err : NumError)
| Panic.

Definition RelpSplit (data : bytes) (atEOF : bool) : SplitResult :=
  let trimmedData := TrimLeft data in
  if len trimmedData =? 0 then NeedMore
  else
    let splits := FieldsFunc trimmedData splitSpaceOrLF in
    let l := len splits in
    if l <? 3 then NeedMore
    else
      match splits with
      | txnrStr :: command :: datalenStr :: _ =>
          let tokenStr := txnrStr ++ SP :: command ++ SP :: datalenStr in
          let advance := len data - len trimmedData + len tokenStr + 1 in
          if (l =? 3) && (len data <? advance) then NeedMore
          else
            match Atoi txnrStr with
            | (_, Some err) => SplitErr err
            | (_, None) =>
                match Atoi datalenStr with
                | (_, Some err) => SplitErr err
                | (datalen, None) =>
                    if datalen =? 0 then Token advance tokenStr
                    else
                      let advance := add64 advance (add64 datalen 1) in
                      if len data >=? advance then
                        if advance <? 0 then Panic
                        else Token advance (Trim (take (Z.to_nat advance) data))
                      else NeedMore
                end
            end
      | _ => NeedMore
      end.

End Splitter.
Import Splitter.

(* ===================================================================== *)
(** ** The ack forwarder (relp.go, l. 49-173) *)
(* ===================================================================== *)

Module Ack.

(** Modelled from the spec: [queue.IntQueue] of utils/queue, which is not
    among the sources.  "Bounded queues ... returning error-like sentinels
    when disposed"; [get_succ]/[get_fail] are a "non-blocking dequeue";
    [wait] "block[s] until either queue is non-empty or the connection is
    disposed; false means disposed". *)
Record IntQueue := mkQueue { q_items : list Z; q_disposed : bool }.

Definition NewIntQueue : IntQueue := mkQueue [] false.

Definition q_Put (x : Z) (q : IntQueue) : IntQueue :=
  if q_disposed q then q else mkQueue (q_items q ++ [x]) false.

(** [Get] returns an error ([None]) on an empty or disposed queue. *)
Definition q_Get (q : IntQueue) : option (Z * IntQueue) :=
  if q_disposed q then None
  else match q_items q with
       | [] => None
       | x :: r => Some (x, mkQueue r false)
       end.

Definition q_Dispose (q : IntQueue) : IntQueue := mkQueue (q_items q) true.

(** Modelled from the spec: [queue.WaitOne(q1, q2)], "false means
    disposed"; [None] while the caller stays blocked. *)
Definition WaitOne (q1 q2 : IntQueue) : option bool :=
  if (q_disposed q1 || q_disposed q2)%bool then Some false
  else match q_items q1, q_items q2 with
       | [], [] => None
       | _, _ => Some true
       end.

(** [uintptr(txnr)] and [int(key)] on a 64-bit platform. *)
Definition uintptr (z : Z) : Z := z mod 2 ^ 64.
Definition int (u : Z) : Z := wrap64 u.

(** The three [hashmap.HashMap]s are keyed by the connection id; a value
    is an [unsafe.Pointer], [None] standing for [nil].  The queues live in
    [queues], the store the pointers of [succ] and [fail] point into; the
    inner map of [comm] is only ever reached through [comm] and is kept in
    place. *)
Record ackForwarder := mkAck {
  succ : gmap N (option N);
  fail : gmap N (option N);
  comm : gmap N (option (gmap Z bool));
  next : N;
  queues : gmap N IntQueue;
  qalloc : N
}.

Definition newAckForwarder : ackForwarder := mkAck ∅ ∅ ∅ 0%N ∅ 0%N.

Definition set_succ (m : gmap N (option N)) (f : ackForwarder) : ackForwarder :=
  mkAck m (fail f) (comm f) (next f) (queues f) (qalloc f).
Definition set_fail (m : gmap N (option N)) (f : ackForwarder) : ackForwarder :=
  mkAck (succ f) m (comm f) (next f) (queues f) (qalloc f).
Definition set_comm (m : gmap N (option (gmap Z bool))) (f : ackForwarder) : ackForwarder :=
  mkAck (succ f) (fail f) m (next f) (queues f) (qalloc f).
Definition set_queues (m : gmap N IntQueue) (f : ackForwarder) : ackForwarder :=
  mkAck (succ f) (fail f) (comm f) (next f) m (qalloc f).

(** A method call through a queue pointer. *)
Definition withQueue (p : N) (g : IntQueue -> IntQueue) (f : ackForwarder) : ackForwarder :=
  match queues f !! p with
  | Some q => set_queues (<[p := g q]> (queues f)) f
  | None => f
  end.

Definition Received (connID : N) (txnr : Z) (f : ackForwarder) : ackForwarder :=
  match comm f !! connID with
  | Some (Some h) => set_comm (<[connID := Some (<[uintptr txnr := true]> h)]> (comm f)) f
  | _ => f
  end.

Definition Committed (connID : N) (txnr : Z) (f : ackForwarder) : ackForwarder :=
  match comm f !! connID with
  | Some (Some h) =>
      let h := <[uintptr txnr := false]> h in
      let h := delete (uintptr txnr) h in
      set_comm (<[connID := Some h]> (comm f)) f
  | _ => f
  end.

(** The body of the loop over [h.Iter()] in [NextToCommit]. *)
Definition nextLoop (minimum : Z) (kv : Z * bool) : Z :=
  if snd kv then
    if minimum =? -1 then int (fst kv)
    else if int (fst kv) <? minimum then int (fst kv)
    else minimum
  else minimum.

Definition NextToCommit (connID : N) (f : ackForwarder) : Z :=
  match comm f !! connID with
  | Some (Some h) =>
      if (size h =? 0)%nat then -1
      else foldl nextLoop (-1) (map_to_list h)
  | _ => -1
  end.

Definition ForwardSucc (connID : N) (txnr : Z) (f : ackForwarder) : ackForwarder :=
  match succ f !! connID with
  | Some (Some p) => withQueue p (q_Put txnr) f
  | _ => f
  end.

Definition ForwardFail (connID : N) (txnr : Z) (f : ackForwarder) : ackForwarder :=
  match fail f !! connID with
  | Some (Some p) => withQueue p (q_Put txnr) f
  | _ => f
  end.

(** [atomic.AddUintptr(&f.next, 1)] wraps at [2^64]. *)
Definition AddConn (f : ackForwarder) : N * ackForwarder :=
  let connID := ((next f + 1) mod 2 ^ 64)%N in
  let ps := qalloc f in
  let pf := (qalloc f + 1)%N in
  (connID,
   mkAck (<[connID := Some ps]> (succ f))
         (<[connID := Some pf]> (fail f))
         (<[connID := Some ∅]> (comm f))
         connID
         (<[pf := NewIntQueue]> (<[ps := NewIntQueue]> (queues f)))
         (qalloc f + 2)%N).

Definition RemoveConn (connID : N) (f : ackForwarder) : ackForwarder :=
  let f :=
    match succ f !! connID with
    | Some (Some p) =>
        let f := withQueue p q_Dispose f in
        let f := set_succ (<[connID := None]> (succ f)) f in
        set_succ (delete connID (succ f)) f
    | _ => f
    end in
  let f :=
    match fail f !! connID with
    | Some (Some p) =>
        let f := withQueue p q_Dispose f in
        let f := set_fail (<[connID := None]> (fail f)) f in
        set_fail (delete connID (fail f)) f
    | _ => f
    end in
  match comm f !! connID with
  | Some (Some _) =>
      let f := set_fail (<[connID := None]> (fail f)) f in
      set_comm (delete connID (comm f)) f
  | _ => f
  end.

(** [RemoveAll] ranges over the keys of [succ], then over those of [fail]. *)
Definition RemoveAll (f : ackForwarder) : ackForwarder :=
  let f := foldl (fun f kv => RemoveConn (fst kv) f) f (map_to_list (succ f)) in
  foldl (fun f kv => RemoveConn (fst kv) f) f (map_to_list (fail f)).

Definition getFrom (m : gmap N (option N)) (connID : N) (f : ackForwarder)
  : Z * ackForwarder :=
  match m !! connID with
  | Some (Some p) =>
      match queues f !! p with
      | Some q =>
          match q_Get q with
          | Some (txnr, q') => (txnr, set_queues (<[p := q']> (queues f)) f)
          | None => (-1, f)
          end
      | None => (-1, f)
      end
  | _ => (-1, f)
  end.

Definition GetSucc (connID : N) (f : ackForwarder) : Z * ackForwarder :=
  getFrom (succ f) connID f.

Definition GetFail (connID : N) (f : ackForwarder) : Z * ackForwarder :=
  getFrom (fail f) connID f.

(** [Wait] first fetches the two queue pointers ([None]: it returns false
    at once), then blocks in [queue.WaitOne] on the queues themselves. *)
Definition WaitPtrs (connID : N) (f : ackForwarder) : option (N * N) :=
  match succ f !! connID with
  | Some (Some ptrsucc) =>
      match fail f !! connID with
      | Some (Some ptrfail) => Some (ptrsucc, ptrfail)
      | _ => None
      end
  | _ => None
  end.

Definition WaitOnPtrs (ptrs : N * N) (f : ackForwarder) : option bool :=
  match queues f !! fst ptrs, queues f !! snd ptrs with
  | Some q1, Some q2 => WaitOne q1 q2
  | _, _ => Some false
  end.

Definition Wait (connID : N) (f : ackForwarder) : option bool :=
  match WaitPtrs connID f with
  | None => Some false
  | Some ptrs => WaitOnPtrs ptrs f
  end.

End Ack.
Import Ack.

(* ===================================================================== *)
(** ** The connection handler (relp.go, l. 843-993) *)
(* ===================================================================== *)

#[global] Instance byte_eq_dec : EqDecision byte := Byte.byte_eq_dec.

Module conf.
(** The fields of [conf.SyslogConfig] the handler reads. *)
Record SyslogConfig := mkSyslogConfig {
  ConfID : string;
  Format : string;
  Encoding : string;
  DontParseSD : bool;
  Timeout : Z
}.
End conf.

Module model.
(** [model.RawTcpMessage]: the pooled receive buffer. *)
Record RawTcpMessage := mkRaw {
  Message : bytes;
  Size : Z;
  Txnr : Z;
  Client : string;
  LocalPort : Z;
  UnixSocketPath : string;
  ConfID : string;
  DontParseSD : bool;
  Encoding : string;
  Format : string;
  ConnID : N
}.
End model.

Module Handler.

(** What a goroutine of the RELP service does to the world outside its
    local variables, in program order.  Logging is left out. *)
Inductive Event :=
| ConnSetReadDeadline (timeout : Z)
| ConnWrite (b : bytes)
| ConnClose
| RelpProtocolErrorsInc (client : string)
| IncomingMsgsInc (client : string) (port : bytes) (path : string)
| PoolGet
| RawQueuePut (raw : model.RawTcpMessage)
| FwdReceived (connID : N) (txnr : Z)
| FwdForwardSucc (connID : N) (txnr : Z).

(** The locals [client], [localPort] and [path] computed from the
    connection's addresses before the loop. *)
Record ConnInfo := mkConnInfo {
  client : string;
  localPort : Z;
  path : string
}.

(** The locals that survive an iteration of [Loop]. *)
Record HandlerState := mkHandler {
  previous : Z;
  relpIsOpen : bool
}.

Definition initHandler : HandlerState := mkHandler (-1) false.

(** How an iteration ends: the next [scanner.Scan()], a [return], or an
    index out of range. *)
Inductive Outcome :=
| Continue (st : HandlerState) (evs : list Event)
| Return (evs : list Event)
| IndexPanic (evs : list Event).

(** [copy(dst, src)]. *)
Definition copy (dst src : bytes) : bytes :=
  let n := Nat.min (length dst) (length src) in
  take n src ++ drop n dst.

Definition deadline (config : conf.SyslogConfig) : list Event :=
  if conf.Timeout config >? 0 then [ConnSetReadDeadline (conf.Timeout config)] else [].

(** The local [data]: empty when [datalen] is 0, the trimmed fourth
    split otherwise; [None] when [datalen] is not 0 and there is no fourth
    split ([rest] is what follows [splits[2]]). *)
Definition payload (datalen : Z) (rest : list bytes) : option bytes :=
  if negb (datalen =? 0) then
    match rest with
    | [d] => Some (Trim d)
    | _ => None
    end
  else Some [].

(** One iteration of [Loop] on the token [line]; [rented] is what
    [s.Pool.Get()] returns if the iteration calls it. *)
Definition handleFrame (connID : N) (config : conf.SyslogConfig) (ci : ConnInfo)
    (rented : model.RawTcpMessage) (st : HandlerState) (line : bytes) : Outcome :=
  let pre := deadline config in
  let splits := SplitN line SP 4 in
  let txnr := fst (Atoi (nth 0 splits [])) in
  if txnr <=? previous st then Return (pre ++ [RelpProtocolErrorsInc (client ci)])
  else
    let previous := txnr in
    match splits with
    | _ :: command :: datalenStr :: rest =>
        let datalen := fst (Atoi datalenStr) in
        match payload datalen rest with
        | None => Return (pre ++ [RelpProtocolErrorsInc (client ci)])
        | Some data =>
            if bool_decide (command = B "open") then
              if relpIsOpen st then Return (pre ++ [RelpProtocolErrorsInc (client ci)])
              else
                let answer :=
                  itoa txnr ++ B " rsp " ++ itoa (add64 (len data) 7)
                       ++ B " 200 OK" ++ [LF] ++ data ++ [LF] in
                Continue (mkHandler previous true) (pre ++ [ConnWrite answer])
            else if bool_decide (command = B "close") then
              if negb (relpIsOpen st) then Return (pre ++ [RelpProtocolErrorsInc (client ci)])
              else
                let answer :=
                  itoa txnr ++ B " rsp 0" ++ [LF] ++ B "0 serverclose 0" ++ [LF] in
                Continue (mkHandler previous false) (pre ++ [ConnWrite answer; ConnClose])
            else if bool_decide (command = B "syslog") then
              if negb (relpIsOpen st) then Return (pre ++ [RelpProtocolErrorsInc (client ci)])
              else if len data =? 0 then
                Continue (mkHandler previous (relpIsOpen st))
                         (pre ++ [FwdReceived connID txnr; FwdForwardSucc connID txnr])
              else
                let rawmsg :=
                  model.mkRaw (copy (model.Message rented) data)
                              (len data) txnr (client ci) (localPort ci) (path ci)
                              (conf.ConfID config) (conf.DontParseSD config)
                              (conf.Encoding config) (conf.Format config) connID in
                Continue (mkHandler previous (relpIsOpen st))
                         (pre ++ [FwdReceived connID txnr; PoolGet;
                                  IncomingMsgsInc (client ci) (itoa (localPort ci)) (path ci);
                                  RawQueuePut rawmsg])
            else Return (pre ++ [RelpProtocolErrorsInc (client ci)])
        end
    | _ => IndexPanic pre
    end.

(** The loop of [HandleConnection] over the tokens the scanner hands
    over, each with the buffer the pool would give for it. *)
Fixpoint handleFrames (connID : N) (config : conf.SyslogConfig) (ci : ConnInfo)
    (st : HandlerState) (frames : list (bytes * model.RawTcpMessage)) : list Event :=
  match frames with
  | [] => []
  | (line, rented) :: frames' =>
      match handleFrame connID config ci rented st line with
      | Continue st' evs => evs ++ handleFrames connID config ci st' frames'
      | Return evs | IndexPanic evs => evs
      end
  end.

(** The buffers put in the raw ring, and the number of buffers rented. *)
Definition rawQueuePuts (evs : list Event) : list model.RawTcpMessage :=
  omap (fun ev => match ev with RawQueuePut raw => Some raw | _ => None end) evs.

Definition poolGets (evs : list Event) : nat :=
  length (List.filter (fun ev => match ev with PoolGet => true | _ => false end) evs).

(** The calls on the ack forwarder among the events. *)
Definition applyEvent (f : ackForwarder) (ev : Event) : ackForwarder :=
  match ev with
  | FwdReceived c t => Received c t f
  | FwdForwardSucc c t => ForwardSucc c t f
  | _ => f
  end.

Definition applyEvents (evs : list Event) (f : ackForwarder) : ackForwarder :=
  foldl applyEvent f evs.

(** The number of increments of the protocol-error counter of [cl]. *)
Definition protocolErrors (cl : string) (evs : list Event) : nat :=
  length (List.filter
            (fun ev => match ev with
                       | RelpProtocolErrorsInc c => String.eqb c cl
                       | _ => false
                       end) evs).

(** An event that belongs to the processing of a command. *)
Definition isCommandEvent (ev : Event) : bool :=
  match ev with
  | ConnSetReadDeadline _ | RelpProtocolErrorsInc _ => false
  | _ => true
  end.

End Handler.
Import Handler.

(* ===================================================================== *)
(** ** The response cooker: [handleResponses] (relp.go, l. 663-713) *)
(* ===================================================================== *)

Module Cooker.

(** Where the goroutine stands.  Every call on the shared forwarder and
    every write on the connection is a step of its own, so that the other
    goroutines can run in between. *)
Inductive PC :=
| AtWait                          (* [s.forwarder.Wait(connID)]: the two lookups *)
| InWaitOne (ptrs : N * N)        (* blocked in [queue.WaitOne] *)
| AtGetSucc
| AtGetFail
| AtCooking                       (* [s.forwarder.NextToCommit(connID)] *)
| AtAnswer (next : Z) (ok : bool) (* [immediateSuccess] or [immediateFailure] *)
| AtCommitted (next : Z)          (* [s.forwarder.Committed(connID, next)] *)
| Finished.

Record Cooker := mkCooker {
  pc : PC;
  successes : gmap Z bool;
  failures : gmap Z bool;
  written : list bytes
}.

Definition initCooker : Cooker := mkCooker AtWait ∅ ∅ [].

(** [fmt.Sprintf("%d rsp 6 200 OK\n", txnr)] and its failure twin. *)
Definition successAnswer (txnr : Z) : bytes := itoa txnr ++ B " rsp 6 200 OK" ++ [LF].
Definition failureAnswer (txnr : Z) : bytes := itoa txnr ++ B " rsp 6 500 KO" ++ [LF].

(** [m[k]] on a [map[int]bool]: false when the key is absent. *)
Definition index (m : gmap Z bool) (k : Z) : bool := default false (m !! k).

Definition cookerStep (connID : N) (f : ackForwarder) (k : Cooker)
  : option (ackForwarder * Cooker) :=
  match pc k with
  | AtWait =>
      match WaitPtrs connID f with
      | None => Some (f, mkCooker Finished (successes k) (failures k) (written k))
      | Some ptrs => Some (f, mkCooker (InWaitOne ptrs) (successes k) (failures k) (written k))
      end
  | InWaitOne ptrs =>
      match WaitOnPtrs ptrs f with
      | None => None
      | Some true => Some (f, mkCooker AtGetSucc (successes k) (failures k) (written k))
      | Some false => Some (f, mkCooker Finished (successes k) (failures k) (written k))
      end
  | AtGetSucc =>
      let (currentTxnr, f') := GetSucc connID f in
      if negb (currentTxnr =? -1) then
        Some (f', mkCooker AtCooking (<[currentTxnr := true]> (successes k)) (failures k) (written k))
      else Some (f', mkCooker AtGetFail (successes k) (failures k) (written k))
  | AtGetFail =>
      let (currentTxnr, f') := GetFail connID f in
      if negb (currentTxnr =? -1) then
        Some (f', mkCooker AtCooking (successes k) (<[currentTxnr := true]> (failures k)) (written k))
      else Some (f', mkCooker AtCooking (successes k) (failures k) (written k))
  | AtCooking =>
      let next := NextToCommit connID f in
      if next =? -1 then Some (f, mkCooker AtWait (successes k) (failures k) (written k))
      else if index (successes k) next then
        Some (f, mkCooker (AtAnswer next true) (successes k) (failures k) (written k))
      else if index (failures k) next then
        Some (f, mkCooker (AtAnswer next false) (successes k) (failures k) (written k))
      else Some (f, mkCooker AtWait (successes k) (failures k) (written k))
  | AtAnswer next true =>
      Some (f, mkCooker (AtCommitted next) (delete next (successes k)) (failures k)
                        (written k ++ [successAnswer next]))
  | AtAnswer next false =>
      Some (f, mkCooker (AtCommitted next) (successes k) (delete next (failures k))
                        (written k ++ [failureAnswer next]))
  | AtCommitted next =>
      Some (Committed connID next f, mkCooker AtCooking (successes k) (failures k) (written k))
  | Finished => None
  end.

(** The transaction number a response line starts with. *)
Definition responseTxnr (r : bytes) : Z := fst (Atoi (nth 0 (SplitN r SP 2) [])).

End Cooker.
Import Cooker.

(* ===================================================================== *)
(** ** One RELP connection among the goroutines of the service *)
(* ===================================================================== *)

Module Connection.

(** The forwarder is shared; the handler and the cooker of the connection
    own their locals. *)
Record System := mkSystem {
  fwd : ackForwarder;
  handler : HandlerState;
  alive : bool;             (* [HandleConnection] has not returned *)
  cooker : Cooker
}.

(** What can happen next.  [Frame] and [ScanEnd] are the handler of this
    connection, [Cook] its cooker; the others are the rest of the service:
    parser workers and the Kafka response loop forward outcomes for any
    connection, other connections come and go with their own handlers and
    cookers, [doStop] calls [RemoveAll]. *)
Inductive Action :=
| Frame (line : bytes) (rented : model.RawTcpMessage)
| ScanEnd
| Cook
| EnvForwardSucc (c : N) (txnr : Z)
| EnvForwardFail (c : N) (txnr : Z)
| EnvReceived (c : N) (txnr : Z)
| EnvCommitted (c : N) (txnr : Z)
| EnvAddConn
| EnvRemoveConn (c : N)
| EnvRemoveAll.

Definition exec (connID : N) (config : conf.SyslogConfig) (ci : ConnInfo)
    (a : Action) (s : System) : option System :=
  match a with
  | Frame line rented =>
      if alive s then
        match handleFrame connID config ci rented (handler s) line with
        | Continue st evs =>
            Some (mkSystem (applyEvents evs (fwd s)) st true (cooker s))
        | Return evs | IndexPanic evs =>
            (* the deferred [s.forwarder.RemoveConn(connID)] *)
            Some (mkSystem (RemoveConn connID (applyEvents evs (fwd s)))
                           (handler s) false (cooker s))
        end
      else None
  | ScanEnd =>
      if alive s then
        Some (mkSystem (RemoveConn connID (fwd s)) (handler s) false (cooker s))
      else None
  | Cook =>
      match cookerStep connID (fwd s) (cooker s) with
      | Some (f, k) => Some (mkSystem f (handler s) (alive s) k)
      | None => None
      end
  | EnvForwardSucc c t => Some (mkSystem (ForwardSucc c t (fwd s)) (handler s) (alive s) (cooker s))
  | EnvForwardFail c t => Some (mkSystem (ForwardFail c t (fwd s)) (handler s) (alive s) (cooker s))
  | EnvReceived c t =>
      if bool_decide (c = connID) then None
      else Some (mkSystem (Received c t (fwd s)) (handler s) (alive s) (cooker s))
  | EnvCommitted c t =>
      if bool_decide (c = connID) then None
      else Some (mkSystem (Committed c t (fwd s)) (handler s) (alive s) (cooker s))
  | EnvAddConn =>
      (* connection ids are not reused: the counter has not wrapped *)
      if (next (fwd s) + 1 <? 2 ^ 64)%N then
        Some (mkSystem (snd (AddConn (fwd s))) (handler s) (alive s) (cooker s))
      else None
  | EnvRemoveConn c => Some (mkSystem (RemoveConn c (fwd s)) (handler s) (alive s) (cooker s))
  | EnvRemoveAll => Some (mkSystem (RemoveAll (fwd s)) (handler s) (alive s) (cooker s))
  end.

Fixpoint run (connID : N) (config : conf.SyslogConfig) (ci : ConnInfo)
    (acts : list Action) (s : System) : option System :=
  match acts with
  | [] => Some s
  | a :: acts' =>
      match exec connID config ci a s with
      | Some s' => run connID config ci acts' s'
      | None => None
      end
  end.

(** [HandleConnection] up to its loop: [connID := s.forwarder.AddConn()],
    then [go s.handleResponses(...)]. *)
Definition accept (f0 : ackForwarder) : N * System :=
  let (connID, f) := AddConn f0 in
  (connID, mkSystem f initHandler true initCooker).

End Connection.
Import Connection.

(* ===================================================================== *)
(** ** The invariant that orders the responses *)
(* ===================================================================== *)

Module Order.

(** The committed map of a connection, empty when the connection has
    none. *)
Definition commOf (c : N) (f : ackForwarder) : gmap Z bool :=
  match comm f !! c with
  | Some (Some h) => h
  | _ => ∅
  end.

Definition nextOf (h : gmap Z bool) : Z :=
  if (size h =? 0)%nat then -1 else foldl nextLoop (-1) (map_to_list h).

(** [f'] has the counter of [f], and connection [c] has no pending
    transaction in [f'] that it has not in [f]. *)
Definition shrinks (c : N) (f f' : ackForwarder) : Prop :=
  next f' = next f
  /\ forall k v, commOf c f' !! k = Some v -> commOf c f !! k = Some v.

(** A response of the cooker: the transaction number and the outcome. *)
Definition answer (tk : Z * bool) : bytes :=
  if snd tk then successAnswer (fst tk) else failureAnswer (fst tk).

(** What the cooker's position says about the transaction numbers
    [emitted] so far and the pending ones in [h]. *)
Definition pcInv (p : PC) (emitted : list Z) (h : gmap Z bool) (prev : Z) : Prop :=
  match p with
  | AtAnswer n _ =>
      0 <= n <= prev /\ Forall (fun e => e < n) emitted
      /\ forall k, h !! k = Some true -> n <= k
  | AtCommitted n =>
      0 <= n <= prev /\ Forall (fun e => e <= n) emitted
      /\ forall k, h !! k = Some true -> n <= k
  | _ => forall e k, e ∈ emitted -> h !! k = Some true -> e < k
  end.

(** The invariant of a connection [c]: its pending transactions are at
    most the last number the handler saw, and the cooker has written
    answers for increasing numbers, all below the pending ones. *)
Record Inv (c : N) (s : System) : Prop := mkInv {
  inv_next : (c <= next (fwd s))%N;
  inv_prev : -1 <= previous (handler s) < 2 ^ 63;
  inv_keys : forall k v, commOf c (fwd s) !! k = Some v -> 0 <= k <= previous (handler s);
  inv_out : exists tks,
      written (cooker s) = map answer tks
      /\ StronglySorted Z.lt (map fst tks)
      /\ Forall (fun t => 0 <= t <= previous (handler s)) (map fst tks)
      /\ pcInv (pc (cooker s)) (map fst tks) (commOf c (fwd s)) (previous (handler s))
}.

End Order.
Import Order.

(* ===================================================================== *)
(** ** The parser worker: [Parse] (relp.go, l. 540-620) *)
(* ===================================================================== *)

Module Parser.

Section Types.
(** [model.SyslogMessage], the errors of parsers and of the store, the
    text decoders and the ULIDs are collaborators' types. *)
Context {SyslogMessage Error Decoder ULID : Type}.

Record ParsedMessage := mkParsed {
  Fields : SyslogMessage;
  Client : string;
  LocalPort : Z;
  UnixSocketPath : string
}.

Record TcpUdpParsedMessage := mkTcpUdp {
  Parsed : ParsedMessage;
  Uid : option ULID;
  Txnr : Z;
  ConfId : string;
  ConnID : N
}.

(** A [Parser]: [Parse(m []byte, decoder, dont_parse_sd)]. *)
Definition ParserT : Type := bytes -> Decoder -> bool -> SyslogMessage + Error.

(** What the worker does outside its locals, in program order. *)
Inductive Event :=
| PoolPut (raw : model.RawTcpMessage)
| ParsingErrorInc (client format : string)
| ParsedQueuePut (m : TcpUdpParsedMessage)
| FwdForwardSucc (connID : N) (txnr : Z)
| FwdForwardFail (connID : N) (txnr : Z)
| StopAndWait.

(** Why the goroutine ended: the raw ring returned nothing (it is disposed
    and drained), or one of the two [return]s of the loop. *)
Inductive Exit := RingEnd | UnknownParser | FatalStoreError.

Record Result (St : Type) := mkResult {
  events : list Event;
  consumed : list model.RawTcpMessage;   (* what [rawMessagesQueue.Get] handed over *)
  left : list model.RawTcpMessage;       (* what is still in the ring *)
  exit : Exit;
  stasher : St;
  taken : nat                            (* ULIDs read from [s.gen] *)
}.

End Types.

Arguments ParsedMessage : clear implicits.
Arguments TcpUdpParsedMessage : clear implicits.
Arguments Event : clear implicits.
Arguments Result : clear implicits.
Arguments mkResult {_ _ _}.
Arguments events {_ _ _}.
Arguments consumed {_ _ _}.
Arguments left {_ _ _}.
Arguments exit {_ _ _}.
Arguments stasher {_ _ _}.
Arguments taken {_ _ _}.

(** [model.Stasher] (the spec's [Stasher.stash(parsed) -> (fatal_err,
    nonfatal_err)]) over the state [St] of the implementation. *)
Class Stasher (SyslogMessage Error ULID St : Type) :=
  Stash : TcpUdpParsedMessage SyslogMessage ULID -> St -> St * (option Error * option Error).

Section Parse.
Context {SyslogMessage Error Decoder ULID St : Type}.
Context `{!Stasher SyslogMessage Error ULID St}.
(** [e.GetParser(format)] ([None] is [nil]), [utils.SelectDecoder],
    [syslogMsg.Empty()] and the ULID channel [s.gen]. *)
Context (GetParser : string -> option (@ParserT SyslogMessage Error Decoder)).
Context (SelectDecoder : string -> Decoder).
Context (Empty : SyslogMessage -> bool).
Context (gen : nat -> ULID).
(** [s.direct]. *)
Context (direct : bool).

Let Msg := TcpUdpParsedMessage SyslogMessage ULID.
Let Ev := Event SyslogMessage ULID.

Definition addEvents (evs : list Ev) (raw : model.RawTcpMessage)
    (r : Result SyslogMessage ULID St) : Result SyslogMessage ULID St :=
  mkResult (evs ++ events r) (raw :: consumed r) (left r) (exit r) (stasher r) (taken r).

(** The loop of [Parse] over the content of the raw ring, a FIFO
    (modelled from the spec: [queue.RawTcpRing] is not among the
    sources).  [n] counts the ULIDs taken from [s.gen]. *)
Fixpoint Parse (ring : list model.RawTcpMessage) (n : nat) (st : St)
  : Result SyslogMessage ULID St :=
  match ring with
  | [] => mkResult [] [] [] RingEnd st n
  | raw :: ring' =>
      match GetParser (model.Format raw) with
      | None =>
          mkResult [PoolPut raw] [raw] ring' UnknownParser st n
      | Some parser =>
          let decoder := SelectDecoder (model.Encoding raw) in
          match parser (take (Z.to_nat (model.Size raw)) (model.Message raw))
                       decoder (model.DontParseSD raw) with
          | inr _ =>
              addEvents [ParsingErrorInc (model.Client raw) (model.Format raw); PoolPut raw]
                        raw (Parse ring' n st)
          | inl syslogMsg =>
              if Empty syslogMsg then addEvents [PoolPut raw] raw (Parse ring' n st)
              else
                let parsedMsg :=
                  mkTcpUdp (mkParsed syslogMsg (model.Client raw) (model.LocalPort raw)
                                     (model.UnixSocketPath raw))
                           None (model.Txnr raw) (model.ConfID raw) (model.ConnID raw) in
                if direct then
                  addEvents [PoolPut raw; ParsedQueuePut parsedMsg] raw (Parse ring' n st)
                else
                  let parsedMsg :=
                    mkTcpUdp (Parsed parsedMsg) (Some (gen n)) (Txnr parsedMsg)
                             (ConfId parsedMsg) (ConnID parsedMsg) in
                  match Stash parsedMsg st with
                  | (st', (None, None)) =>
                      addEvents [PoolPut raw;
                                 FwdForwardSucc (ConnID parsedMsg) (Txnr parsedMsg)]
                                raw (Parse ring' (S n) st')
                  | (st', (Some _, _)) =>
                      mkResult [PoolPut raw;
                                FwdForwardFail (ConnID parsedMsg) (Txnr parsedMsg);
                                StopAndWait]
                               [raw] ring' FatalStoreError st' (S n)
                  | (st', (None, Some _)) =>
                      addEvents [PoolPut raw;
                                 FwdForwardFail (ConnID parsedMsg) (Txnr parsedMsg)]
                                raw (Parse ring' (S n) st')
                  end
          end
      end
  end.

(** The frame parses to a message that is not empty. *)
Definition parsesOk (raw : model.RawTcpMessage) : bool :=
  match GetParser (model.Format raw) with
  | None => false
  | Some parser =>
      match parser (take (Z.to_nat (model.Size raw)) (model.Message raw))
                   (SelectDecoder (model.Encoding raw)) (model.DontParseSD raw) with
      | inl syslogMsg => negb (Empty syslogMsg)
      | inr _ => false
      end
  end.

(** [Start] launches [runtime.NumCPU()] workers on the same ring.  In the
    schedule kept here a worker runs until its goroutine ends before the
    next one takes a message. *)
Fixpoint Workers (cpus : nat) (ring : list model.RawTcpMessage) (n : nat) (st : St)
  : list Ev * list model.RawTcpMessage :=
  match cpus with
  | O => ([], ring)
  | S cpus' =>
      let r := Parse ring n st in
      let (evs, ring') := Workers cpus' (left r) (taken r) (stasher r) in
      (events r ++ evs, ring')
  end.

(** The buffers returned to the pool, in order. *)
Definition poolPuts (evs : list Ev) : list model.RawTcpMessage :=
  omap (fun ev => match ev with PoolPut raw => Some raw | _ => None end) evs.

Definition isForwardFail (ev : Ev) : bool :=
  match ev with FwdForwardFail _ _ => true | _ => false end.

Definition isStopAndWait (ev : Ev) : bool :=
  match ev with StopAndWait => true | _ => false end.

Definition forwardSuccs (evs : list Ev) : list (N * Z) :=
  omap (fun ev => match ev with FwdForwardSucc c t => Some (c, t) | _ => None end) evs.

End Parse.

(** [StorePlugin]: the message queue it embeds (modelled from the spec
    as a FIFO: [utils.MessageQueue] is not among the sources). *)
Record StorePlugin (SyslogMessage ULID : Type) := mkStorePlugin {
  MessageQueue : list (TcpUdpParsedMessage SyslogMessage ULID)
}.
Arguments mkStorePlugin {_ _}.
Arguments MessageQueue {_ _}.

(** [StorePlugin.Stash]: [s.MessageQueue.Put(m); return nil, nil]. *)
#[global] Instance StorePlugin_Stash {SyslogMessage Error ULID : Type}
  : Stasher SyslogMessage Error ULID (StorePlugin SyslogMessage ULID) :=
  fun m s => (mkStorePlugin (MessageQueue s ++ [m]), (None, None)).

End Parser.

(* ===================================================================== *)
(** ** The plugin controller: [listen] and [Start] *)
(* ===================================================================== *)

Module Plugin.

Section Controller.
(** [model.ListenerInfo], [model.TcpUdpParsedMessage], the metric
    families and the errors of the decoders and of the scanner are
    collaborators' types; so are the decoders themselves. *)
Context {ListenerInfo Message Families DecodeError : Type}.
Context (unmarshalInfos : bytes -> list ListenerInfo + DecodeError).
Context (unmarshalMsg : bytes -> Message + DecodeError).
Context (unmarshalFamilies : bytes -> Families + DecodeError).
(** [s.registry != nil]. *)
Context (hasRegistry : bool).

(** Go's [error] values of the controller. *)
Inductive Err :=
| Errorf (text : string)          (* [fmt.Errorf] of a constant text *)
| ErrorfChild (text : bytes)      (* [fmt.Errorf(parts[1])] *)
| DecodeErr (e : DecodeError)
| ScannerErr (e : DecodeError)
| WriteErr.

Record InfosAndError := mkIE {
  infos : option (list ListenerInfo);   (* [None] is [nil] *)
  err : option Err
}.

(** What the goroutine of [listen] does outside its locals. *)
Inductive Event :=
| StasherStash (m : Message)
| UnregisterTcpListener (i : ListenerInfo)
| RegisterTcpListener (i : ListenerInfo)
| MetricsSend (f : Families)
| MetricsClose
| ProcessKill.

(** The locals of the goroutine; [once] holds what the [sync.Once] sent
    on [startErrorChan], the one value [Start] can receive. *)
Record ListenState := mkListen {
  initialized : bool;
  kill : bool;
  normalStop : bool;
  once : option InfosAndError;
  outerInfos : list ListenerInfo;
  trace : list Event
}.

Definition initListen : ListenState := mkListen false false false None [] [].

(** [once.Do(func() { startErrorChan <- v; close(startErrorChan) })]. *)
Definition onceDo (v : InfosAndError) (st : ListenState) : ListenState :=
  match once st with
  | Some _ => st
  | None => mkListen (initialized st) (kill st) (normalStop st) (Some v)
                     (outerInfos st) (trace st)
  end.

Definition setKill (st : ListenState) : ListenState :=
  mkListen (initialized st) true (normalStop st) (once st) (outerInfos st) (trace st).

Definition emit (evs : list Event) (st : ListenState) : ListenState :=
  mkListen (initialized st) (kill st) (normalStop st) (once st) (outerInfos st)
           (trace st ++ evs).

Definition syslogBeforeInit : string :=
  "Plugin sent a syslog message before being initialized".

Definition unexpectedEnd : string :=
  "Unexpected end of plugin before it was initialized".

(** One iteration of the loop over [scanner.Scan()]: the new locals, and
    whether the goroutine [return]ed. *)
Definition listenStep (st : ListenState) (text : bytes) : ListenState * bool :=
  let parts := SplitN text SP 2 in
  let command := nth 0 parts [] in
  let body : option bytes := match parts with [_; b] => Some b | _ => None end in
  if bool_decide (command = B "syslog") then
    match body with
    | Some b =>
        if negb (initialized st) then
          (setKill (onceDo (mkIE None (Some (Errorf syslogBeforeInit))) st), true)
        else
          match unmarshalMsg b with
          | inl m => (emit [StasherStash m] st, false)
          | inr _ => (setKill st, true)
          end
    | None => (st, false)
    end
  else if bool_decide (command = B "started") then
    match body with
    | Some b =>
        match unmarshalInfos b with
        | inl i =>
            (onceDo (mkIE (Some i) None)
                    (mkListen true (kill st) (normalStop st) (once st)
                              (outerInfos st) (trace st)), false)
        | inr e => (setKill (onceDo (mkIE None (Some (DecodeErr e))) st), true)
        end
    | None => (st, false)
    end
  else if bool_decide (command = B "infos") then
    match body with
    | Some b =>
        match unmarshalInfos b with
        | inl newinfos =>
            if hasRegistry then
              (mkListen (initialized st) (kill st) (normalStop st) (once st) newinfos
                        (trace st ++ map UnregisterTcpListener (outerInfos st)
                                  ++ map RegisterTcpListener newinfos), false)
            else (st, false)
        | inr _ => (st, false)
        end
    | None => (st, false)
    end
  else if bool_decide (command = B "stopped") then
    (mkListen (initialized st) (kill st) true (once st) (outerInfos st) (trace st), true)
  else if bool_decide (command = B "shutdown") then (st, false)
  else if bool_decide (command = B "starterror") then
    match body with
    | Some b => (onceDo (mkIE None (Some (ErrorfChild b))) st, false)
    | None => (st, false)
    end
  else if bool_decide (command = B "conferror") then
    match body with
    | Some b => (onceDo (mkIE None (Some (ErrorfChild b))) st, false)
    | None => (st, false)
    end
  else if bool_decide (command = B "nolistenererror") then
    (onceDo (mkIE None (Some (Errorf "No listener"))) st, false)
  else if bool_decide (command = B "metrics") then
    match body with
    | Some b =>
        match unmarshalFamilies b with
        | inl f => (emit [MetricsSend f] st, false)
        | inr _ => (setKill (emit [MetricsClose] st), true)
        end
    | None => (setKill (emit [MetricsClose] st), true)
    end
  else
    (setKill (onceDo (mkIE None (Some (Errorf "Unexpected message from plugin"))) st), true).

Fixpoint listenLoop (msgs : list bytes) (st : ListenState) : ListenState * bool :=
  match msgs with
  | [] => (st, false)
  | text :: msgs' =>
      match listenStep st text with
      | (st', true) => (st', true)
      | (st', false) => listenLoop msgs' st'
      end
  end.

(** The fields of [PluginController] that the lifecycle turns on; the two
    channels are recorded by whether they are closed, and [alive] is the
    child process. *)
Record Controller := mkController {
  created : bool;
  started : bool;
  alive : bool;
  ShutdownChanClosed : bool;
  StopChanClosed : bool
}.

(** [s.cmd.Process.Kill()]: the child dies, and the reaper started by
    [Create] closes [ShutdownChan]. *)
Definition killChild (c : Controller) : Controller :=
  mkController (created c) (started c) false true (StopChanClosed c).

(** The child exits by itself (the reaper closes [ShutdownChan]). *)
Definition childExits (c : Controller) : Controller :=
  mkController (created c) (started c) false true (StopChanClosed c).

(** The deferred function of the goroutine. *)
Definition listenDefer (st : ListenState) (c : Controller) : ListenState * Controller :=
  let st := onceDo (mkIE None (Some (Errorf unexpectedEnd))) st in
  let c := mkController (created c) false (alive c) (ShutdownChanClosed c) (StopChanClosed c) in
  let '(st, c) :=
    if ShutdownChanClosed c then
      (st, mkController false (started c) (alive c) true (StopChanClosed c))
    else if kill st then
      let c := killChild c in
      (emit [ProcessKill] st, mkController false (started c) (alive c) true (StopChanClosed c))
    else if normalStop st then (st, c)
    else
      let c := killChild c in
      (emit [ProcessKill] st, mkController false (started c) (alive c) true (StopChanClosed c)) in
  (st, mkController (created c) (started c) (alive c) (ShutdownChanClosed c) true).

(** The goroutine of [listen] on the frames [msgs] the child writes, then
    the end of the scanner with [scanErr].  When the scanner ends without
    an error the goroutine waits for [ShutdownChan] before it returns. *)
Definition listen (msgs : list bytes) (scanErr : option DecodeError) (c : Controller)
  : ListenState * Controller :=
  match listenLoop msgs initListen with
  | (st, true) => listenDefer st c
  | (st, false) =>
      match scanErr with
      | None => listenDefer st (childExits c)
      | Some e =>
          listenDefer (setKill (onceDo (mkIE None (Some (ScannerErr e))) st)) c
      end
  end.

(** [Shutdown(killTimeOut)] with [killTimeOut > 0]; [obeys] says whether
    the child exits in time once asked to. *)
Definition Shutdown (obeys : bool) (c : Controller) : Controller :=
  if negb (created c) then c
  else if ShutdownChanClosed c then c
  else if obeys then childExits c
  else killChild c.

(** [Start], when both writes on the child's stdin succeed and the
    goroutine of [listen] answers before the three seconds are over.  On
    an error the goroutine runs its deferred function while [Start] is on
    its way to [Shutdown]; here it runs first. *)
Definition Start (msgs : list bytes) (scanErr : option DecodeError) (obeys : bool)
    (c : Controller) : (option (list ListenerInfo) * option Err) * Controller :=
  if negb (created c) then
    ((None, Some (Errorf "Can not start, plugin has not been created")), c)
  else if started c then ((None, Some (Errorf "Plugin already started")), c)
  else
    let c := mkController (created c) (started c) (alive c) (ShutdownChanClosed c) false in
    let '(st, c') := listen msgs scanErr c in
    match once st with
    | Some (mkIE i None) =>
        (* [s.started = true]; the goroutine goes on after [Start] has returned *)
        ((i, None), mkController (created c) true (alive c) (ShutdownChanClosed c)
                                 (StopChanClosed c))
    | Some (mkIE _ (Some rerr)) => ((None, Some rerr), Shutdown obeys c')
    | None => ((None, None), c')
    end.

End Controller.

End Plugin.

(* ===================================================================== *)
(** ** The binder: the command loop of [binderOne]
       (binderserver.go, l. 243-315) *)
(* ===================================================================== *)

Module Binder.

(** [strings.Split(s, " ")]. *)
Fixpoint Split (s : bytes) (sep : byte) (cur : bytes) : list bytes :=
  match s with
  | [] => [rev cur]
  | b :: r => if Byte.eqb b sep then rev cur :: Split r sep [] else Split r sep (b :: cur)
  end.

(** Modelled from the spec: [IsStream] is not among the sources.  "if NET
    is stream ([tcp], [tcp4], [tcp6], [unix], [unixpacket])". *)
Definition IsStream (lnet : bytes) : bool :=
  bool_decide (lnet = B "tcp") || bool_decide (lnet = B "tcp4")
  || bool_decide (lnet = B "tcp6") || bool_decide (lnet = B "unix")
  || bool_decide (lnet = B "unixpacket").

Section BinderOne.
(** Listeners, packet connections and the errors of the operating system
    are opaque; [netListen] and [netListenPacket] are [net.Listen] and
    [net.ListenPacket], [errorText] is [err.Error()], and [writeOk] says
    whether a [childConn.Write] succeeds. *)
Context {Listener PacketConn OSError : Type}.
Context (netListen : bytes -> bytes -> Listener + OSError).
Context (netListenPacket : bytes -> bytes -> PacketConn + OSError).
Context (errorText : OSError -> bytes).
Context (writeOk : bytes -> bool).

Inductive Event :=
| ChildWrite (b : bytes)                      (* [childConn.Write] *)
| ListenerClose (addr : bytes)
| SendPacketConn (addr : bytes) (c : PacketConn)   (* [pchan <- ...] with a connection *)
| CloseConn (uid : bytes)                     (* [schan] and [pchan] with a uid only *)
| ResetConns.

Inductive Bound (A : Type) := Bind (r : A + OSError) | AddrPanic.
Arguments Bind {_}.
Arguments AddrPanic {_}.

(** [BinderListen] and [BinderPacket] up to the call of the [net]
    package: [parts[1]] is out of range when [addr] has no colon. *)
Definition BinderListen (addr : bytes) : Bound Listener :=
  match SplitN addr ":"%byte 2 with
  | [lnet; laddr] => Bind (netListen lnet laddr)
  | _ => AddrPanic
  end.

Definition BinderPacket (addr : bytes) : Bound PacketConn :=
  match SplitN addr ":"%byte 2 with
  | [lnet; laddr] => Bind (netListenPacket lnet laddr)
  | _ => AddrPanic
  end.

(** The listeners the binder retains, by address, in the order they were
    added (the Go map [listeners]). *)
Definition Listeners := list (bytes * Listener).

Definition setListener (addr : bytes) (l : Listener) (ls : Listeners) : Listeners :=
  (addr, l) :: List.filter (fun kv => negb (bool_decide (fst kv = addr))) ls.

Definition delListener (addr : bytes) (ls : Listeners) : Listeners :=
  List.filter (fun kv => negb (bool_decide (fst kv = addr))) ls.

Definition hasListener (addr : bytes) (ls : Listeners) : bool :=
  existsb (fun kv => bool_decide (fst kv = addr)) ls.

(** The body of [for _, addr := range strings.Split(args, " ")]; [None]
    is a panic. *)
Fixpoint listenAddrs (addrs : list bytes) (ls : Listeners)
  : option (Listeners * list Event) :=
  match addrs with
  | [] => Some (ls, [])
  | addr :: addrs' =>
      let lnet := nth 0 (SplitN addr ":"%byte 2) [] in
      let step : option (Listeners * list Event) :=
        if IsStream lnet then
          match BinderListen addr with
          | AddrPanic => None
          | Bind (inl l) =>
              let msg := B "confirmlisten " ++ addr in
              if writeOk msg then Some (setListener addr l ls, [ChildWrite msg])
              else Some (ls, [ChildWrite msg; ListenerClose addr])
          | Bind (inr e) =>
              Some (ls, [ChildWrite (B "error " ++ addr ++ [SP] ++ errorText e)])
          end
        else
          match BinderPacket addr with
          | AddrPanic => None
          | Bind (inl c) => Some (ls, [SendPacketConn addr c])
          | Bind (inr e) =>
              Some (ls, [ChildWrite (B "error " ++ addr ++ [SP] ++ errorText e)])
          end in
      match step with
      | None => None
      | Some (ls', evs) =>
          match listenAddrs addrs' ls' with
          | None => None
          | Some (ls'', evs') => Some (ls'', evs ++ evs')
          end
      end
  end.

(** How an iteration of the loop over [scanner.Scan()] ends. *)
Inductive Outcome :=
| Continue (ls : Listeners) (evs : list Event)
| Byebye
| Panicked.

(** One iteration on the line [text]. *)
Definition binderCommand (ls : Listeners) (text : bytes) : Outcome :=
  let rmsg := Trim text in
  let command := nth 0 (SplitN rmsg SP 2) [] in
  let args := Trim (drop (length command) rmsg) in
  if bool_decide (command = B "listen") then
    match listenAddrs (Split args SP []) ls with
    | Some (ls', evs) => Continue ls' evs
    | None => Panicked
    end
  else if bool_decide (command = B "closeconn") then Continue ls [CloseConn args]
  else if bool_decide (command = B "stoplisten") then
    Continue (delListener args ls)
             ((if hasListener args ls then [ListenerClose args] else [])
                ++ [ChildWrite (B "stopped " ++ args ++ [LF])])
  else if bool_decide (command = B "reset") then
    Continue [] (map (fun kv => ListenerClose (fst kv)) ls ++ [ResetConns])
  else if bool_decide (command = B "byebye") then Byebye
  else Continue ls [].

(** The replies written on the control channel. *)
Definition replies (evs : list Event) : list bytes :=
  omap (fun ev => match ev with ChildWrite b => Some b | _ => None end) evs.

End BinderOne.

(** A reply is a line when it ends with a line feed. *)
Definition isLine (b : bytes) : bool :=
  match rev b with
  | c :: _ => Byte.eqb c LF
  | [] => false
  end.

End Binder.

(* ===================================================================== *)
(** ** RELP frames on the wire, and the scanner that runs [RelpSplit] *)
(* ===================================================================== *)

Module Wire.

(** Modelled from the spec: the framer is the client's and is not among
    the sources.  "Frame format on the wire: [TXNR SP COMMAND SP DATALEN
    (SP DATA)? LF], where [DATALEN] is the byte length of [DATA]." *)
Record Frame := mkFrame {
  txnr : Z;
  command : bytes;
  data : bytes
}.

Definition header (fr : Frame) : bytes :=
  itoa (txnr fr) ++ SP :: command fr ++ SP :: itoa (len (data fr)).

(** The frame without its closing line feed. *)
Definition content (fr : Frame) : bytes :=
  header fr ++ match data fr with [] => [] | d => SP :: d end.

(** The framer. *)
Definition frame (fr : Frame) : bytes := content fr ++ [LF].

Definition stream (frs : list Frame) : bytes := concat (map frame frs).

(** [TXNR] and [DATALEN] fit Go's [int], [COMMAND] is a word. *)
Definition validFrame (fr : Frame) : Prop :=
  0 <= txnr fr < 2 ^ 63
  /\ command fr <> []
  /\ forallb (fun b => negb (splitSpaceOrLF b)) (command fr) = true
  /\ len (frame fr) < 2 ^ 63.

(** [DATA] does not end with a byte of the cutset [" \r\n"]. *)
Definition tightData (fr : Frame) : Prop :=
  match rev (data fr) with
  | [] => True
  | b :: _ => splitSpaceOrLF b = false
  end.

(** How a run of [bufio.Scanner] ends. *)
Inductive ScanEnd :=
| EndOfInput                      (* [Scan] returns false, [Err()] is nil *)
| ErrTooLong
| ErrNegativeAdvance
| ErrAdvanceTooFar
| SplitError (e : NumError)
| Panicked
| OutOfFuel.

(** [scanner.Scan()] called until it returns false, with [RelpSplit] as
    split function and a buffer of [max] bytes ([scanner.Buffer(make([]byte,
    0, 132000), 132000)]).  [buf] is the part of the buffer not yet
    consumed, [inp] what the connection will still deliver and [reads] the
    sizes of the coming reads, less one (a read returns at least a byte,
    at most what the buffer has room for); when [reads] runs out a read
    returns all it can.  [eof] is [s.err != nil]. *)
Fixpoint Scan (fuel max : nat) (buf inp : bytes) (reads : list nat) (eof : bool)
  : list bytes * ScanEnd :=
  match fuel with
  | O => ([], OutOfFuel)
  | S fuel' =>
      let more : list bytes * ScanEnd :=
        if eof then ([], EndOfInput)
        else if (max <=? length buf)%nat then ([], ErrTooLong)
        else
          match inp with
          | [] => Scan fuel' max buf [] reads true
          | _ =>
              let room := (max - length buf)%nat in
              let n := match reads with [] => room | r :: _ => Nat.min (S r) room end in
              Scan fuel' max (buf ++ take n inp) (drop n inp) (tl reads) false
          end in
      if (negb (len buf =? 0) || eof)%bool then
        match RelpSplit buf eof with
        | SplitErr e => ([], SplitError e)
        | Panic => ([], Panicked)
        | Token advance token =>
            if advance <? 0 then ([], ErrNegativeAdvance)
            else if advance >? len buf then ([], ErrAdvanceTooFar)
            else
              let (tokens, e) := Scan fuel' max (drop (Z.to_nat advance) buf) inp reads eof in
              (token :: tokens, e)
        | NeedMore => more
        end
      else more
  end.

End Wire.

(* ===================================================================== *)
(** ** The scenarios of the specification, as inputs *)
(* ===================================================================== *)

Module Scenario.

Import Plugin Parser.

Definition cfg0 : conf.SyslogConfig := conf.mkSyslogConfig "01CONF" "rfc5424" "utf8" false 0.

Definition ci0 : ConnInfo := mkConnInfo "192.0.2.7" 2514 "".

Definition buf0 : model.RawTcpMessage :=
  model.mkRaw (repeat x00 16) 0 0 "" 0 "" "" false "" "" 0%N.

(** Scenario 1 of the specification as a stream of three frames. *)
Definition happyPath : list Wire.Frame :=
  [ Wire.mkFrame 1 (B "open") (B "relp_version=0");
    Wire.mkFrame 2 (B "syslog") (B "<13>Oct 11 22:14:15 x");
    Wire.mkFrame 3 (B "close") [] ].

(** A binder whose every bind succeeds, and one whose every bind fails. *)
Definition bindsAll : bytes -> bytes -> unit + unit := fun _ _ => inl tt.

Definition bindsNone : bytes -> bytes -> unit + unit := fun _ _ => inr tt.

Definition inUse : unit -> bytes := fun _ => B "address already in use".

Definition writes : bytes -> bool := fun _ => true.

(** A child whose every body decodes. *)
Definition listen0 : @ListenState unit unit unit unit := initListen.

Definition decodesInfos : bytes -> list unit + unit := fun _ => inl [].

Definition decodes : bytes -> unit + unit := fun _ => inl tt.

Definition created0 : Controller := mkController true false true false false.

(** Scenario 2 of the specification: [2 syslog] and [3 syslog] are
    received, the outcome of 3 is forwarded first, then that of 2. *)
Definition outOfOrder : list Action :=
  [ Frame (B "1 open 0") buf0;
    Frame (B "2 syslog 4 test") buf0;
    Frame (B "3 syslog 4 test") buf0;
    EnvForwardSucc 1%N 3;
    Cook; Cook; Cook; Cook; Cook;
    EnvForwardSucc 1%N 2;
    Cook; Cook; Cook; Cook; Cook; Cook; Cook; Cook; Cook; Cook ].

Definition afterOutOfOrder : System :=
  default (snd (accept newAckForwarder))
          (run (fst (accept newAckForwarder)) cfg0 ci0 outOfOrder (snd (accept newAckForwarder))).

(** A service whose parsers know one format, and a listener configured
    with another. *)
Definition knownParser : string -> option (@ParserT bytes unit unit) :=
  fun format => if String.eqb format "rfc5424" then Some (fun m _ _ => inl m) else None.

Definition cfgCustom : conf.SyslogConfig := conf.mkSyslogConfig "01CONF" "custom" "utf8" false 0.

Definition store0 : StorePlugin bytes nat := mkStorePlugin [].

End Scenario.
Import Scenario.

(* ===================================================================== *)
(** ** The splitters of the TCP service (tcp.go, l. 258-312) *)
(* ===================================================================== *)

Module Tcp.

(** The index of the first byte on which [f] holds, -1 when there is
    none: [bytes.IndexByte] and [bytes.IndexAny] are instances. *)
Fixpoint indexFunc (f : byte -> bool) (s : bytes) : Z :=
  match s with
  | [] => -1
  | b :: r =>
      if f b then 0
      else
        let i := indexFunc f r in
        if i <? 0 then -1 else i + 1
  end.

(** [bytes.IndexByte(s, c)]. *)
Definition IndexByte (s : bytes) (c : byte) : Z :=
  indexFunc (fun b => Byte.eqb b c) s.

(** [bytes.IndexAny(s, " \n")]. *)
Definition IndexAny (s : bytes) : Z :=
  indexFunc (fun b => (Byte.eqb b SP || Byte.eqb b LF)%bool) s.

(** The slice expression [s[lo:hi]]; [None] is the panic of a bound out
    of range.  Go checks [hi] against the capacity: where [TcpSplit]
    slices, [hi] is either at most the length or has wrapped around. *)
Definition slice (s : bytes) (lo hi : Z) : option bytes :=
  if (0 <=? lo) && (lo <=? hi) && (hi <=? len s)
  then Some (take (Z.to_nat (hi - lo)) (drop (Z.to_nat lo) s))
  else None.

Definition LFTcpSplit (data : bytes) (atEOF : bool) : SplitResult :=
  let trimmed_data := TrimLeft data in
  if len trimmed_data =? 0 then NeedMore
  else
    let trimmed := len data - len trimmed_data in
    let lf := IndexByte trimmed_data LF in
    if lf >=? 0 then
      let token := Trim (take (Z.to_nat lf) trimmed_data) in
      let advance := trimmed + lf + 1 in
      Token advance token
    else
      (* data does not contain a full syslog line *)
      NeedMore.

Definition TcpSplit (data : bytes) (atEOF : bool) : SplitResult :=
  let trimmed_data := TrimLeft data in
  if len trimmed_data =? 0 then NeedMore
  else
    let trimmed := len data - len trimmed_data in
    if Byte.eqb (nth 0 trimmed_data x00) "<"%byte then
      (* LF framing *)
      let lf := IndexByte trimmed_data LF in
      if lf >=? 0 then
        let token := Trim (take (Z.to_nat lf) trimmed_data) in
        let advance := trimmed + lf + 1 in
        Token advance token
      else NeedMore
    else
      (* octet counting framing *)
      let sp := IndexAny trimmed_data in
      if sp <=? 0 then NeedMore
      else
        let datalen_s := Trim (take (Z.to_nat sp) trimmed_data) in
        match Atoi datalen_s with
        | (_, Some err) => SplitErr err
        | (datalen, None) =>
            let advance := add64 (trimmed + sp + 1) datalen in
            if len data >=? advance then
              match slice trimmed_data (sp + 1) (add64 (sp + 1) datalen) with
              | Some t => Token advance (Trim t)
              | None => Panic
              end
            else NeedMore
        end.

(** Octet counting on the wire: the length in decimal, a space, the
    message (RFC 6587, the sender's side; it is not among the sources). *)
Definition octetFrame (msg : bytes) : bytes := itoa (len msg) ++ SP :: msg.

(** A byte of the cutset [" \r\n"] only. *)
Definition blank (s : bytes) : Prop := Forall (fun b => splitSpaceOrLF b = true) s.

End Tcp.
Import Tcp.

(* ===================================================================== *)
(** ** What a run of the handler leaves in its trace *)
(* ===================================================================== *)

Module HandlerTrace.

(** The transaction numbers passed to [s.forwarder.Received], in order. *)
Definition receivedTxnrs (evs : list Handler.Event) : list Z :=
  omap (fun ev => match ev with FwdReceived _ t => Some t | _ => None end) evs.

(** A RELP header whose fields are separated by line feeds, with its
    body. *)
Definition lfFrame (txnr : Z) (command body : bytes) : bytes :=
  itoa txnr ++ LF :: command ++ LF :: itoa (len body) ++ LF :: body.

End HandlerTrace.
Import HandlerTrace.

(* ===================================================================== *)
(** ** What a parser worker leaves in its trace *)
(* ===================================================================== *)

Module ParserTrace.

Import Parser.

Section Trace.
Context {SyslogMessage ULID : Type}.

(** The outcomes passed to the forwarder, in order: the connection, the
    transaction number, and whether it was [ForwardSucc]. *)
Definition forwarded (evs : list (Event SyslogMessage ULID)) : list (N * Z * bool) :=
  omap (fun ev => match ev with
                  | FwdForwardSucc c t => Some (c, t, true)
                  | FwdForwardFail c t => Some (c, t, false)
                  | _ => None
                  end) evs.

(** The messages put in the parsed queue, in order. *)
Definition parsedQueuePuts (evs : list (Event SyslogMessage ULID))
  : list (TcpUdpParsedMessage SyslogMessage ULID) :=
  omap (fun ev => match ev with ParsedQueuePut m => Some m | _ => None end) evs.

(** The connection and the transaction number of a buffer. *)
Definition key (raw : model.RawTcpMessage) : N * Z := (model.ConnID raw, model.Txnr raw).

End Trace.

End ParserTrace.

(* ===================================================================== *)
(** ** Direct mode: [push2kafka] and [handleKafkaResponses]
       (relp.go, l. 622-661 and 715-841) *)
(* ===================================================================== *)

Module Kafka.

Import Parser.

Section Push.
(** [model.SyslogMessage], the ULIDs, [conf.SyslogConfig] as the filters
    see it, the JavaScript environment, the serialized message and the
    errors are collaborators' types. *)
Context {SyslogMessage ULID Config Env Serialized Error : Type}.

Let Msg := TcpUdpParsedMessage SyslogMessage ULID.

(** [javascript.FilterResult]; [FilterOther] stands for any other value. *)
Inductive FilterResult := DROPPED | REJECTED | PASS | FilterOther.

(** [meta{Txnr, ConnID}], the metadata of a producer message. *)
Record meta := mkMeta { Txnr : Z; ConnID : N }.

(** [sarama.ProducerMessage]. *)
Record ProducerMessage := mkProducerMessage {
  Key : string;
  Partition : Z;
  Value : Serialized;
  Topic : string;
  Timestamp : Z;
  Metadata : meta
}.

(** What [push2kafka] does outside its locals, in program order; what
    follows a [StopAndWait] happens when that call returns. *)
Inductive Event :=
| FwdForwardSucc (connID : N) (txnr : Z)
| FwdForwardFail (connID : N) (txnr : Z)
| MessageFilteringInc (result client : string)
| ProducerInput (m : ProducerMessage)
| StopAndWait
| AsyncClose.

(** What [s.parsedMessagesQueue.Get()] returns after a [Wait(0)] that
    returned true: a message, nil, or an error. *)
Inductive Got := GotMessage (m : Msg) | GotNil | GotError.

(** [s.configs], [javascript.NewFilterEnvironment] and the methods of the
    environment, which may change it; [Marshal] is [ffjson.Marshal] on the
    message with its two time fields set. *)
Context (configs : string -> option Config).
Context (NewFilterEnvironment : Config -> Env).
Context (TopicOf : Env -> SyslogMessage -> Env * string).
Context (PartitionKey : Env -> SyslogMessage -> Env * string).
Context (PartitionNumber : Env -> SyslogMessage -> Env * Z).
Context (FilterMessage : Env -> SyslogMessage -> Env * (FilterResult * SyslogMessage)).
Context (Marshal : ParsedMessage SyslogMessage -> Serialized + Error).
(** [message.Parsed.Fields.TimeReportedNum]. *)
Context (TimeReportedNum : SyslogMessage -> Z).
(** [s.test]. *)
Context (test : bool).

(** The local map [envs], by configuration id. *)
Definition Envs := list (string * Env).

Definition getEnv (envs : Envs) (confId : string) : option Env :=
  match List.find (fun kv => String.eqb (fst kv) confId) envs with
  | Some kv => Some (snd kv)
  | None => None
  end.

(** The environments are reached through pointers: a method that changes
    one changes the entry of the map. *)
Definition setEnv (envs : Envs) (confId : string) (e : Env) : Envs :=
  (confId, e) :: List.filter (fun kv => negb (String.eqb (fst kv) confId)) envs.

(** One iteration of [ForParsedChan] on a message. *)
Definition pushOne (envs : Envs) (message : Msg) : Envs * list Event :=
  let confId := ConfId message in
  let fields := Fields (Parsed message) in
  let client := Client (Parsed message) in
  let found : option (Envs * Env) :=
    match getEnv envs confId with
    | Some e => Some (envs, e)
    | None =>
        match configs confId with
        | None => None
        | Some config =>
            let e := NewFilterEnvironment config in
            Some (setEnv envs confId e, e)
        end
    end in
  match found with
  | None => (envs, [])
  | Some (envs, e) =>
      let (e, topic) := TopicOf e fields in
      if (String.length topic =? 0)%nat then
        (setEnv envs confId e,
         [FwdForwardFail (Parser.ConnID message) (Parser.Txnr message)])
      else
        let (e, partitionKey) := PartitionKey e fields in
        let (e, partitionNumber) := PartitionNumber e fields in
        let '(e, (filterResult, fields)) := FilterMessage e fields in
        let envs := setEnv envs confId e in
        match filterResult with
        | DROPPED =>
            (envs, [FwdForwardFail (Parser.ConnID message) (Parser.Txnr message);
                    MessageFilteringInc "dropped" client])
        | REJECTED =>
            (envs, [FwdForwardFail (Parser.ConnID message) (Parser.Txnr message);
                    MessageFilteringInc "rejected" client])
        | FilterOther =>
            (envs, [FwdForwardFail (Parser.ConnID message) (Parser.Txnr message);
                    MessageFilteringInc "unknown" client])
        | PASS =>
            let parsed := mkParsed fields client (LocalPort (Parsed message))
                                   (UnixSocketPath (Parsed message)) in
            match Marshal parsed with
            | inr _ =>
                (envs, [MessageFilteringInc "passing" client;
                        FwdForwardFail (Parser.ConnID message) (Parser.Txnr message)])
            | inl serialized =>
                let kafkaMsg :=
                  mkProducerMessage partitionKey partitionNumber serialized topic
                                    (TimeReportedNum fields)
                                    (mkMeta (Parser.Txnr message) (Parser.ConnID message)) in
                if test then
                  (envs, [MessageFilteringInc "passing" client;
                          FwdForwardSucc (Parser.ConnID message) (Parser.Txnr message)])
                else
                  (envs, [MessageFilteringInc "passing" client; ProducerInput kafkaMsg])
            end
        end
  end.

(** The loop over what the parsed queue delivers until it is disposed and
    drained. *)
Fixpoint pushLoop (envs : Envs) (gots : list Got) : list Event :=
  match gots with
  | [] => []
  | GotError :: _ => [StopAndWait]
  | GotNil :: gots' => pushLoop envs gots'
  | GotMessage message :: gots' =>
      let (envs, evs) := pushOne envs message in
      evs ++ pushLoop envs gots'
  end.

(** [push2kafka], with its deferred [s.producer.AsyncClose()]. *)
Definition push2kafka (gots : list Got) : list Event :=
  pushLoop [] gots ++ [AsyncClose].

(** The messages the loop reaches: those before the first error. *)
Fixpoint reached (gots : list Got) : list Msg :=
  match gots with
  | [] => []
  | GotError :: _ => []
  | GotNil :: gots' => reached gots'
  | GotMessage message :: gots' => message :: reached gots'
  end.

(** The transactions for which an outcome is forwarded or a message is
    handed to the producer, in order. *)
Definition settled (evs : list Event) : list (N * Z) :=
  omap (fun ev => match ev with
                  | FwdForwardSucc c t | FwdForwardFail c t => Some (c, t)
                  | ProducerInput m => Some (ConnID (Metadata m), Txnr (Metadata m))
                  | _ => None
                  end) evs.

Definition isForwardSucc (ev : Event) : bool :=
  match ev with FwdForwardSucc _ _ => true | _ => false end.

Definition isProducerInput (ev : Event) : bool :=
  match ev with ProducerInput _ => true | _ => false end.

Definition isStopAndWait (ev : Event) : bool :=
  match ev with StopAndWait => true | _ => false end.

Definition hasConfig (message : Msg) : bool :=
  match configs (ConfId message) with Some _ => true | None => false end.

End Push.

Arguments Event : clear implicits.
Arguments Got : clear implicits.

(** What the [select] of [handleKafkaResponses] receives: a success or an
    error of the producer (with [model.IsFatalKafkaError(fail.Err)]), or
    the closing of one of the two channels. *)
Inductive Response :=
| Success (metad : meta) (topic : string)
| Failure (metad : meta) (topic : string) (fatal : bool)
| SuccessesClosed
| ErrorsClosed.

Inductive ResponseEvent :=
| RespForwardSucc (connID : N) (txnr : Z)
| RespForwardFail (connID : N) (txnr : Z)
| KafkaAckNackInc (kind topic : string)
| RespStopAndWait.

(** How the goroutine stands when the responses run out: it has returned
    because both channels are nil, it waits in the [select], or it has
    called [s.StopAndWait()] and returns when that call does. *)
Inductive Ending := Returned | Selecting | Stopping.

(** The loop; [succOpen] and [failOpen] say that [kafkaSuccChan] and
    [kafkaFailChan] are not nil.  A nil channel is never selected: a
    response for it cannot come. *)
Fixpoint responsesLoop (succOpen failOpen : bool) (rs : list Response)
  : list ResponseEvent * Ending :=
  if negb succOpen && negb failOpen then ([], Returned)
  else
    match rs with
    | [] => ([], Selecting)
    | Success metad topic :: rs' =>
        if succOpen then
          let (evs, e) := responsesLoop succOpen failOpen rs' in
          (RespForwardSucc (ConnID metad) (Txnr metad) :: KafkaAckNackInc "ack" topic :: evs, e)
        else responsesLoop succOpen failOpen rs'
    | SuccessesClosed :: rs' =>
        if succOpen then responsesLoop false failOpen rs'
        else responsesLoop succOpen failOpen rs'
    | Failure metad topic fatal :: rs' =>
        if failOpen then
          if fatal then
            ([RespForwardFail (ConnID metad) (Txnr metad); KafkaAckNackInc "nack" topic;
              RespStopAndWait], Stopping)
          else
            let (evs, e) := responsesLoop succOpen failOpen rs' in
            (RespForwardFail (ConnID metad) (Txnr metad) :: KafkaAckNackInc "nack" topic :: evs, e)
        else responsesLoop succOpen failOpen rs'
    | ErrorsClosed :: rs' =>
        if failOpen then responsesLoop succOpen false rs'
        else responsesLoop succOpen failOpen rs'
    end.

Definition handleKafkaResponses (rs : list Response) : list ResponseEvent * Ending :=
  responsesLoop true true rs.

(** The outcomes forwarded, in order. *)
Definition answered (evs : list ResponseEvent) : list (N * Z * bool) :=
  omap (fun ev => match ev with
                  | RespForwardSucc c t => Some (c, t, true)
                  | RespForwardFail c t => Some (c, t, false)
                  | _ => None
                  end) evs.

(** The responses up to the first fatal error, that one included. *)
Fixpoint upToFatal (rs : list Response) : list Response :=
  match rs with
  | [] => []
  | Failure metad topic true :: _ => [Failure metad topic true]
  | r :: rs' => r :: upToFatal rs'
  end.

(** The outcome a response carries. *)
Definition outcomeOf (r : Response) : option (N * Z * bool) :=
  match r with
  | Success metad _ => Some (ConnID metad, Txnr metad, true)
  | Failure metad _ _ => Some (ConnID metad, Txnr metad, false)
  | _ => None
  end.

Definition isFatal (r : Response) : bool :=
  match r with Failure _ _ true => true | _ => false end.

Definition isSuccessesClosed (r : Response) : bool :=
  match r with SuccessesClosed => true | _ => false end.

Definition isErrorsClosed (r : Response) : bool :=
  match r with ErrorsClosed => true | _ => false end.

(** The responses a producer can deliver: none on a channel after its
    closing. *)
Fixpoint wellFormed (succOpen failOpen : bool) (rs : list Response) : bool :=
  match rs with
  | [] => true
  | Success _ _ :: rs' => succOpen && wellFormed succOpen failOpen rs'
  | SuccessesClosed :: rs' => succOpen && wellFormed false failOpen rs'
  | Failure _ _ _ :: rs' => failOpen && wellFormed succOpen failOpen rs'
  | ErrorsClosed :: rs' => failOpen && wellFormed succOpen false rs'
  end.

End Kafka.

(* ===================================================================== *)
(** ** What the goroutine of [listen] leaves in its trace *)
(* ===================================================================== *)

Module PluginTrace.

Import Plugin.

(** The messages passed to [s.stasher.Stash], in order. *)
Definition stashed {ListenerInfo Message Families : Type}
    (evs : list (@Event ListenerInfo Message Families)) : list Message :=
  omap (fun ev => match ev with StasherStash m => Some m | _ => None end) evs.

End PluginTrace.

(* ===================================================================== *)
(** ** The binder's client side: the command lines it receives *)
(* ===================================================================== *)

Module BinderClient.

(** [strings.Join(addrs, " ")]: the argument of a [listen] command for
    several addresses. *)
Fixpoint Join (addrs : list bytes) : bytes :=
  match addrs with
  | [] => []
  | [addr] => addr
  | addr :: addrs' => addr ++ SP :: Join addrs'
  end.

(** An address without a colon. *)
Definition noColon (addr : bytes) : Prop :=
  Forall (fun b => Byte.eqb b ":"%byte = false) addr.

End BinderClient.
Import BinderClient.

(* ===================================================================== *)
(** ** The life cycle of the RELP service (relp.go, l. 397-530) *)
(* ===================================================================== *)

Module Service.

Inductive RelpServerStatus := Stopped | Started | FinalStopped | Waiting.

#[global] Instance RelpServerStatus_eq_dec : EqDecision RelpServerStatus.
Proof. solve_decision. Defined.

(** [s.StatusChan]: what was sent on it, in order, and whether it is
    closed.  The wrapper [RelpService] receives from it until it reads
    [FinalStopped]. *)
Record Chan := mkChan {
  sent : list RelpServerStatus;
  closed : bool
}.

(** The fields of [RelpServiceImpl] the life cycle turns on; [queues] says
    that [rawMessagesQueue] and [parsedMessagesQueue] are not nil. *)
Record RelpServiceImpl := mkImpl {
  status : RelpServerStatus;
  StatusChan : Chan;
  test : bool;
  direct : bool;
  queues : bool
}.

Definition NewRelpServiceImpl (direct : bool) : RelpServiceImpl :=
  mkImpl Stopped (mkChan [] false) false direct false.

(** What the methods do outside these fields, in program order.  The
    waits on the goroutines ([ParseWgWait], [WgWait]) are recorded and
    taken to return. *)
Inductive Event :=
| InitTCPListeners
| ResetTCPListeners
| GetAsyncProducer
| NewQueues
| GoPush2kafka
| GoHandleKafkaResponses
| GoParse
| Listen
| RawQueueDispose
| ParseWgWait
| ParsedQueueDispose
| ForwarderRemoveAll
| WgWait.

Inductive StartError := ServerDefinitelyStopped | ServerNotStopped | ProducerError.

(** [s.status = st; s.StatusChan <- st]; a send on a closed channel
    panics ([None]).  The channel has room for ten statuses and the
    wrapper reads them: a send on the open channel is taken to return. *)
Definition announce (st : RelpServerStatus) (s : RelpServiceImpl) : option RelpServiceImpl :=
  if closed (StatusChan s) then None
  else Some (mkImpl st (mkChan (sent (StatusChan s) ++ [st]) false)
                    (test s) (direct s) (queues s)).

(** [close(s.StatusChan)]; closing a closed channel panics. *)
Definition closeChan (s : RelpServiceImpl) : option RelpServiceImpl :=
  if closed (StatusChan s) then None
  else Some (mkImpl (status s) (mkChan (sent (StatusChan s)) true)
                    (test s) (direct s) (queues s)).

(** [Start(test)]: [nInfos] is the number of listeners [initTCPListeners]
    opens, [producerOk] whether [GetAsyncProducer] succeeds, [cpus] is
    [runtime.NumCPU()].  The result is the number of listeners or the
    error. *)
Definition Start (test0 : bool) (nInfos : nat) (producerOk : bool) (cpus : nat)
    (s : RelpServiceImpl)
  : option (RelpServiceImpl * list Event * (nat + StartError)) :=
  if bool_decide (status s = FinalStopped) then Some (s, [], inr ServerDefinitelyStopped)
  else if bool_decide (status s <> Stopped) && bool_decide (status s <> Waiting) then
    Some (s, [], inr ServerNotStopped)
  else
    let s := mkImpl (status s) (StatusChan s) test0 (direct s) (queues s) in
    if (nInfos =? 0)%nat then Some (s, [InitTCPListeners], inl nInfos)
    else if negb (test s) && direct s && negb producerOk then
      Some (s, [InitTCPListeners; GetAsyncProducer; ResetTCPListeners], inr ProducerError)
    else
      let kafka :=
        if negb (test s) && direct s then [GoPush2kafka; GoHandleKafkaResponses] else [] in
      let producer := if negb (test s) && direct s then [GetAsyncProducer] else [] in
      let s := mkImpl (status s) (StatusChan s) (test s) (direct s) true in
      match announce Started s with
      | None => None
      | Some s =>
          Some (s, [InitTCPListeners] ++ producer ++ [NewQueues] ++ kafka
                     ++ repeat GoParse cpus ++ [Listen],
                inl nInfos)
      end.

Definition doStop (final wait : bool) (s : RelpServiceImpl)
  : option (RelpServiceImpl * list Event) :=
  if final && (bool_decide (status s = Waiting) || bool_decide (status s = Stopped)
               || bool_decide (status s = FinalStopped)) then
    if bool_decide (status s <> FinalStopped) then
      match announce FinalStopped s with
      | None => None
      | Some s => match closeChan s with None => None | Some s => Some (s, []) end
      end
    else Some (s, [])
  else if bool_decide (status s = Stopped) || bool_decide (status s = FinalStopped)
          || bool_decide (status s = Waiting) then
    if bool_decide (status s = Stopped) && wait then
      match announce Waiting s with None => None | Some s => Some (s, []) end
    else Some (s, [])
  else
    let evs :=
      [ResetTCPListeners]
        ++ (if queues s then [RawQueueDispose] else [])
        ++ [ParseWgWait]
        ++ (if queues s then [ParsedQueueDispose] else [])
        ++ [ForwarderRemoveAll; WgWait] in
    if final then
      match announce FinalStopped s with
      | None => None
      | Some s => match closeChan s with None => None | Some s => Some (s, evs) end
      end
    else if wait then
      match announce Waiting s with None => None | Some s => Some (s, evs) end
    else
      match announce Stopped s with None => None | Some s => Some (s, evs) end.

Definition Stop (s : RelpServiceImpl) := doStop false false s.
Definition FinalStop (s : RelpServiceImpl) := doStop true false s.
Definition StopAndWait (s : RelpServiceImpl) := doStop false true s.

Definition EndWait (s : RelpServiceImpl) : option (RelpServiceImpl * list Event) :=
  if bool_decide (status s <> Waiting) then Some (s, [])
  else match announce Stopped s with None => None | Some s => Some (s, []) end.

(** A call on the service, with what its environment answers. *)
Inductive Call :=
| CallStart (test0 : bool) (nInfos : nat) (producerOk : bool) (cpus : nat)
| CallStop
| CallFinalStop
| CallStopAndWait
| CallEndWait.

Definition call (c : Call) (s : RelpServiceImpl) : option (RelpServiceImpl * list Event) :=
  match c with
  | CallStart t n p cpus =>
      match Start t n p cpus s with
      | Some (s', evs, _) => Some (s', evs)
      | None => None
      end
  | CallStop => Stop s
  | CallFinalStop => FinalStop s
  | CallStopAndWait => StopAndWait s
  | CallEndWait => EndWait s
  end.

(** The calls are serialized by the status lock. *)
Fixpoint calls (cs : list Call) (s : RelpServiceImpl) : option (RelpServiceImpl * list Event) :=
  match cs with
  | [] => Some (s, [])
  | c :: cs' =>
      match call c s with
      | None => None
      | Some (s', evs) =>
          match calls cs' s' with
          | None => None
          | Some (s'', evs') => Some (s'', evs ++ evs')
          end
      end
  end.

(** The status channel is closed when the service is definitely stopped,
    and only then; the last status sent is the status of the service. *)
Definition statusInv (s : RelpServiceImpl) : Prop :=
  (closed (StatusChan s) = true <-> status s = FinalStopped)
  /\ ((sent (StatusChan s) = [] /\ status s = Stopped)
      \/ last (sent (StatusChan s)) = Some (status s)).

End Service.

(* ===================================================================== *)
(** ** The life cycle of the TCP service (tcp.go, l. 98-143) *)
(* ===================================================================== *)

Module TcpService.

Inductive TcpServerStatus := TcpStopped | TcpStarted.

#[global] Instance TcpServerStatus_eq_dec : EqDecision TcpServerStatus.
Proof. solve_decision. Defined.

(** A channel made by [make(chan TcpServerStatus, 1)]: the values it
    buffers, and whether it is closed. *)
Record Chan := mkChan {
  buffered : list TcpServerStatus;
  closed : bool
}.

(** [statusChan] is nil ([None]) until the first [Start]. *)
Record tcpServerImpl := mkTcp {
  status : TcpServerStatus;
  statusChan : option Chan
}.

Definition NewTcpService : tcpServerImpl := mkTcp TcpStopped None.

Inductive Event := InitTCPListeners | Listen | ResetTCPListeners | WgWait.

(** How a call ends: it returns, it blocks (as long as no other
    goroutine changes the channel), or it panics.  The wait on the
    goroutines ([WgWait]) is recorded and taken to return. *)
Inductive Outcome (A : Type) :=
| Returns (s : tcpServerImpl) (evs : list Event) (r : A)
| Blocks
| Panics.
Arguments Returns {_}.
Arguments Blocks {_}.
Arguments Panics {_}.

Inductive StartError := ServerNotStopped.

(** [Start(test)]; [nInfos] is the number of listeners that
    [initTCPListeners] opens. *)
Definition Start (nInfos : nat) (s : tcpServerImpl) : Outcome (nat + StartError) :=
  if bool_decide (status s <> TcpStopped) then Returns s [] (inr ServerNotStopped)
  else
    let ch := mkChan [] false in
    if (0 <? nInfos)%nat then
      Returns (mkTcp TcpStarted (Some ch)) [InitTCPListeners; Listen] (inl nInfos)
    else
      Returns (mkTcp (status s) (Some (mkChan (buffered ch) true))) [InitTCPListeners]
              (inl nInfos).

(** [Stop()]: a send on a nil channel or on a full one that nobody reads
    blocks, a send on a closed channel panics, and so does closing a nil
    or a closed channel. *)
Definition Stop (s : tcpServerImpl) : Outcome unit :=
  if bool_decide (status s <> TcpStarted) then Returns s [] tt
  else
    match statusChan s with
    | None => Blocks
    | Some ch =>
        if closed ch then Panics
        else if (1 <=? length (buffered ch))%nat then Blocks
        else
          Returns (mkTcp TcpStopped (Some (mkChan (buffered ch ++ [TcpStopped]) true)))
                  [ResetTCPListeners; WgWait] tt
    end.

(** [WaitClosed()]: it receives until the channel is closed; on a nil
    channel, or on an open one once it is empty, it blocks. *)
Definition WaitClosed (s : tcpServerImpl) : Outcome unit :=
  match statusChan s with
  | None => Blocks
  | Some ch =>
      if closed ch then Returns (mkTcp (status s) (Some (mkChan [] true))) [] tt
      else Blocks
  end.

Inductive Call := CallStart (nInfos : nat) | CallStop | CallWaitClosed.

Definition call (c : Call) (s : tcpServerImpl) : Outcome unit :=
  match c with
  | CallStart n =>
      match Start n s with
      | Returns s' evs _ => Returns s' evs tt
      | Blocks => Blocks
      | Panics => Panics
      end
  | CallStop => Stop s
  | CallWaitClosed => WaitClosed s
  end.

(** The calls one after the other, each made once the one before has
    returned. *)
Fixpoint calls (cs : list Call) (s : tcpServerImpl) : Outcome unit :=
  match cs with
  | [] => Returns s [] tt
  | c :: cs' =>
      match call c s with
      | Returns s' evs _ =>
          match calls cs' s' with
          | Returns s'' evs' _ => Returns s'' (evs ++ evs') tt
          | Blocks => Blocks
          | Panics => Panics
          end
      | Blocks => Blocks
      | Panics => Panics
      end
  end.

(** The invariant of the two fields. *)
Definition statusInv (s : tcpServerImpl) : Prop :=
  match status s with
  | TcpStarted => statusChan s = Some (mkChan [] false)
  | TcpStopped =>
      statusChan s = None \/ exists b, statusChan s = Some (mkChan b true)
  end.

End TcpService.

(* ===================================================================== *)
(** ** The life cycle of the UDP service ([udpServiceImpl], l. 183-229 of
       the file that holds it) *)
(* ===================================================================== *)

Module UdpService.

Inductive UdpServerStatus := UdpStopped | UdpStarted.

#[global] Instance UdpServerStatus_eq_dec : EqDecision UdpServerStatus.
Proof. solve_decision. Defined.

(** A channel made by [make(chan UdpServerStatus, 1)]: the values it
    buffers, and whether it is closed. *)
Record Chan := mkChan {
  buffered : list UdpServerStatus;
  closed : bool
}.

(** [statusChan] is nil ([None]) until the first [Start]. *)
Record udpServiceImpl := mkUdp {
  status : UdpServerStatus;
  statusChan : option Chan
}.

Definition NewUdpService : udpServiceImpl := mkUdp UdpStopped None.

Inductive Event := ResetConnections | ListenPacket | CloseConnections | WgWait.

(** How a call ends: it returns, it blocks (as long as no other
    goroutine changes the channel), or it panics.  The wait on the
    goroutines ([WgWait]) is recorded and taken to return. *)
Inductive Outcome (A : Type) :=
| Returns (s : udpServiceImpl) (evs : list Event) (r : A)
| Blocks
| Panics.
Arguments Returns {_}.
Arguments Blocks {_}.
Arguments Panics {_}.

Inductive StartError := ServerNotStopped.

(** [Start(test)]; [nInfos] is the number of listeners that
    [ListenPacket] opens. *)
Definition Start (nInfos : nat) (s : udpServiceImpl) : Outcome (nat + StartError) :=
  if bool_decide (status s <> UdpStopped) then Returns s [] (inr ServerNotStopped)
  else
    let ch := mkChan [] false in
    if (0 <? nInfos)%nat then
      Returns (mkUdp UdpStarted (Some ch)) [ResetConnections; ListenPacket] (inl nInfos)
    else
      Returns (mkUdp (status s) (Some (mkChan (buffered ch) true)))
              [ResetConnections; ListenPacket] (inl nInfos).

(** [Stop()]: a send on a nil channel or on a full one that nobody reads
    blocks, a send on a closed channel panics, and so does closing a nil
    or a closed channel. *)
Definition Stop (s : udpServiceImpl) : Outcome unit :=
  if bool_decide (status s <> UdpStarted) then Returns s [] tt
  else
    match statusChan s with
    | None => Blocks
    | Some ch =>
        if closed ch then Panics
        else if (1 <=? length (buffered ch))%nat then Blocks
        else
          Returns (mkUdp UdpStopped (Some (mkChan (buffered ch ++ [UdpStopped]) true)))
                  [CloseConnections; WgWait] tt
    end.

(** [WaitClosed()]: it receives until the channel is closed; on a nil
    channel, or on an open one once it is empty, it blocks. *)
Definition WaitClosed (s : udpServiceImpl) : Outcome unit :=
  match statusChan s with
  | None => Blocks
  | Some ch =>
      if closed ch then Returns (mkUdp (status s) (Some (mkChan [] true))) [] tt
      else Blocks
  end.

Inductive Call := CallStart (nInfos : nat) | CallStop | CallWaitClosed.

Definition call (c : Call) (s : udpServiceImpl) : Outcome unit :=
  match c with
  | CallStart n =>
      match Start n s with
      | Returns s' evs _ => Returns s' evs tt
      | Blocks => Blocks
      | Panics => Panics
      end
  | CallStop => Stop s
  | CallWaitClosed => WaitClosed s
  end.

(** The calls one after the other, each made once the one before has
    returned. *)
Fixpoint calls (cs : list Call) (s : udpServiceImpl) : Outcome unit :=
  match cs with
  | [] => Returns s [] tt
  | c :: cs' =>
      match call c s with
      | Returns s' evs _ =>
          match calls cs' s' with
          | Returns s'' evs' _ => Returns s'' (evs ++ evs') tt
          | Blocks => Blocks
          | Panics => Panics
          end
      | Blocks => Blocks
      | Panics => Panics
      end
  end.

(** The invariant of the two fields. *)
Definition statusInv (s : udpServiceImpl) : Prop :=
  match status s with
  | UdpStarted => statusChan s = Some (mkChan [] false)
  | UdpStopped =>
      statusChan s = None \/ exists b, statusChan s = Some (mkChan b true)
  end.

End UdpService.

(* ===================================================================== *)
(** ** The names of the services (factory.go, l. 17-51) *)
(* ===================================================================== *)

Module Factory.

Inductive Types :=
| TCP | UDP | RELP | Journal | Store | Accounting | KafkaSource | Configuration.

#[global] Instance Types_eq_dec : EqDecision Types.
Proof. solve_decision. Defined.

(** The map literal [Names2Types], as its entries. *)
Definition Names2Types : list (string * Types) :=
  [ ("skewer-tcp", TCP);
    ("skewer-udp", UDP);
    ("skewer-relp", RELP);
    ("skewer-journal", Journal);
    ("skewer-store", Store);
    ("skewer-accounting", Accounting);
    ("skewer-kafkasource", KafkaSource);
    ("skewer-conf", Configuration) ]%string.

(** A [map[Types]string]. *)
Definition TypeMap := Types -> option string.

Definition empty : TypeMap := fun _ => None.

(** [m[k] = v]. *)
Definition set (m : TypeMap) (k : Types) (v : string) : TypeMap :=
  fun k' => if bool_decide (k' = k) then Some v else m k'.

(** [init()]: the loop [for k, v := range Names2Types] visits the entries
    in an order [order] that Go does not specify; the result is
    [(Types2Names, Types2ConfinedNames)]. *)
Definition init (order : list (string * Types)) : TypeMap * TypeMap :=
  foldl (fun maps kv =>
           (set (fst maps) (snd kv) (fst kv),
            set (snd maps) (snd kv) ("confined-" ++ fst kv)%string))
        (empty, empty) order.

End Factory.

(* ===================================================================== *)
(** * Properties *)
(* ===================================================================== *)

(** ** Byte slices, fields and decimal numbers *)

Section BytesFacts.



Lemma digitOf_val (k : N) : (k < 10)%N -> digitVal (digitOf k) = Some (Z.of_N k).
Proof.
  intros Hk.
  assert (Hc : k = 0%N \/ k = 1%N \/ k = 2%N \/ k = 3%N \/ k = 4%N \/ k = 5%N
               \/ k = 6%N \/ k = 7%N \/ k = 8%N \/ k = 9%N) by lia.
  repeat (destruct Hc as [-> | Hc]; [reflexivity |]). subst k. reflexivity.
Qed.

Lemma digitOf_isDigit (k : N) : (k < 10)%N -> isDigit (digitOf k).
Proof. intros Hk. exists (Z.of_N k). rewrite digitOf_val by done. split; [done | lia]. Qed.

Lemma isDigit_not_space (b : byte) : isDigit b -> splitSpaceOrLF b = false.
Proof.
  intros (d & Hd & _). unfold digitVal in Hd.
  destruct b; vm_compute in Hd; try discriminate; reflexivity.
Qed.

Lemma isDigit_not_sign (b : byte) :
  isDigit b -> Byte.eqb b "+"%byte = false /\ Byte.eqb b "-"%byte = false.
Proof.
  intros (d & Hd & _). unfold digitVal in Hd.
  destruct b; vm_compute in Hd; try discriminate; split; reflexivity.
Qed.

Lemma digitsFrom_app (fuel : nat) : forall (n : N) (acc : bytes),
  (0 < fuel)%nat ->
  exists ds, digitsFrom fuel n acc = ds ++ acc /\ ds <> [] /\ Forall isDigit ds.
Proof.
  induction fuel as [|fuel IH]; intros n acc Hf; [lia |].
  cbn [digitsFrom]. fold (digitOf (n mod 10)).
  assert (Hd : isDigit (digitOf (n mod 10))).
  { apply digitOf_isDigit. apply N.mod_lt. lia. }
  destruct (n <? 10)%N eqn:Hn.
  - exists [digitOf (n mod 10)]. repeat split; [done | by constructor].
  - destruct fuel as [|fuel].
    + exists [digitOf (n mod 10)]. repeat split; [done | by constructor].
    + destruct (IH (n / 10)%N (digitOf (n mod 10) :: acc)) as (ds & -> & Hne & Hall); [lia |].
      exists (ds ++ [digitOf (n mod 10)]). rewrite <- app_assoc. repeat split.
      * destruct ds; done.
      * apply Forall_app. split; [done | by constructor].
Qed.

Lemma parseUintFrom_step (c : byte) (r : bytes) (a d : Z) :
  digitVal c = Some d -> 0 <= a -> 0 <= d <= 9 -> a * 10 + d <= maxUint64 ->
  parseUintFrom (c :: r) a = parseUintFrom r (a * 10 + d).
Proof.
  intros Hc Ha Hd Hmax. cbn [parseUintFrom]. rewrite Hc.
  assert (E1 : maxUint64 = 18446744073709551615) by reflexivity.
  assert (E2 : maxUint64 / 10 + 1 = 1844674407370955162) by reflexivity.
  rewrite E2. rewrite E1 in *.
  destruct (a >=? 1844674407370955162) eqn:Hge; [lia |].
  destruct (a * 10 + d >? 18446744073709551615) eqn:Hgt; [lia | reflexivity].
Qed.

Lemma parseUintFrom_digitsFrom (fuel : nat) : forall (n : N) (acc : bytes),
  (n < 10 ^ N.of_nat fuel)%N -> Z.of_N n <= maxUint64 ->
  parseUintFrom (digitsFrom fuel n acc) 0 = parseUintFrom acc (Z.of_N n).
Proof.
  induction fuel as [|fuel IH]; intros n acc Hlt Hmax.
  - cbn in Hlt. assert (n = 0%N) by lia. subst. reflexivity.
  - cbn [digitsFrom]. fold (digitOf (n mod 10)).
    assert (Hm : (n mod 10 < 10)%N) by (apply N.mod_lt; lia).
    assert (Hdiv : n = (10 * (n / 10) + n mod 10)%N) by (apply N.div_mod; lia).
    destruct (n <? 10)%N eqn:Hn.
    + apply N.ltb_lt in Hn. rewrite N.mod_small by done.
      rewrite (parseUintFrom_step _ _ 0 (Z.of_N n)); [f_equal; lia | | lia | lia | lia].
      by apply digitOf_val.
    + apply N.ltb_ge in Hn.
      rewrite IH.
      * rewrite (parseUintFrom_step _ _ _ (Z.of_N (n mod 10))); [| by apply digitOf_val | | |];
          generalize dependent (n / 10)%N; generalize dependent (n mod 10)%N; intros;
          try f_equal; lia.
      * replace (N.of_nat (S fuel)) with (N.succ (N.of_nat fuel)) in Hlt by lia.
        rewrite N.pow_succ_r' in Hlt.
        apply N.Div0.div_lt_upper_bound. lia.
      * generalize dependent (n / 10)%N; generalize dependent (n mod 10)%N; intros; lia.
Qed.

Lemma size_nat_pow10 (n : N) : (n < 10 ^ N.of_nat (S (N.size_nat n)))%N.
Proof.
  assert (H2 : (n < 2 ^ N.of_nat (N.size_nat n))%N).
  { destruct n as [|p]; [cbn; lia |].
    cbn [N.size_nat]. induction p as [p IH|p IH|]; cbn [Pos.size_nat].
    - replace (N.of_nat (S (Pos.size_nat p))) with (N.succ (N.of_nat (Pos.size_nat p))) by lia.
      rewrite N.pow_succ_r'. lia.
    - replace (N.of_nat (S (Pos.size_nat p))) with (N.succ (N.of_nat (Pos.size_nat p))) by lia.
      rewrite N.pow_succ_r'. lia.
    - cbn. lia. }
  eapply N.lt_le_trans; [exact H2 |].
  etransitivity; [apply N.pow_le_mono_l with (b := 10%N); lia |].
  apply N.pow_le_mono_r; lia.
Qed.

Lemma itoa_digits (z : Z) :
  0 <= z -> exists ds, itoa z = ds /\ ds <> [] /\ Forall isDigit ds.
Proof.
  intros Hz. unfold itoa. destruct (z <? 0) eqn:Hneg; [lia |].
  destruct (digitsFrom_app (S (N.size_nat (Z.abs_N z))) (Z.abs_N z) []) as (ds & E & Hne & Hall);
    [lia |].
  rewrite app_nil_r in E. eauto.
Qed.

Lemma Atoi_digits (s : bytes) (n : Z) :
  s <> [] -> Forall isDigit s -> parseUintFrom s 0 = (n, None) -> n < 2 ^ 63 ->
  Atoi s = (n, None).
Proof.
  intros Hne Hall Hp Hn. destruct s as [|c r]; [done |].
  unfold Atoi. apply Forall_cons in Hall as [Hc _].
  destruct (isDigit_not_sign c Hc) as [-> ->]. cbn [orb].
  unfold ParseUint. rewrite Hp. cbn [negb andb].
  destruct (n >=? 2 ^ 63) eqn:Hge; [lia | reflexivity].
Qed.

Lemma Atoi_itoa (z : Z) : 0 <= z < 2 ^ 63 -> Atoi (itoa z) = (z, None).
Proof.
  intros Hz. destruct (itoa_digits z) as (ds & E & Hne & Hall); [lia |].
  rewrite E. apply Atoi_digits; try done; [| lia].
  rewrite <- E. unfold itoa. destruct (z <? 0) eqn:Hneg; [lia |].
  rewrite parseUintFrom_digitsFrom.
  - cbn [parseUintFrom]. f_equal. lia.
  - apply size_nat_pow10.
  - unfold maxUint64. assert (2 ^ 63 < 2 ^ 64 - 1) by (vm_compute; done). lia.
Qed.

Lemma wrap64_small (z : Z) : - 2 ^ 63 <= z < 2 ^ 63 -> wrap64 z = z.
Proof.
  intros Hz. unfold wrap64.
  change (2 ^ 63) with 9223372036854775808 in *.
  change (2 ^ 64) with 18446744073709551616.
  rewrite Z.mod_small; lia.
Qed.

Lemma len_app {A} (a b : list A) : len (a ++ b) = len a + len b.
Proof. unfold len. rewrite length_app. lia. Qed.

Lemma len_cons {A} (x : A) (a : list A) : len (x :: a) = 1 + len a.
Proof. unfold len. cbn [length]. lia. Qed.

Lemma len_nonneg {A} (a : list A) : 0 <= len a.
Proof. unfold len. lia. Qed.


Lemma digits_word (ds : bytes) : Forall isDigit ds -> word ds.
Proof. intros H. eapply Forall_impl; [exact H |]. apply isDigit_not_space. Qed.

Lemma forallb_word (w : bytes) :
  forallb (fun b => negb (splitSpaceOrLF b)) w = true -> word w.
Proof.
  induction w as [|b w IH]; cbn; [constructor |].
  intros [Hb Hw]%andb_true_iff. constructor; [by destruct (splitSpaceOrLF b) | by apply IH].
Qed.

Lemma TrimLeft_id (b : byte) (s : bytes) :
  splitSpaceOrLF b = false -> TrimLeft (b :: s) = b :: s.
Proof. intros H. cbn. by rewrite H. Qed.

Lemma TrimLeft_sep (b : byte) (s : bytes) :
  splitSpaceOrLF b = true -> TrimLeft (b :: s) = TrimLeft s.
Proof. intros H. cbn. by rewrite H. Qed.

Lemma fieldsFrom_word (w s cur : bytes) :
  word w ->
  fieldsFrom splitSpaceOrLF (w ++ s) cur = fieldsFrom splitSpaceOrLF s (rev w ++ cur).
Proof.
  intros Hw. revert cur. induction Hw as [|b w Hb Hw IH]; intros cur; [done |].
  cbn [app fieldsFrom]. rewrite Hb, IH. cbn [rev]. by rewrite <- app_assoc.
Qed.

Lemma FieldsFunc_word_sep (w : bytes) (b : byte) (s : bytes) :
  w <> [] -> word w -> splitSpaceOrLF b = true ->
  FieldsFunc (w ++ b :: s) splitSpaceOrLF = w :: FieldsFunc s splitSpaceOrLF.
Proof.
  intros Hne Hw Hb. unfold FieldsFunc. rewrite fieldsFrom_word by done.
  cbn [fieldsFrom]. rewrite Hb, app_nil_r.
  destruct (rev w) eqn:E.
  - apply (f_equal (@rev byte)) in E. rewrite rev_involutive in E. done.
  - rewrite <- E, rev_involutive. done.
Qed.

Lemma FieldsFunc_word (w : bytes) :
  w <> [] -> word w -> FieldsFunc w splitSpaceOrLF = [w].
Proof.
  intros Hne Hw. unfold FieldsFunc.
  rewrite <- (app_nil_r w) at 1. rewrite fieldsFrom_word by done.
  cbn [fieldsFrom]. rewrite app_nil_r.
  destruct (rev w) eqn:E.
  - apply (f_equal (@rev byte)) in E. rewrite rev_involutive in E. done.
  - rewrite <- E, rev_involutive. done.
Qed.

Lemma FieldsFunc_sep (b : byte) (s : bytes) :
  splitSpaceOrLF b = true ->
  FieldsFunc (b :: s) splitSpaceOrLF = FieldsFunc s splitSpaceOrLF.
Proof. intros Hb. unfold FieldsFunc. cbn [fieldsFrom]. by rewrite Hb. Qed.

Lemma TrimRight_snoc_sep (x : bytes) (b : byte) :
  splitSpaceOrLF b = true -> TrimRight (x ++ [b]) = TrimRight x.
Proof. intros Hb. unfold TrimRight. rewrite rev_app_distr. cbn. by rewrite Hb. Qed.

Lemma TrimRight_id (x : bytes) (b : byte) :
  splitSpaceOrLF b = false -> TrimRight (x ++ [b]) = x ++ [b].
Proof.
  intros Hb. unfold TrimRight. rewrite rev_app_distr. cbn. rewrite Hb.
  change (b :: rev x) with ([b] ++ rev x). rewrite rev_app_distr, rev_involutive. done.
Qed.

Lemma cutAt_word (w : bytes) (r : bytes) :
  Forall (fun b => Byte.eqb b SP = false) w -> cutAt SP (w ++ SP :: r) = Some (w, r).
Proof.
  induction 1 as [|b w Hb Hw IH]; cbn; [done |]. by rewrite Hb, IH.
Qed.

Lemma cutAt_none (w : bytes) :
  Forall (fun b => Byte.eqb b SP = false) w -> cutAt SP w = None.
Proof. induction 1 as [|b w Hb Hw IH]; cbn; [done |]. by rewrite Hb, IH. Qed.

Lemma word_no_SP (w : bytes) : word w -> Forall (fun b => Byte.eqb b SP = false) w.
Proof.
  intros H. eapply Forall_impl; [exact H |]. intros b Hb. cbn in Hb.
  unfold splitSpaceOrLF in Hb. by destruct (Byte.eqb b SP).
Qed.

End BytesFacts.

(** ** The frame splitter *)

Section SplitterFacts.

Lemma TrimLeft_len (s : bytes) : len (TrimLeft s) <= len s.
Proof.
  induction s as [|b s IH]; cbn [TrimLeft]; [lia |].
  destruct (splitSpaceOrLF b); rewrite ?len_cons; lia.
Qed.

Lemma len_tokenStr (t1 c t3 : bytes) :
  len (t1 ++ SP :: c ++ SP :: t3) = len t1 + 1 + len c + 1 + len t3.
Proof. rewrite len_app, len_cons, len_app, len_cons. lia. Qed.

Lemma FieldsFunc_nil_trim (s : bytes) :
  len (TrimLeft s) = 0 -> FieldsFunc (TrimLeft s) splitSpaceOrLF = [].
Proof. destruct (TrimLeft s); [done |]. rewrite len_cons. pose proof (len_nonneg l). lia. Qed.

(** [RelpSplit] once the three header tokens are known. *)
Lemma RelpSplit_tokens (data : bytes) (atEOF : bool) (t1 c t3 : bytes) (rest : list bytes) :
  FieldsFunc (TrimLeft data) splitSpaceOrLF = t1 :: c :: t3 :: rest ->
  RelpSplit data atEOF =
    let tokenStr := t1 ++ SP :: c ++ SP :: t3 in
    let advance := len data - len (TrimLeft data) + len tokenStr + 1 in
    if (len (t1 :: c :: t3 :: rest) =? 3) && (len data <? advance) then NeedMore
    else
      match Atoi t1 with
      | (_, Some err) => SplitErr err
      | (_, None) =>
          match Atoi t3 with
          | (_, Some err) => SplitErr err
          | (datalen, None) =>
              if datalen =? 0 then Token advance tokenStr
              else
                let advance := add64 advance (add64 datalen 1) in
                if len data >=? advance then
                  if advance <? 0 then Panic
                  else Token advance (Trim (take (Z.to_nat advance) data))
                else NeedMore
          end
      end.
Proof.
  intros E. unfold RelpSplit. rewrite E.
  destruct (len (TrimLeft data) =? 0) eqn:H0.
  - apply Z.eqb_eq in H0. rewrite FieldsFunc_nil_trim in E by done. discriminate.
  - replace (len (t1 :: c :: t3 :: rest) <? 3) with false; [reflexivity |].
    symmetry. apply Z.ltb_ge. rewrite !len_cons. pose proof (len_nonneg rest). lia.
Qed.

Lemma RelpSplit_few_tokens (data : bytes) (atEOF : bool) :
  (length (FieldsFunc (TrimLeft data) splitSpaceOrLF) < 3)%nat ->
  RelpSplit data atEOF = NeedMore.
Proof.
  intros Hl. unfold RelpSplit.
  destruct (len (TrimLeft data) =? 0); [done |].
  replace (len (FieldsFunc (TrimLeft data) splitSpaceOrLF) <? 3) with true; [done |].
  symmetry. apply Z.ltb_lt. unfold len. lia.
Qed.



(** The same header once a byte follows it. *)
Example RelpSplit_nonnumeric_txnr :
  RelpSplit (B "abc open 5" ++ [LF]) false = SplitErr ErrSyntax.
Proof. vm_compute. done. Qed.

(** The payload ends exactly at the end of the buffer: the closing line
    feed has not arrived, and the splitter waits. *)
Example RelpSplit_payload_at_boundary :
  RelpSplit (B "2 syslog 4 test") false = NeedMore
  /\ RelpSplit (B "2 syslog 4 test" ++ [LF]) false = Token 16 (B "2 syslog 4 test").
Proof. vm_compute. done. Qed.

(** A negative [DATALEN] makes the slice expression [data[:advance]]
    panic. *)
Example RelpSplit_negative_datalen :
  RelpSplit (B "1 syslog -99 x" ++ [LF]) false = Panic.
Proof. vm_compute. done. Qed.

Import Wire.

Lemma Trim_content (x : bytes) (a b : byte) (y : bytes) :
  splitSpaceOrLF a = false -> splitSpaceOrLF b = false ->
  x = a :: y -> Trim ((x ++ [b]) ++ [LF]) = x ++ [b].
Proof.
  intros Ha Hb ->. unfold Trim. cbn [app]. rewrite TrimLeft_id by done.
  change (a :: (y ++ [b]) ++ [LF]) with (((a :: y) ++ [b]) ++ [LF]).
  rewrite TrimRight_snoc_sep by done. by rewrite TrimRight_id.
Qed.

(** The header tokens of a valid frame. *)
Lemma header_tokens (fr : Frame) :
  validFrame fr ->
  exists a t1 t3,
    itoa (txnr fr) = a :: t1 /\ splitSpaceOrLF a = false
    /\ word (itoa (txnr fr)) /\ word (command fr) /\ command fr <> []
    /\ itoa (len (data fr)) = t3 /\ t3 <> [] /\ word t3
    /\ Atoi (itoa (txnr fr)) = (txnr fr, None)
    /\ Atoi t3 = (len (data fr), None).
Proof.
  intros (Ht & Hc & Hw & Hl).
  destruct (itoa_digits (txnr fr)) as (d1 & E1 & N1 & D1); [lia |].
  assert (Hd : 0 <= len (data fr) < 2 ^ 63).
  { split; [apply len_nonneg |]. unfold frame, content in Hl.
    rewrite !len_app in Hl. pose proof (len_nonneg (header fr)) as Hn.
    destruct (data fr) as [|d0 ds]; [change (len (@nil byte)) with 0; lia |].
    rewrite !len_cons in *. change (len (@nil byte)) with 0 in Hl.
    pose proof (len_nonneg ds). lia. }
  destruct (itoa_digits (len (data fr))) as (d3 & E3 & N3 & D3); [lia |].
  destruct d1 as [|a t1]; [done |].
  exists a, t1, d3. rewrite E1. repeat split; try done.
  - apply isDigit_not_space. by apply Forall_cons in D1 as [? _].
  - by apply digits_word.
  - by apply forallb_word.
  - by apply digits_word.
  - rewrite <- E1. by apply Atoi_itoa.
  - rewrite <- E3. by apply Atoi_itoa.
Qed.

(** [RelpSplit] on a buffer that starts with a whole frame. *)
Lemma RelpSplit_frame (fr : Frame) (suffix : bytes) (atEOF : bool) :
  validFrame fr -> tightData fr ->
  RelpSplit (frame fr ++ suffix) atEOF = Token (len (frame fr)) (content fr).
Proof.
  intros Hv Htight.
  destruct (header_tokens fr Hv) as (a & t1 & t3 & E1 & Ha & W1 & Wc & Nc & E3 & N3 & W3 & A1 & A3).
  destruct Hv as (Ht & _ & _ & Hl).
  set (tail := match data fr with [] => [] | d => SP :: d end).
  assert (Hfr : frame fr ++ suffix
                = itoa (txnr fr) ++ SP :: command fr ++ SP :: t3 ++ tail ++ LF :: suffix).
  { unfold frame, content, header. fold tail. rewrite E3.
    repeat (rewrite <- ?app_assoc; cbn [app]). done. }
  assert (Htrim : TrimLeft (frame fr ++ suffix) = frame fr ++ suffix).
  { rewrite Hfr, E1. cbn [app]. by apply TrimLeft_id. }
  assert (Hsep : exists s0 tail', tail ++ LF :: suffix = s0 :: tail' /\ splitSpaceOrLF s0 = true).
  { unfold tail. destruct (data fr); cbn [app]; eauto. }
  destruct Hsep as (s0 & tail' & Etail & Hs0).
  assert (Hf : FieldsFunc (TrimLeft (frame fr ++ suffix)) splitSpaceOrLF
               = itoa (txnr fr) :: command fr :: t3 :: FieldsFunc tail' splitSpaceOrLF).
  { rewrite Htrim, Hfr, Etail.
    rewrite FieldsFunc_word_sep; [| by rewrite E1 | done | done].
    rewrite FieldsFunc_word_sep by done.
    by rewrite FieldsFunc_word_sep. }
  rewrite (RelpSplit_tokens _ _ _ _ _ _ Hf). cbv zeta.
  rewrite Htrim, A1, A3.
  assert (Hlen : len (frame fr ++ suffix)
                 = len (itoa (txnr fr) ++ SP :: command fr ++ SP :: t3) + 1 + len tail').
  { rewrite Hfr, Etail. repeat (rewrite len_app || rewrite len_cons). lia. }
  set (hd := itoa (txnr fr) ++ SP :: command fr ++ SP :: t3) in *.
  assert (Hhd : header fr = hd) by (unfold header, hd; by rewrite E3).
  pose proof (len_nonneg tail') as Hn1. pose proof (len_nonneg hd) as Hn2.
  replace (len (frame fr ++ suffix) <? len (frame fr ++ suffix) - len (frame fr ++ suffix)
                                        + len hd + 1)
    with false by (symmetry; apply Z.ltb_ge; lia).
  rewrite andb_false_r.
  replace (len (frame fr ++ suffix) - len (frame fr ++ suffix) + len hd + 1)
    with (len hd + 1) by lia.
  destruct (data fr) as [|d0 ds] eqn:Ed.
  - change (len []) with 0. cbn [Z.eqb].
    unfold frame, content. rewrite Ed, app_nil_r, Hhd.
    rewrite len_app. done.
  - assert (Hpos : 0 < len (d0 :: ds)) by (rewrite len_cons; pose proof (len_nonneg ds); lia).
    replace (len (d0 :: ds) =? 0) with false by (symmetry; apply Z.eqb_neq; lia).
    assert (Hfl : len (frame fr) = len hd + 1 + (len (d0 :: ds) + 1)).
    { unfold frame, content. rewrite Ed, Hhd. rewrite !len_app, !len_cons.
      change (len []) with 0. lia. }
    unfold add64. rewrite (wrap64_small (len (d0 :: ds) + 1)) by lia.
    rewrite wrap64_small by lia.
    rewrite <- Hfl.
    replace (len (frame fr ++ suffix) >=? len (frame fr)) with true
      by (symmetry; apply Z.geb_le; rewrite len_app; pose proof (len_nonneg suffix); lia).
    replace (len (frame fr) <? 0) with false
      by (symmetry; apply Z.ltb_ge; apply len_nonneg).
    f_equal. unfold len. rewrite Nat2Z.id, take_app_length.
    unfold tightData in Htight. rewrite Ed in Htight.
    destruct (rev (d0 :: ds)) as [|b r] eqn:Er.
    { apply (f_equal (@rev byte)) in Er. rewrite rev_involutive in Er. done. }
    apply (f_equal (@rev byte)) in Er. rewrite rev_involutive in Er. cbn [rev] in Er.
    unfold frame, content. rewrite Ed, Er, Hhd.
    replace (hd ++ SP :: rev r ++ [b]) with ((hd ++ SP :: rev r) ++ [b])
      by (rewrite <- app_assoc; done).
    eapply Trim_content; [exact Ha | exact Htight |].
    unfold hd. rewrite E1. cbn [app]. reflexivity.
Qed.

Lemma take_app_cases {A} (l1 l2 : list A) (n : nat) :
  ((n <= length l1)%nat /\ take n (l1 ++ l2) = take n l1)
  \/ ((length l1 < n)%nat /\ take n (l1 ++ l2) = l1 ++ take (n - length l1) l2).
Proof.
  destruct (le_lt_dec n (length l1)) as [Hle | Hlt].
  - left. split; [done |]. by rewrite take_app_le.
  - right. split; [done |]. rewrite take_app_ge by lia. done.
Qed.

Lemma word_take (w : bytes) (n : nat) : word w -> word (take n w).
Proof. apply Forall_take. Qed.

Lemma TrimLeft_word (w : bytes) : word w -> TrimLeft w = w.
Proof. intros Hw. destruct Hw as [|b w Hb _]; [done |]. by apply TrimLeft_id. Qed.

Lemma FieldsFunc_word_le (w : bytes) :
  word w -> (length (FieldsFunc w splitSpaceOrLF) <= 1)%nat.
Proof.
  intros Hw. destruct w as [|b w]; [cbn; lia |].
  rewrite FieldsFunc_word by done. cbn. lia.
Qed.

(** A buffer that holds only a proper prefix of a frame: the splitter
    asks for more data. *)
Lemma RelpSplit_frame_prefix (fr : Frame) (n : nat) (atEOF : bool) :
  validFrame fr -> (n < length (frame fr))%nat ->
  RelpSplit (take n (frame fr)) atEOF = NeedMore.
Proof.
  intros Hv Hn.
  destruct (header_tokens fr Hv) as (a & t1 & t3 & E1 & Ha & W1 & Wc & Nc & E3 & N3 & W3 & A1 & A3).
  destruct Hv as (Ht & _ & _ & Hl).
  set (tail := match data fr with [] => [] | d => SP :: d end) in *.
  assert (Hfr : frame fr
                = itoa (txnr fr) ++ SP :: command fr ++ SP :: t3 ++ tail ++ [LF]).
  { unfold frame, content, header. fold tail. rewrite E3.
    repeat (rewrite <- ?app_assoc; cbn [app]). done. }
  assert (N1 : itoa (txnr fr) <> []) by (by rewrite E1).
  set (T1 := itoa (txnr fr)) in *. set (C := command fr) in *.
  rewrite Hfr in Hn |- *.
  destruct (take_app_cases T1 (SP :: C ++ SP :: t3 ++ tail ++ [LF]) n) as [[Hle ->] | [Hgt ->]].
  { (* inside TXNR *)
    apply RelpSplit_few_tokens. rewrite TrimLeft_word by (by apply word_take).
    pose proof (FieldsFunc_word_le (take n T1) (word_take _ _ W1)). lia. }
  assert (Htl : forall q, TrimLeft (T1 ++ q) = T1 ++ q).
  { intros q. rewrite E1. cbn [app]. by apply TrimLeft_id. }
  destruct (n - length T1)%nat as [|n1] eqn:En1; [lia |]. cbn [take].
  destruct (take_app_cases C (SP :: t3 ++ tail ++ [LF]) n1) as [[Hle ->] | [Hgt2 ->]].
  { (* inside COMMAND *)
    apply RelpSplit_few_tokens. rewrite Htl.
    rewrite FieldsFunc_word_sep by done.
    pose proof (FieldsFunc_word_le (take n1 C) (word_take _ _ Wc)). cbn [length]. lia. }
  destruct (n1 - length C)%nat as [|n2] eqn:En2; [lia |]. cbn [take].
  destruct (take_app_cases t3 (tail ++ [LF]) n2) as [[Hle ->] | [Hgt3 ->]].
  { (* inside DATALEN *)
    destruct (take n2 t3) as [|b w] eqn:Ew.
    - apply RelpSplit_few_tokens. rewrite Htl.
      rewrite FieldsFunc_word_sep by done.
      replace (C ++ [SP]) with (C ++ SP :: []) by done.
      rewrite FieldsFunc_word_sep by done. cbn. lia.
    - assert (Ww : word (b :: w)) by (rewrite <- Ew; by apply word_take).
      assert (Hf : FieldsFunc (TrimLeft (T1 ++ SP :: C ++ SP :: b :: w)) splitSpaceOrLF
                   = [T1; C; b :: w]).
      { rewrite Htl. rewrite FieldsFunc_word_sep by done.
        rewrite FieldsFunc_word_sep by done. by rewrite FieldsFunc_word. }
      rewrite (RelpSplit_tokens _ _ _ _ _ _ Hf). cbv zeta. rewrite Htl.
      replace (len [T1; C; b :: w] =? 3) with true by done.
      replace (len (T1 ++ SP :: C ++ SP :: b :: w) <?
               len (T1 ++ SP :: C ++ SP :: b :: w) - len (T1 ++ SP :: C ++ SP :: b :: w)
               + len (T1 ++ SP :: C ++ SP :: b :: w) + 1)
        with true by (symmetry; apply Z.ltb_lt; lia).
      done. }
  (* past the header: the frame has a payload *)
  destruct (n2 - length t3)%nat as [|n3] eqn:En3; [lia |].
  assert (Hlen : length (T1 ++ SP :: C ++ SP :: t3 ++ tail ++ [LF])
                 = (length T1 + 1 + length C + 1 + length t3 + length tail + 1)%nat).
  { rewrite !length_app. cbn [length]. rewrite !length_app. cbn [length].
    rewrite !length_app. cbn [length]. lia. }
  rewrite Hlen in Hn.
  destruct (data fr) as [|d0 ds] eqn:Ed; [cbn [tail length] in Hn; lia |].
  change tail with (SP :: d0 :: ds) in *. cbn [app take].
  set (q := take n3 (d0 :: ds ++ [LF])).
  assert (Hq : (length q <= length (d0 :: ds))%nat).
  { unfold q. rewrite length_take. cbn [length] in *. rewrite ?length_app in *.
    cbn [length] in *. lia. }
  assert (Hf : FieldsFunc (TrimLeft (T1 ++ SP :: C ++ SP :: t3 ++ SP :: q)) splitSpaceOrLF
               = T1 :: C :: t3 :: FieldsFunc q splitSpaceOrLF).
  { rewrite Htl. rewrite FieldsFunc_word_sep by done.
    rewrite FieldsFunc_word_sep by done. by rewrite FieldsFunc_word_sep. }
  rewrite (RelpSplit_tokens _ _ _ _ _ _ Hf). cbv zeta. rewrite Htl, A1, A3.
  set (hd := T1 ++ SP :: C ++ SP :: t3).
  assert (Hp : len (T1 ++ SP :: C ++ SP :: t3 ++ SP :: q) = len hd + 1 + len q).
  { unfold hd. repeat (rewrite len_app || rewrite len_cons). lia. }
  rewrite Hp.
  pose proof (len_nonneg q) as Hq0. pose proof (len_nonneg hd) as Hh0.
  replace (len hd + 1 + len q <? len hd + 1 + len q - (len hd + 1 + len q) + len hd + 1)
    with false by (symmetry; apply Z.ltb_ge; lia).
  rewrite andb_false_r.
  assert (Hd : 0 < len (d0 :: ds)) by (rewrite len_cons; pose proof (len_nonneg ds); lia).
  replace (len (d0 :: ds) =? 0) with false by (symmetry; apply Z.eqb_neq; lia).
  assert (Hfl : len (frame fr) = len hd + 1 + len (d0 :: ds) + 1).
  { rewrite Hfr. unfold hd. repeat (rewrite len_app || rewrite len_cons).
    change (len (@nil byte)) with 0. lia. }
  unfold add64. rewrite (wrap64_small (len (d0 :: ds) + 1)) by lia.
  rewrite wrap64_small by lia.
  assert (Hq' : len q <= len (d0 :: ds)) by (unfold len; lia).
  destruct (len hd + 1 + len q >=? len hd + 1 + len q - (len hd + 1 + len q) + len hd + 1
                                    + (len (d0 :: ds) + 1)) eqn:Hge; [| done].
  apply Z.geb_le in Hge. lia.
Qed.

Lemma frame_nonempty (fr : Frame) : (0 < length (frame fr))%nat.
Proof. unfold frame. rewrite length_app. cbn. lia. Qed.

Lemma Scan_token (fuel max : nat) (buf inp : bytes) (reads : list nat) (eof : bool)
    (advance : Z) (token : bytes) :
  buf <> [] -> RelpSplit buf eof = Token advance token -> 0 <= advance <= len buf ->
  Scan (S fuel) max buf inp reads eof =
    (token :: fst (Scan fuel max (drop (Z.to_nat advance) buf) inp reads eof),
     snd (Scan fuel max (drop (Z.to_nat advance) buf) inp reads eof)).
Proof.
  intros Hne Hr Ha. cbn [Scan]. rewrite Hr.
  replace (len buf =? 0) with false.
  2: { symmetry. apply Z.eqb_neq. destruct buf; [done |]. rewrite len_cons.
       pose proof (len_nonneg buf). lia. }
  cbn [negb orb].
  replace (advance <? 0) with false by (symmetry; apply Z.ltb_ge; lia).
  replace (advance >? len buf) with false by (symmetry; rewrite Z.gtb_ltb; apply Z.ltb_ge; lia).
  by destruct (Scan fuel max (drop (Z.to_nat advance) buf) inp reads eof).
Qed.

Lemma Scan_read (fuel max : nat) (buf inp : bytes) (reads : list nat) (b : byte) (inp' : bytes) :
  (buf = [] \/ RelpSplit buf false = NeedMore) -> (length buf < max)%nat -> inp = b :: inp' ->
  Scan (S fuel) max buf inp reads false =
    let room := (max - length buf)%nat in
    let n := match reads with [] => room | r :: _ => Nat.min (S r) room end in
    Scan fuel max (buf ++ take n inp) (drop n inp) (tl reads) false.
Proof.
  intros Hb Hmax ->. cbn [Scan].
  replace (max <=? length buf)%nat with false by (symmetry; apply Nat.leb_gt; lia).
  destruct Hb as [-> | ->]; [done |].
  by destruct (negb (len buf =? 0) || false).
Qed.

Lemma Scan_end (fuel max : nat) (reads : list nat) :
  (0 < max)%nat -> Scan (S (S fuel)) max [] [] reads false = ([], EndOfInput).
Proof.
  intros Hmax. cbn [Scan length].
  replace (max <=? 0)%nat with false by (symmetry; apply Nat.leb_gt; lia).
  reflexivity.
Qed.

(** Whatever the sizes of the reads, the scanner hands over the frames of
    a stream one by one, then stops at the end of the input. *)
Lemma Scan_frames (max : nat) (Hmax : (0 < max)%nat) (fuel : nat) :
  forall (frs : list Frame) (buf inp : bytes) (reads : list nat),
    Forall validFrame frs -> Forall tightData frs ->
    Forall (fun fr => (length (frame fr) <= max)%nat) frs ->
    buf ++ inp = stream frs ->
    (length frs + length inp + 2 <= fuel)%nat ->
    Scan fuel max buf inp reads false = (map content frs, EndOfInput).
Proof.
  induction fuel as [|fuel IH]; intros frs buf inp reads Hv Ht Hm Hs Hf; [lia |].
  destruct frs as [|fr frs].
  - cbn in Hs. apply app_eq_nil in Hs as [-> ->].
    destruct fuel; [cbn in Hf; lia |]. by apply Scan_end.
  - apply Forall_cons in Hv as [Hv Hvs]. apply Forall_cons in Ht as [Ht Hts].
    apply Forall_cons in Hm as [Hm Hms].
    unfold stream in Hs. cbn [map concat] in Hs. fold (stream frs) in Hs.
    pose proof (frame_nonempty fr) as Hfne.
    destruct (le_lt_dec (length (frame fr)) (length buf)) as [Hle | Hlt].
    + (* the buffer holds the first frame *)
      assert (Hb : buf = frame fr ++ drop (length (frame fr)) buf).
      { rewrite <- (take_drop (length (frame fr)) buf) at 1. f_equal.
        rewrite <- (take_app_le buf inp) by done. rewrite Hs. apply take_app_length. }
      assert (Hne : buf <> []) by (destruct buf; [cbn in Hle; lia | done]).
      rewrite (Scan_token fuel max buf inp reads false (len (frame fr)) (content fr)); try done.
      * unfold len at 1 2. rewrite Nat2Z.id.
        rewrite (IH frs); try done.
        -- rewrite Hb in Hs. rewrite <- app_assoc in Hs. by apply app_inv_head in Hs.
        -- cbn [length] in Hf. lia.
      * rewrite Hb. by apply RelpSplit_frame.
      * unfold len. lia.
    + (* the buffer holds a proper prefix of it *)
      assert (Hb : buf = take (length buf) (frame fr)).
      { rewrite <- (take_app_le (frame fr) (stream frs)) by lia. rewrite <- Hs.
        by rewrite take_app_length. }
      destruct inp as [|b inp'] eqn:Ei.
      { rewrite app_nil_r in Hs. rewrite Hs in Hlt. rewrite length_app in Hlt. lia. }
      rewrite (Scan_read fuel max buf (b :: inp') reads b inp'); try done; try lia.
      2: { right. rewrite Hb. by apply RelpSplit_frame_prefix. }
      cbv zeta.
      set (n := match reads with [] => (max - length buf)%nat
                | r :: _ => Nat.min (S r) (max - length buf) end).
      assert (Hn : (1 <= n)%nat) by (unfold n; destruct reads; lia).
      apply (IH (fr :: frs)); try done.
      * by constructor.
      * by constructor.
      * by constructor.
      * rewrite <- app_assoc, take_drop. done.
      * rewrite length_drop. cbn [length] in *. lia.
Qed.

(** C4, as the code has it.  The frames of a valid stream whose payloads
    do not end with a space, a carriage return or a line feed come out of
    the scanner as they went in (the frame without its closing line
    feed), whatever the sizes of the reads, provided each frame fits the
    scanner's buffer. *)
Theorem RelpSplit_inverts_framer (frs : list Frame) (reads : list nat) (max : nat) :
  Forall validFrame frs -> Forall tightData frs ->
  Forall (fun fr => (length (frame fr) <= max)%nat) frs -> (0 < max)%nat ->
  Scan (length frs + length (stream frs) + 2) max [] (stream frs) reads false
  = (map content frs, EndOfInput).
Proof.
  intros Hv Ht Hm Hmax. by apply Scan_frames.
Qed.

End SplitterFacts.

(** ** The connection handler *)

Section HandlerFacts.

Lemma applyEvents_app (evs1 evs2 : list Handler.Event) (f : ackForwarder) :
  applyEvents (evs1 ++ evs2) f = applyEvents evs2 (applyEvents evs1 f).
Proof. unfold applyEvents. apply foldl_app. Qed.

Lemma applyEvents_deadline (config : conf.SyslogConfig) (f : ackForwarder) :
  applyEvents (deadline config) f = f.
Proof. unfold deadline. by destruct (conf.Timeout config >? 0). Qed.

Context (connID : N) (config : conf.SyslogConfig) (ci : ConnInfo).

Lemma protocolErrors_deadline :
  protocolErrors (client ci) (deadline config ++ [RelpProtocolErrorsInc (client ci)]) = 1%nat.
Proof.
  unfold protocolErrors, deadline.
  destruct (conf.Timeout config >? 0); cbn; by rewrite String.eqb_refl.
Qed.

Lemma commandEvents_deadline :
  List.filter isCommandEvent (deadline config ++ [RelpProtocolErrorsInc (client ci)]) = [].
Proof. unfold deadline. by destruct (conf.Timeout config >? 0). Qed.

(** C2.  A frame whose transaction number is not above the previous one
    (-1 before the first frame) makes [HandleConnection] return at once:
    the protocol-error counter of the client goes up by one, and nothing
    of the command is processed, whatever the command and the state of
    the connection; the deferred [RemoveConn] then takes the connection
    out of the forwarder. *)
Theorem handleFrame_txnr_not_increasing
    (rented : model.RawTcpMessage) (st : HandlerState) (line : bytes) :
  fst (Atoi (nth 0 (SplitN line SP 4) [])) <= previous st ->
  previous initHandler = -1
  /\ (exists evs,
        handleFrame connID config ci rented st line = Return evs
        /\ evs = deadline config ++ [RelpProtocolErrorsInc (client ci)]
        /\ protocolErrors (client ci) evs = 1%nat
        /\ List.filter isCommandEvent evs = [])
  /\ (forall f k,
        exec connID config ci (Frame line rented) (mkSystem f st true k)
        = Some (mkSystem (RemoveConn connID f) st false k)).
Proof.
  intros Hle.
  assert (Hret : handleFrame connID config ci rented st line
                 = Return (deadline config ++ [RelpProtocolErrorsInc (client ci)])).
  { unfold handleFrame.
    replace (fst (Atoi (nth 0 (SplitN line SP 4) [])) <=? previous st) with true
      by (symmetry; by apply Z.leb_le).
    done. }
  split; [done |]. split.
  - exists (deadline config ++ [RelpProtocolErrorsInc (client ci)]).
    split; [done |]. split; [done |]. split.
    + apply protocolErrors_deadline.
    + apply commandEvents_deadline.
  - intros f k. cbn [exec Connection.alive handler fwd cooker]. rewrite Hret.
    by rewrite applyEvents_app, applyEvents_deadline.
Qed.

Lemma copy_prefix (dst src : bytes) :
  (length src <= length dst)%nat -> take (length src) (copy dst src) = src.
Proof.
  intros Hle. unfold copy. rewrite Nat.min_r by done.
  rewrite firstn_all. rewrite take_app_length'; [done |]. done.
Qed.

Lemma copy_length (dst src : bytes) : length (copy dst src) = length dst.
Proof.
  unfold copy. rewrite length_app, length_take, length_drop. lia.
Qed.


End HandlerFacts.

(** ** The claims on concrete inputs *)

Section Scenarios.


(** Scenario 3 of the specification: after [5 syslog 4 test], the frame
    [4 syslog 4 test]. *)
Lemma handleFrame_txnr_not_increasing_witness :
  fst (Atoi (nth 0 (SplitN (B "4 syslog 4 test") SP 4) [])) <= previous (mkHandler 5 true)
  /\ (previous initHandler = -1
      /\ (exists evs,
            handleFrame 1%N cfg0 ci0 buf0 (mkHandler 5 true) (B "4 syslog 4 test") = Return evs
            /\ evs = deadline cfg0 ++ [RelpProtocolErrorsInc (client ci0)]
            /\ protocolErrors (client ci0) evs = 1%nat
            /\ List.filter isCommandEvent evs = [])
      /\ (forall f k,
            exec 1%N cfg0 ci0 (Frame (B "4 syslog 4 test") buf0) (mkSystem f (mkHandler 5 true) true k)
            = Some (mkSystem (RemoveConn 1%N f) (mkHandler 5 true) false k))).
Proof.
  assert (H : fst (Atoi (nth 0 (SplitN (B "4 syslog 4 test") SP 4) []))
              <= previous (mkHandler 5 true)) by (vm_compute; discriminate).
  split; [exact H |].
  exact (handleFrame_txnr_not_increasing 1%N cfg0 ci0 buf0 (mkHandler 5 true)
           (B "4 syslog 4 test") H).
Defined.


Import Wire.


Ltac valid_frame :=
  unfold validFrame; cbn [txnr command data];
  repeat split; try lia; try (vm_compute; congruence).


Lemma happyPath_valid : Forall validFrame happyPath.
Proof. repeat constructor; valid_frame. Qed.

Lemma RelpSplit_inverts_framer_witness :
  Scan (length happyPath + length (stream happyPath) + 2) 64 [] (stream happyPath)
       [2; 0; 40]%nat false
  = (map content happyPath, EndOfInput).
Proof.
  apply (RelpSplit_inverts_framer happyPath [2; 0; 40]%nat 64).
  - exact happyPath_valid.
  - repeat constructor.
  - repeat constructor; vm_compute; lia.
  - lia.
Defined.

(** C4, as the claim has it, fails: a payload that ends with a space
    loses it.  The frame is valid, the scanner hands over one token, and
    the token is not the frame's content. *)
Lemma RelpSplit_drops_trailing_space :
  let fr := mkFrame 1 (B "syslog") (B "a ") in
  validFrame fr
  /\ frame fr = B "1 syslog 2 a " ++ [LF]
  /\ Scan 20 64 [] (stream [fr]) [] false = ([B "1 syslog 2 a"], EndOfInput)
  /\ Scan 20 64 [] (stream [fr]) [] false <> (map content [fr], EndOfInput).
Proof.
  cbv zeta. split; [valid_frame |]. vm_compute. repeat split; congruence.
Qed.

End Scenarios.

(** ** The ack forwarder *)

Section AckFacts.

Lemma withQueue_maps (p : N) (g : IntQueue -> IntQueue) (f : ackForwarder) :
  succ (withQueue p g f) = succ f /\ fail (withQueue p g f) = fail f
  /\ comm (withQueue p g f) = comm f /\ next (withQueue p g f) = next f.
Proof. unfold withQueue. by destruct (queues f !! p). Qed.

(** The first block of [RemoveConn] removes the entry of [succ]. *)
Lemma RemoveConn_succ (connID : N) (f : ackForwarder) :
  succ f !! connID <> Some None -> succ (RemoveConn connID f) !! connID = None.
Proof.
  intros Hs. unfold RemoveConn.
  set (f1 := match succ f !! connID with
             | Some (Some p) => _ | _ => f end).
  assert (H1 : succ f1 !! connID = None).
  { unfold f1. destruct (succ f !! connID) as [[p|]|] eqn:E; [| done | done].
    cbn. apply lookup_delete_eq. }
  set (f2 := match fail f1 !! connID with
             | Some (Some p) => _ | _ => f1 end).
  assert (H2 : succ f2 = succ f1).
  { unfold f2. destruct (fail f1 !! connID) as [[p|]|]; try done.
    cbn. apply withQueue_maps. }
  destruct (comm f2 !! connID) as [[h|]|]; cbn; by rewrite ?H2.
Qed.

(** The third block of [RemoveConn] calls [f.fail.Set(connID, nil)] before
    [f.comm.Del(connID)]: a connection known to [comm] keeps an entry in
    [fail], with a nil queue. *)
Lemma RemoveConn_fail_entry (connID : N) (f : ackForwarder) (h : gmap Z bool) :
  comm f !! connID = Some (Some h) ->
  fail (RemoveConn connID f) !! connID = Some None
  /\ comm (RemoveConn connID f) !! connID = None.
Proof.
  intros Hc. unfold RemoveConn.
  set (f1 := match succ f !! connID with
             | Some (Some p) => _ | _ => f end).
  assert (H1 : comm f1 = comm f).
  { unfold f1. destruct (succ f !! connID) as [[p|]|]; try done.
    cbn. apply withQueue_maps. }
  set (f2 := match fail f1 !! connID with
             | Some (Some p) => _ | _ => f1 end).
  assert (H2 : comm f2 = comm f1).
  { unfold f2. destruct (fail f1 !! connID) as [[p|]|]; try done.
    cbn. apply withQueue_maps. }
  rewrite H2, H1, Hc. cbn. split; [apply lookup_insert_eq | apply lookup_delete_eq].
Qed.

(** C7 on a connection just added: after [RemoveConn] a later [Wait]
    returns false and both queues are disposed, [succ] and [comm] have
    lost their entries, but [fail] still holds the connection id (with a
    nil queue).  The claim's "no map retains an entry keyed by conn_id"
    does not hold of the code. *)
Theorem RemoveConn_leaves_fail_entry :
  let (connID, f) := AddConn newAckForwarder in
  let f' := RemoveConn connID f in
  connID = 1%N
  /\ succ f' !! connID = None
  /\ comm f' !! connID = None
  /\ fail f' !! connID = Some None
  /\ dom (fail f') = {[ connID ]}
  /\ Wait connID f' = Some false
  /\ (q_disposed <$> queues f' !! 0%N) = Some true
  /\ (q_disposed <$> queues f' !! 1%N) = Some true.
Proof.
  cbv zeta. repeat split; vm_compute; reflexivity.
Qed.

End AckFacts.

(** ** The binder *)

Section BinderFacts.

Import Binder.


(** C9 on scenario 5 of the specification.  The binder answers
    [listen tcp:0.0.0.0:2514] with the bytes [confirmlisten
    tcp:0.0.0.0:2514] and keeps the listener, or with [error
    tcp:0.0.0.0:2514 ...] when the bind fails; neither reply ends with a
    line feed, while the reply to [stoplisten] does. *)
Theorem binder_listen_replies_without_newline :
  let addr := B "tcp:0.0.0.0:2514" in
  binderCommand bindsAll bindsAll inUse writes [] (B "listen tcp:0.0.0.0:2514")
  = Continue [(addr, tt)] [ChildWrite (B "confirmlisten tcp:0.0.0.0:2514")]
  /\ isLine (B "confirmlisten tcp:0.0.0.0:2514") = false
  /\ binderCommand bindsNone bindsNone inUse writes [] (B "listen tcp:0.0.0.0:2514")
     = Continue [] [ChildWrite (B "error tcp:0.0.0.0:2514 address already in use")]
  /\ isLine (B "error tcp:0.0.0.0:2514 address already in use") = false
  /\ binderCommand bindsAll bindsAll inUse writes [(addr, tt)] (B "stoplisten tcp:0.0.0.0:2514")
     = Continue [] [ListenerClose addr; ChildWrite (B "stopped tcp:0.0.0.0:2514" ++ [LF])]
  /\ isLine (B "stopped tcp:0.0.0.0:2514" ++ [LF]) = true.
Proof. cbv zeta. repeat split; vm_compute; reflexivity. Qed.

End BinderFacts.

(** ** The plugin controller *)

Section PluginFacts.

Import Plugin.

Context {ListenerInfo Message Families DecodeError : Type}.
Context (unmarshalInfos : bytes -> list ListenerInfo + DecodeError).
Context (unmarshalMsg : bytes -> Message + DecodeError).
Context (unmarshalFamilies : bytes -> Families + DecodeError).
Context (hasRegistry : bool).

Let loop := listenLoop unmarshalInfos unmarshalMsg unmarshalFamilies hasRegistry.
Let step := listenStep unmarshalInfos unmarshalMsg unmarshalFamilies hasRegistry.

Lemma listenLoop_app (msgs rest : list bytes) (st0 st : ListenState) :
  loop msgs st0 = (st, false) -> loop (msgs ++ rest) st0 = loop rest st.
Proof.
  revert st0. induction msgs as [|m msgs IH]; intros st0 H; cbn in *.
  - by inversion H.
  - unfold loop in *. cbn [listenLoop app] in *.
    destruct (listenStep _ _ _ _ st0 m) as [st1 [|]]; [by inversion H |].
    by apply IH.
Qed.

Lemma listenStep_syslog_before_init (st : ListenState) (body : bytes) :
  initialized st = false ->
  step st (B "syslog" ++ SP :: body)
  = (setKill (onceDo (mkIE None (Some (Errorf syslogBeforeInit))) st), true).
Proof.
  intros Hi. unfold step, listenStep.
  change (SplitN (B "syslog" ++ SP :: body) SP 2) with [B "syslog"; body].
  cbn [nth]. rewrite bool_decide_eq_true_2 by done. by rewrite Hi.
Qed.


End PluginFacts.

Section PluginScenario.

Import Plugin.




End PluginScenario.

(** ** The parser workers *)

Section ParserFacts.

Import Parser.

Context {SyslogMessage Error Decoder ULID : Type}.
Context (GetParser : string -> option (@ParserT SyslogMessage Error Decoder)).
Context (SelectDecoder : string -> Decoder).
Context (Empty : SyslogMessage -> bool).
Context (gen : nat -> ULID).


Section AnyStasher.

Context {St : Type} `{!Stasher SyslogMessage Error ULID St}.
Context (direct : bool).

Let parse := Parse (St := St) GetParser SelectDecoder Empty gen direct.

Lemma poolPuts_addEvents (evs : list (Event SyslogMessage ULID)) (raw : model.RawTcpMessage)
    (r : Result SyslogMessage ULID St) :
  poolPuts (events (addEvents evs raw r)) = poolPuts evs ++ poolPuts (events r).
Proof. unfold poolPuts. cbn. apply omap_app. Qed.


End AnyStasher.

Lemma forwardSuccs_addEvents {St : Type} (evs : list (Event SyslogMessage ULID))
    (raw : model.RawTcpMessage) (r : Result SyslogMessage ULID St) :
  forwardSuccs (events (addEvents evs raw r)) = forwardSuccs evs ++ forwardSuccs (events r).
Proof. unfold forwardSuccs. cbn. apply omap_app. Qed.


End ParserFacts.

(** ** The order of the responses *)

Section OrderFacts.



Lemma NextToCommit_commOf (c : N) (f : ackForwarder) :
  NextToCommit c f = nextOf (commOf c f).
Proof.
  unfold NextToCommit, commOf, nextOf.
  destruct (comm f !! c) as [[h|]|]; try done.
Qed.

Lemma uintptr_small (z : Z) : 0 <= z < 2 ^ 63 -> uintptr z = z.
Proof.
  intros Hz. unfold uintptr. apply Z.mod_small.
  change (2 ^ 63) with 9223372036854775808 in Hz.
  change (2 ^ 64) with 18446744073709551616. lia.
Qed.

Lemma int_small (z : Z) : 0 <= z < 2 ^ 63 -> int z = z.
Proof. intros Hz. apply wrap64_small. lia. Qed.

Lemma nextLoop_foldl (l : list (Z * bool)) : forall m0 : Z,
  (forall k v, (k, v) ∈ l -> 0 <= k < 2 ^ 63) ->
  (m0 = -1 \/ 0 <= m0) ->
  let r := foldl nextLoop m0 l in
  (r = m0 \/ (r, true) ∈ l)
  /\ (r = -1 \/ 0 <= r)
  /\ (m0 <> -1 -> r <> -1 /\ r <= m0)
  /\ (forall k, (k, true) ∈ l -> r <> -1 /\ r <= k).
Proof.
  induction l as [|[k v] l IH]; intros m0 Hk Hm; cbn [foldl].
  - split; [by left |]. split; [done |]. split; [intros; split; [done | lia] |].
    intros k' Hin. by apply elem_of_nil in Hin.
  - assert (Hk0 : 0 <= k < 2 ^ 63) by (apply (Hk k v); left).
    assert (Hl : forall k' v', (k', v') ∈ l -> 0 <= k' < 2 ^ 63).
    { intros k' v' Hin. apply (Hk k' v'). by right. }
    set (m1 := nextLoop m0 (k, v)).
    assert (Hm1 : (m1 = m0 /\ (v = false \/ (m0 <> -1 /\ m0 <= k)))
                  \/ (m1 = k /\ v = true /\ (m0 = -1 \/ k < m0))).
    { unfold m1, nextLoop. cbn [fst snd]. rewrite int_small by done.
      destruct v; [| left; tauto].
      destruct (m0 =? -1) eqn:E1.
      - apply Z.eqb_eq in E1. right. tauto.
      - apply Z.eqb_neq in E1. destruct (k <? m0) eqn:E2.
        + apply Z.ltb_lt in E2. right. tauto.
        + apply Z.ltb_ge in E2. left. tauto. }
    assert (Hm1' : m1 = -1 \/ 0 <= m1) by (destruct Hm1 as [[-> _] | [-> _]]; [done | lia]).
    destruct (IH m1 Hl Hm1') as (Ha & Hb & Hc & Hd). fold m1.
    set (r := foldl nextLoop m1 l) in *.
    split; [| split; [done | split]].
    + destruct Ha as [Ha | Ha]; [| right; by right].
      destruct Hm1 as [[E _] | (E & -> & _)]; [left; congruence |].
      right. rewrite Ha, E. left.
    + intros Hne. destruct Hm1 as [[E _] | (E & _ & [? | Hlt])]; [| done |].
      * rewrite E in *. by apply Hc.
      * destruct Hc as [Hc1 Hc2]; [lia |]. split; [done | lia].
    + intros k' Hin. apply elem_of_cons in Hin as [Hin | Hin].
      * inversion Hin; subst k' v.
        destruct Hm1 as [[E [? | [Hne Hle]]] | (E & _ & _)]; [done | |].
        -- rewrite E in *. destruct Hc as [Hc1 Hc2]; [done |]. split; [done | lia].
        -- destruct Hc as [Hc1 Hc2]; [lia |]. split; [done | lia].
      * by apply Hd.
Qed.

(** [NextToCommit] returns the least pending transaction number, or -1
    when there is none. *)
Lemma nextOf_min (h : gmap Z bool) :
  (forall k v, h !! k = Some v -> 0 <= k < 2 ^ 63) ->
  (nextOf h = -1 /\ forall k, h !! k <> Some true)
  \/ (h !! nextOf h = Some true /\ forall k, h !! k = Some true -> nextOf h <= k).
Proof.
  intros Hk. unfold nextOf.
  destruct (size h =? 0)%nat eqn:Es.
  - apply Nat.eqb_eq, map_size_empty_inv in Es. subst h. left. split; [done |].
    intros k. by rewrite lookup_empty.
  - destruct (nextLoop_foldl (map_to_list h) (-1)) as (Ha & Hb & _ & Hd).
    + intros k v Hin. apply elem_of_map_to_list in Hin. eauto.
    + by left.
    + set (r := foldl nextLoop (-1) (map_to_list h)) in *.
      destruct Ha as [Ha | Ha].
      * left. split; [done |]. intros k Hin.
        apply elem_of_map_to_list in Hin. destruct (Hd k Hin). done.
      * right. split; [by apply elem_of_map_to_list |].
        intros k Hin. apply elem_of_map_to_list in Hin. by destruct (Hd k Hin).
Qed.


Lemma shrinks_refl (c : N) (f : ackForwarder) : shrinks c f f.
Proof. by split. Qed.

Lemma shrinks_trans (c : N) (f1 f2 f3 : ackForwarder) :
  shrinks c f1 f2 -> shrinks c f2 f3 -> shrinks c f1 f3.
Proof. intros [H1 H2] [H3 H4]. split; [congruence | auto]. Qed.

Lemma shrinks_same (c : N) (f f' : ackForwarder) :
  next f' = next f -> comm f' = comm f -> shrinks c f f'.
Proof. intros Hn Hc. split; [done |]. unfold commOf. by rewrite Hc. Qed.

Lemma shrinks_withQueue (c p : N) (g : IntQueue -> IntQueue) (f : ackForwarder) :
  shrinks c f (withQueue p g f).
Proof. apply shrinks_same; apply withQueue_maps. Qed.

Lemma shrinks_ForwardSucc (c c' : N) (t : Z) (f : ackForwarder) :
  shrinks c f (ForwardSucc c' t f).
Proof.
  unfold ForwardSucc. destruct (succ f !! c') as [[p|]|];
    [apply shrinks_withQueue | apply shrinks_refl | apply shrinks_refl].
Qed.

Lemma shrinks_ForwardFail (c c' : N) (t : Z) (f : ackForwarder) :
  shrinks c f (ForwardFail c' t f).
Proof.
  unfold ForwardFail. destruct (fail f !! c') as [[p|]|];
    [apply shrinks_withQueue | apply shrinks_refl | apply shrinks_refl].
Qed.

Lemma getFrom_same (m : gmap N (option N)) (c : N) (f : ackForwarder) :
  next (snd (getFrom m c f)) = next f /\ comm (snd (getFrom m c f)) = comm f.
Proof.
  unfold getFrom. destruct (m !! c) as [[p|]|]; try done.
  destruct (queues f !! p) as [q|]; try done.
  destruct (q_Get q) as [[t q']|]; done.
Qed.

Lemma commOf_set_comm_ne (c c' : N) (v : option (gmap Z bool)) (f : ackForwarder) :
  c' <> c -> commOf c (set_comm (<[c' := v]> (comm f)) f) = commOf c f.
Proof. intros Hne. unfold commOf. cbn. by rewrite lookup_insert_ne. Qed.

Lemma commOf_Received_ne (c c' : N) (t : Z) (f : ackForwarder) :
  c' <> c -> next (Received c' t f) = next f /\ commOf c (Received c' t f) = commOf c f.
Proof.
  intros Hne. unfold Received. destruct (comm f !! c') as [[h|]|]; try done.
  split; [done |]. by apply commOf_set_comm_ne.
Qed.

Lemma commOf_Received (c : N) (t : Z) (f : ackForwarder) :
  next (Received c t f) = next f
  /\ (commOf c (Received c t f) = commOf c f
      \/ commOf c (Received c t f) = <[uintptr t := true]> (commOf c f)).
Proof.
  unfold Received, commOf. destruct (comm f !! c) as [[h|]|] eqn:E; cbn; rewrite ?E; try tauto.
  split; [done |]. right. by rewrite lookup_insert_eq.
Qed.

Lemma commOf_Committed_ne (c c' : N) (t : Z) (f : ackForwarder) :
  c' <> c -> next (Committed c' t f) = next f /\ commOf c (Committed c' t f) = commOf c f.
Proof.
  intros Hne. unfold Committed. destruct (comm f !! c') as [[h|]|]; try done.
  split; [done |]. by apply commOf_set_comm_ne.
Qed.

Lemma commOf_Committed (c : N) (t : Z) (f : ackForwarder) :
  next (Committed c t f) = next f
  /\ commOf c (Committed c t f) = delete (uintptr t) (commOf c f).
Proof.
  unfold Committed, commOf. destruct (comm f !! c) as [[h|]|] eqn:E; cbn; rewrite ?E;
    try (split; [done | by rewrite delete_empty]).
  split; [done |]. rewrite lookup_insert_eq. by rewrite delete_insert_eq.
Qed.

Lemma shrinks_RemoveConn (c c' : N) (f : ackForwarder) : shrinks c f (RemoveConn c' f).
Proof.
  unfold RemoveConn.
  set (f1 := match succ f !! c' with Some (Some p) => _ | _ => f end).
  assert (H1 : shrinks c f f1).
  { unfold f1. destruct (succ f !! c') as [[p|]|]; try apply shrinks_refl.
    apply shrinks_same; cbn; apply withQueue_maps. }
  set (f2 := match fail f1 !! c' with Some (Some p) => _ | _ => f1 end).
  assert (H2 : shrinks c f1 f2).
  { unfold f2. destruct (fail f1 !! c') as [[p|]|]; try apply shrinks_refl.
    apply shrinks_same; cbn; apply withQueue_maps. }
  eapply shrinks_trans; [exact H1 |]. eapply shrinks_trans; [exact H2 |].
  destruct (comm f2 !! c') as [[h|]|] eqn:E; try apply shrinks_refl.
  split; [done |]. intros k v. unfold commOf. cbn.
  destruct (decide (c' = c)) as [-> | Hne].
  - by rewrite lookup_delete_eq, lookup_empty.
  - by rewrite lookup_delete_ne.
Qed.

Lemma shrinks_foldl_RemoveConn (c : N) (l : list (N * option N)) (f : ackForwarder) :
  shrinks c f (foldl (fun f kv => RemoveConn (fst kv) f) f l).
Proof.
  revert f. induction l as [|kv l IH]; intros f; [apply shrinks_refl |].
  cbn [foldl]. eapply shrinks_trans; [apply shrinks_RemoveConn | apply IH].
Qed.

Lemma shrinks_RemoveAll (c : N) (f : ackForwarder) : shrinks c f (RemoveAll f).
Proof.
  unfold RemoveAll. eapply shrinks_trans; apply shrinks_foldl_RemoveConn.
Qed.

Lemma commOf_AddConn (c : N) (f : ackForwarder) :
  (c <= next f)%N -> (next f + 1 < 2 ^ 64)%N ->
  (c <= next (snd (AddConn f)))%N /\ commOf c (snd (AddConn f)) = commOf c f.
Proof.
  intros Hc Hw. unfold AddConn. cbn [snd next].
  rewrite N.mod_small by done. split; [lia |].
  unfold commOf. cbn [comm]. rewrite lookup_insert_ne by lia. done.
Qed.

Lemma digitVal_nonneg (b : byte) (d : Z) : digitVal b = Some d -> 0 <= d <= 9.
Proof.
  unfold digitVal. destruct (_ && _) eqn:E; [| done].
  apply andb_true_iff in E as [E1 E2]. apply Z.leb_le in E1, E2.
  intros [= <-]. lia.
Qed.

Lemma parseUintFrom_nonneg (s : bytes) : forall n, 0 <= n -> 0 <= fst (parseUintFrom s n).
Proof.
  induction s as [|b s IH]; intros n Hn; cbn [parseUintFrom]; [done |].
  destruct (digitVal b) as [d|] eqn:Ed; [| done].
  apply digitVal_nonneg in Ed.
  destruct (n >=? maxUint64 / 10 + 1); [done |].
  destruct (n * 10 + d >? maxUint64); [done |].
  apply IH. lia.
Qed.

(** [strconv.Atoi] returns a value of Go's [int], also with an error. *)
Lemma Atoi_range (s : bytes) : - 2 ^ 63 <= fst (Atoi s) < 2 ^ 63.
Proof.
  assert (Hc : 2 ^ 63 = 9223372036854775808) by reflexivity.
  unfold Atoi. destruct s as [|c r]; [cbn; lia |].
  set (s' := if (Byte.eqb c "+"%byte || Byte.eqb c "-"%byte)%bool then r else c :: r).
  assert (Hun : 0 <= fst (ParseUint s')).
  { unfold ParseUint. destruct s'; [done |]. by apply parseUintFrom_nonneg. }
  destruct (ParseUint s') as [un e]. cbn [fst] in Hun.
  assert (Hmain : - 2 ^ 63 <= fst (if negb (Byte.eqb c "-"%byte) && (un >=? 2 ^ 63)
                                   then (2 ^ 63 - 1, Some ErrRange)
                                   else if Byte.eqb c "-"%byte && (un >? 2 ^ 63)
                                        then (- 2 ^ 63, Some ErrRange)
                                        else (if Byte.eqb c "-"%byte then - un else un, None))
                  < 2 ^ 63).
  { rewrite Hc. destruct (Byte.eqb c "-"%byte); cbn [negb andb].
    - destruct (un >? 9223372036854775808) eqn:E; cbn [fst]; [lia |].
      rewrite Z.gtb_ltb in E. apply Z.ltb_ge in E. lia.
    - destruct (un >=? 9223372036854775808) eqn:E; cbn [fst]; [lia |].
      rewrite Z.geb_leb in E. apply Z.leb_gt in E. lia. }
  destruct e as [[|]|]; [cbn; lia | exact Hmain | exact Hmain].
Qed.

(** What an iteration of the handler does to the forwarder: nothing when
    it returns; when it goes on, the transaction number went up, and at
    most [Received] and [ForwardSucc] were called, with that number. *)
Lemma handleFrame_effect (c : N) (config : conf.SyslogConfig) (ci : ConnInfo)
    (rented : model.RawTcpMessage) (st : HandlerState) (line : bytes) (f : ackForwarder) :
  match handleFrame c config ci rented st line with
  | Continue st' evs =>
      previous st < previous st' < 2 ^ 63
      /\ (applyEvents evs f = f
          \/ applyEvents evs f = Received c (previous st') f
          \/ applyEvents evs f = ForwardSucc c (previous st') (Received c (previous st') f))
  | Return evs | IndexPanic evs => applyEvents evs f = f
  end.
Proof.
  unfold handleFrame.
  pose proof (Atoi_range (nth 0 (SplitN line SP 4) [])) as Hr.
  set (txnr := fst (Atoi (nth 0 (SplitN line SP 4) []))) in *.
  destruct (txnr <=? previous st) eqn:Hle.
  { rewrite applyEvents_app, applyEvents_deadline. done. }
  apply Z.leb_gt in Hle.
  destruct (SplitN line SP 4) as [|s0 [|s1 [|s2 rest]]];
    try apply applyEvents_deadline.
  destruct (payload _ rest) as [data|].
  2: { rewrite applyEvents_app, applyEvents_deadline. done. }
  repeat match goal with
         | |- context [bool_decide ?P] => destruct (bool_decide P)
         | |- context [relpIsOpen st] => destruct (relpIsOpen st)
         | |- context [len data =? 0] => destruct (len data =? 0)
         end;
    cbn [negb]; rewrite ?applyEvents_app, ?applyEvents_deadline; cbn [previous];
    try done; (split; [lia |]); cbn; tauto.
Qed.




Lemma pcInv_shrink (p : PC) (emitted : list Z) (h h' : gmap Z bool) (prev : Z) :
  pcInv p emitted h prev ->
  (forall k v, h' !! k = Some v -> h !! k = Some v) ->
  pcInv p emitted h' prev.
Proof. intros H Hs. destruct p; cbn in *; try (intros e k He Hk; eauto); intuition eauto. Qed.

Lemma pcInv_received (p : PC) (emitted : list Z) (h : gmap Z bool) (prev t : Z) :
  pcInv p emitted h prev -> Forall (fun e => 0 <= e <= prev) emitted -> prev < t ->
  pcInv p emitted (<[t := true]> h) t.
Proof.
  intros H Hem Ht.
  assert (Hnew : forall e k, e ∈ emitted -> <[t := true]> h !! k = Some true ->
                             (k = t /\ e < t) \/ h !! k = Some true).
  { intros e k He Hk. destruct (decide (t = k)) as [<- | Hne].
    - left. split; [done |]. rewrite Forall_forall in Hem. specialize (Hem e He). lia.
    - right. by rewrite lookup_insert_ne in Hk. }
  destruct p; cbn in *;
    try (intros e k He Hk; destruct (Hnew e k He Hk) as [[-> ?] | ?]; [done | eauto]).
  - destruct H as (Hn & Hf & Hl). split; [lia |]. split; [done |].
    intros k Hk. destruct (decide (t = k)) as [<- | Hne]; [lia |].
    rewrite lookup_insert_ne in Hk by done. auto.
  - destruct H as (Hn & Hf & Hl). split; [lia |]. split; [done |].
    intros k Hk. destruct (decide (t = k)) as [<- | Hne]; [lia |].
    rewrite lookup_insert_ne in Hk by done. auto.
Qed.

Lemma pcInv_prev (p : PC) (emitted : list Z) (h : gmap Z bool) (prev prev' : Z) :
  pcInv p emitted h prev -> prev <= prev' -> pcInv p emitted h prev'.
Proof. intros H Hle. destruct p; cbn in *; try done; intuition lia. Qed.

Lemma Inv_fwd (c : N) (s : System) (f' : ackForwarder) (a : bool) :
  Inv c s -> (c <= next f')%N ->
  (forall k v, commOf c f' !! k = Some v -> commOf c (fwd s) !! k = Some v) ->
  Inv c (mkSystem f' (handler s) a (cooker s)).
Proof.
  intros [Hn Hp Hk (tks & Hw & Hs & Hf & Hpc)] Hnext Hsub.
  constructor; cbn [fwd handler cooker]; try done.
  - intros k v Hkv. eauto.
  - exists tks. repeat split; try done. eapply pcInv_shrink; eauto.
Qed.

Lemma Inv_shrinks (c : N) (s : System) (f' : ackForwarder) (a : bool) :
  Inv c s -> shrinks c (fwd s) f' -> Inv c (mkSystem f' (handler s) a (cooker s)).
Proof.
  intros HI [Hnext Hsub]. apply Inv_fwd; try done. rewrite Hnext. apply HI.
Qed.

Lemma Inv_same (c : N) (s : System) (f' : ackForwarder) (a : bool) :
  Inv c s -> next f' = next (fwd s) -> commOf c f' = commOf c (fwd s) ->
  Inv c (mkSystem f' (handler s) a (cooker s)).
Proof.
  intros HI Hn Hc. apply Inv_shrinks; [done |]. split; [done |]. by rewrite Hc.
Qed.

Lemma Inv_received (c : N) (s : System) (f' : ackForwarder) (st' : HandlerState) (a : bool) :
  Inv c s -> previous (handler s) < previous st' < 2 ^ 63 ->
  next f' = next (fwd s) ->
  (commOf c f' = commOf c (fwd s)
   \/ commOf c f' = <[previous st' := true]> (commOf c (fwd s))) ->
  Inv c (mkSystem f' st' a (cooker s)).
Proof.
  intros [Hn Hp Hk (tks & Hw & Hs & Hf & Hpc)] Hlt Hnext Hc.
  constructor; cbn [fwd handler cooker].
  - by rewrite Hnext.
  - lia.
  - intros k v Hkv. destruct Hc as [Hc | Hc]; rewrite Hc in Hkv.
    + specialize (Hk k v Hkv). lia.
    + destruct (decide (previous st' = k)) as [<- | Hne]; [lia |].
      rewrite lookup_insert_ne in Hkv by done. specialize (Hk k v Hkv). lia.
  - exists tks. split; [done |]. split; [done |]. split.
    + eapply Forall_impl; [exact Hf |]. cbn. intros t Ht. lia.
    + destruct Hc as [-> | ->].
      * eapply pcInv_prev; [exact Hpc | lia].
      * eapply pcInv_received; [exact Hpc | exact Hf | lia].
Qed.

Lemma StronglySorted_snoc (l : list Z) (x : Z) :
  StronglySorted Z.lt l -> Forall (fun e => e < x) l -> StronglySorted Z.lt (l ++ [x]).
Proof.
  induction 1 as [|a l Hs IH Ha]; intros Hx; cbn.
  - constructor; constructor.
  - apply Forall_cons in Hx as [Hax Hx]. constructor; [by apply IH |].
    apply Forall_app. split; [done | by constructor].
Qed.

Lemma ForwardSucc_same (c : N) (t : Z) (f : ackForwarder) :
  next (ForwardSucc c t f) = next f /\ comm (ForwardSucc c t f) = comm f.
Proof.
  unfold ForwardSucc. destruct (succ f !! c) as [[p|]|]; try done.
  split; apply withQueue_maps.
Qed.

Lemma Inv_cook (c : N) (s : System) (f' : ackForwarder) (k' : Cooker) :
  Inv c s -> cookerStep c (fwd s) (cooker s) = Some (f', k') ->
  Inv c (mkSystem f' (handler s) (alive s) k').
Proof.
  destruct s as [f h a [p su fa w]]. cbn [fwd handler Connection.alive cooker].
  intros HI Hstep. unfold cookerStep in Hstep. cbn [pc successes failures written] in Hstep.
  pose proof HI as [Hn Hp Hk (tks & Hw & Hs & Hf & Hpc)].
  cbn [fwd handler cooker pc written] in *.
  assert (Hgen : forall p', match p' with AtAnswer _ _ | AtCommitted _ => False | _ => True end ->
                 (forall e k, e ∈ map fst tks -> commOf c f !! k = Some true -> e < k) ->
                 Inv c (mkSystem f h a (mkCooker p' su fa w))).
  { intros p' Hp' Hg. constructor; cbn; try done.
    exists tks. repeat split; try done. by destruct p'. }
  assert (Hgen' : forall p' su' fa' f2,
                 match p' with AtAnswer _ _ | AtCommitted _ => False | _ => True end ->
                 (forall e k, e ∈ map fst tks -> commOf c f !! k = Some true -> e < k) ->
                 next f2 = next f -> comm f2 = comm f ->
                 Inv c (mkSystem f2 h a (mkCooker p' su' fa' w))).
  { intros p' su' fa' f2 Hp' Hg Hn2 Hc2.
    assert (Hco : commOf c f2 = commOf c f) by (unfold commOf; by rewrite Hc2).
    constructor; cbn; rewrite ?Hn2, ?Hco; try done.
    exists tks. repeat split; try done. by destruct p'. }
  destruct p as [| ptrs | | | | n ok | n |].
  - (* AtWait *)
    destruct (WaitPtrs c f); inversion Hstep; subst; by apply Hgen'.
  - (* InWaitOne *)
    destruct (WaitOnPtrs ptrs f) as [[|]|]; inversion Hstep; subst; by apply Hgen'.
  - (* AtGetSucc *)
    unfold GetSucc in Hstep. pose proof (getFrom_same (succ f) c f) as [Hn2 Hc2].
    destruct (getFrom (succ f) c f) as [t f2]. cbn [snd] in *.
    destruct (negb (t =? -1)); inversion Hstep; subst; by apply Hgen'.
  - (* AtGetFail *)
    unfold GetFail in Hstep. pose proof (getFrom_same (fail f) c f) as [Hn2 Hc2].
    destruct (getFrom (fail f) c f) as [t f2]. cbn [snd] in *.
    destruct (negb (t =? -1)); inversion Hstep; subst; by apply Hgen'.
  - (* AtCooking *)
    rewrite NextToCommit_commOf in Hstep.
    assert (Hrange : forall k v, commOf c f !! k = Some v -> 0 <= k < 2 ^ 63).
    { intros k v Hkv. specialize (Hk k v Hkv). lia. }
    assert (Hans : forall ok, nextOf (commOf c f) <> -1 ->
              Inv c (mkSystem f h a (mkCooker (AtAnswer (nextOf (commOf c f)) ok) su fa w))).
    { intros ok Hne. destruct (nextOf_min _ Hrange) as [[E _] | [Hlive Hmin]]; [done |].
      constructor; cbn; try done.
      exists tks. repeat split; try done.
      - specialize (Hk _ _ Hlive). lia.
      - specialize (Hk _ _ Hlive). lia.
      - apply Forall_forall. intros e He. cbn in Hpc. eauto. }
    destruct (nextOf (commOf c f) =? -1) eqn:E1.
    { inversion Hstep; subst. by apply Hgen. }
    apply Z.eqb_neq in E1.
    destruct (index su _).
    { inversion Hstep; subst. by apply Hans. }
    destruct (index fa _); inversion Hstep; subst; [by apply Hans | by apply Hgen].
  - (* AtAnswer *)
    cbn in Hpc. destruct Hpc as (Hn0 & Hlt & Hmin).
    assert (Hnew : Inv c (mkSystem f h a
                     (mkCooker (AtCommitted n)
                               (if ok then delete n su else su)
                               (if ok then fa else delete n fa)
                               (w ++ [answer (n, ok)])))).
    { constructor; cbn; try done.
      exists (tks ++ [(n, ok)]). rewrite !map_app. cbn [map fst].
      split; [by rewrite Hw |]. split; [by apply StronglySorted_snoc |].
      split; [apply Forall_app; split; [done | by constructor] |].
      split; [done |]. split; [| done].
      apply Forall_app. split; [| constructor; [lia | constructor]].
      eapply Forall_impl; [exact Hlt |]. cbn. intros e He. lia. }
    destruct ok; inversion Hstep; subst; exact Hnew.
  - (* AtCommitted *)
    inversion Hstep; subst. cbn in Hpc. destruct Hpc as (Hn0 & Hle & Hmin).
    destruct (commOf_Committed c n f) as [Hn2 Hc2].
    rewrite uintptr_small in Hc2 by lia.
    constructor; cbn; rewrite ?Hn2, ?Hc2; try done.
    + intros k v Hkv. apply lookup_delete_Some in Hkv as [_ Hkv]. eauto.
    + exists tks. repeat split; try done.
      intros e k He Hkv. apply lookup_delete_Some in Hkv as [Hne Hkv].
      rewrite Forall_forall in Hle. specialize (Hle e He). specialize (Hmin k Hkv). lia.
  - done.
Qed.

Lemma Inv_exec (c : N) (config : conf.SyslogConfig) (ci : ConnInfo) (a : Action)
    (s s' : System) :
  Inv c s -> exec c config ci a s = Some s' -> Inv c s'.
Proof.
  intros HI Hex. destruct a as [line rented | | | c' t | c' t | c' t | c' t | | c' |];
    cbn [exec] in Hex.
  - (* Frame *)
    destruct (Connection.alive s); [| done].
    pose proof (handleFrame_effect c config ci rented (handler s) line (fwd s)) as He.
    destruct (handleFrame c config ci rented (handler s) line) as [st' evs | evs | evs];
      inversion Hex; subst.
    + destruct He as [Hlt Hf].
      assert (Hu : uintptr (previous st') = previous st').
      { apply uintptr_small. pose proof (inv_prev c s HI). lia. }
      destruct (commOf_Received c (previous st') (fwd s)) as [Hrn Hrc]. rewrite Hu in Hrc.
      destruct Hf as [-> | [-> | ->]].
      * apply Inv_received; try done. by left.
      * by apply Inv_received.
      * destruct (ForwardSucc_same c (previous st') (Received c (previous st') (fwd s)))
          as [Hfn Hfc].
        apply Inv_received; try done; [by rewrite Hfn |].
        unfold commOf in *. by rewrite Hfc.
    + rewrite He. apply Inv_shrinks; [done | apply shrinks_RemoveConn].
    + rewrite He. apply Inv_shrinks; [done | apply shrinks_RemoveConn].
  - (* ScanEnd *)
    destruct (Connection.alive s); inversion Hex; subst.
    apply Inv_shrinks; [done | apply shrinks_RemoveConn].
  - (* Cook *)
    destruct (cookerStep c (fwd s) (cooker s)) as [[f k]|] eqn:E; inversion Hex; subst.
    by apply Inv_cook.
  - inversion Hex; subst. apply Inv_shrinks; [done | apply shrinks_ForwardSucc].
  - inversion Hex; subst. apply Inv_shrinks; [done | apply shrinks_ForwardFail].
  - destruct (bool_decide (c' = c)) eqn:E; inversion Hex; subst.
    apply bool_decide_eq_false in E.
    destruct (commOf_Received_ne c c' t (fwd s) E) as [Hn Hc]. by apply Inv_same.
  - destruct (bool_decide (c' = c)) eqn:E; inversion Hex; subst.
    apply bool_decide_eq_false in E.
    destruct (commOf_Committed_ne c c' t (fwd s) E) as [Hn Hc]. by apply Inv_same.
  - destruct (next (fwd s) + 1 <? 2 ^ 64)%N eqn:E; inversion Hex; subst.
    apply N.ltb_lt in E.
    destruct (commOf_AddConn c (fwd s) (inv_next c s HI) E) as [Hn Hc].
    unfold AddConn in Hn, Hc. cbn [snd] in Hn, Hc.
    apply Inv_fwd; [done | done |]. intros k v. by rewrite Hc.
  - inversion Hex; subst. apply Inv_shrinks; [done | apply shrinks_RemoveConn].
  - inversion Hex; subst. apply Inv_shrinks; [done | apply shrinks_RemoveAll].
Qed.

Lemma Inv_run (c : N) (config : conf.SyslogConfig) (ci : ConnInfo) (acts : list Action) :
  forall s s', Inv c s -> run c config ci acts s = Some s' -> Inv c s'.
Proof.
  induction acts as [|a acts IH]; intros s s' HI Hr; cbn [run] in Hr.
  - by inversion Hr; subst.
  - destruct (exec c config ci a s) as [s1|] eqn:E; [| done].
    eapply IH; [| exact Hr]. eapply Inv_exec; eauto.
Qed.

Lemma Inv_accept (f0 : ackForwarder) : Inv (fst (accept f0)) (snd (accept f0)).
Proof.
  unfold accept, AddConn. cbn [fst snd].
  constructor; cbn [fwd handler cooker next previous initHandler].
  - lia.
  - assert (2 ^ 63 = 9223372036854775808) by reflexivity. lia.
  - intros k v. unfold commOf. cbn [comm]. rewrite lookup_insert_eq. by rewrite lookup_empty.
  - exists []. cbn. repeat split; try constructor.
    intros e k He. by apply elem_of_nil in He.
Qed.

Lemma responseTxnr_answer (t : Z) (ok : bool) :
  0 <= t < 2 ^ 63 -> responseTxnr (answer (t, ok)) = t.
Proof.
  intros Ht. destruct (itoa_digits t) as (ds & E & Hne & Hd); [lia |].
  assert (Hcut : forall rest, nth 0 (SplitN (itoa t ++ SP :: rest) SP 2) [] = itoa t).
  { intros rest. cbn [SplitN]. rewrite cutAt_word; [done |].
    rewrite E. by apply word_no_SP, digits_word. }
  unfold responseTxnr, answer, successAnswer, failureAnswer. cbn [fst snd].
  destruct ok.
  - change (B " rsp 6 200 OK" ++ [LF]) with (SP :: B "rsp 6 200 OK" ++ [LF]).
    rewrite Hcut. by rewrite Atoi_itoa.
  - change (B " rsp 6 500 KO" ++ [LF]) with (SP :: B "rsp 6 500 KO" ++ [LF]).
    rewrite Hcut. by rewrite Atoi_itoa.
Qed.

Lemma StronglySorted_lookup (l : list Z) :
  StronglySorted Z.lt l ->
  forall (i j : nat) (a b : Z),
    (i < j)%nat -> l !! i = Some a -> l !! j = Some b -> a < b.
Proof.
  induction 1 as [|x l Hs IH Hx]; intros i j a b Hij Hi Hj; [done |].
  destruct j as [|j]; [lia |]. cbn in Hj.
  destruct i as [|i]; cbn in Hi.
  - inversion Hi; subst. rewrite Forall_forall in Hx. apply Hx.
    apply list_elem_of_lookup. eauto.
  - eapply IH; [| exact Hi | exact Hj]. lia.
Qed.

(** C1.  Whatever the frames the handler reads, whatever the order in
    which outcomes are forwarded (for this connection or another), and
    whatever the other connections and [doStop] do to the forwarder in
    between, the lines the response cooker of a connection has written
    are success or failure responses, and of two of them the earlier has
    the smaller transaction number. *)
Theorem responses_in_txnr_order
    (f0 : ackForwarder) (config : conf.SyslogConfig) (ci : ConnInfo)
    (acts : list Action) (s : System) :
  run (fst (accept f0)) config ci acts (snd (accept f0)) = Some s ->
  (forall (i j : nat) (r1 r2 : bytes),
      (i < j)%nat ->
      written (cooker s) !! i = Some r1 -> written (cooker s) !! j = Some r2 ->
      responseTxnr r1 < responseTxnr r2)
  /\ (forall r, r ∈ written (cooker s) ->
        r = successAnswer (responseTxnr r) \/ r = failureAnswer (responseTxnr r)).
Proof.
  intros Hrun.
  pose proof (Inv_run _ _ _ _ _ _ (Inv_accept f0) Hrun) as [_ Hp _ (tks & Hw & Hs & Hf & _)].
  assert (Htx : map responseTxnr (written (cooker s)) = map fst tks).
  { rewrite Hw, map_map. apply map_ext_in. intros [t ok] Hin.
    apply responseTxnr_answer. rewrite Forall_forall in Hf.
    assert (Ht : t ∈ map fst tks).
    { apply list_elem_of_In. apply (in_map fst) in Hin. exact Hin. }
    specialize (Hf t Ht). cbn in Hf. cbn [fst]. lia. }
  split.
  - intros i j r1 r2 Hij H1 H2.
    rewrite <- Htx in Hs.
    eapply (StronglySorted_lookup _ Hs i j); [done | |];
      rewrite list_lookup_fmap; [by rewrite H1 | by rewrite H2].
  - intros r Hr. rewrite Hw in Hr. apply list_elem_of_fmap in Hr as ([t ok] & -> & Hin).
    rewrite responseTxnr_answer.
    + unfold answer. cbn [fst snd]. destruct ok; tauto.
    + rewrite Forall_forall in Hf.
      assert (Ht : t ∈ map fst tks) by (apply list_elem_of_fmap; by exists (t, ok)).
      specialize (Hf t Ht). cbn in Hf. lia.
Qed.

End OrderFacts.

Section OrderScenario.



Lemma outOfOrder_run :
  run (fst (accept newAckForwarder)) cfg0 ci0 outOfOrder (snd (accept newAckForwarder))
  = Some afterOutOfOrder.
Proof. vm_compute. reflexivity. Qed.

Lemma outOfOrder_written :
  written (cooker afterOutOfOrder)
  = [B "2 rsp 6 200 OK" ++ [LF]; B "3 rsp 6 200 OK" ++ [LF]].
Proof. vm_compute. reflexivity. Qed.

Lemma responses_in_txnr_order_witness :
  responseTxnr (B "2 rsp 6 200 OK" ++ [LF]) < responseTxnr (B "3 rsp 6 200 OK" ++ [LF]).
Proof.
  refine (proj1 (responses_in_txnr_order newAckForwarder cfg0 ci0 outOfOrder afterOutOfOrder
                   outOfOrder_run) 0%nat 1%nat _ _ _ _ _).
  - lia.
  - by rewrite outOfOrder_written.
  - by rewrite outOfOrder_written.
Defined.

End OrderScenario.

Section ParserScenario.

Import Parser.



End ParserScenario.

(** ** The splitters of the TCP service *)

Section TcpFacts.

Lemma indexFunc_stop (f : byte -> bool) (w : bytes) (c : byte) (r : bytes) :
  Forall (fun b => f b = false) w -> f c = true ->
  indexFunc f (w ++ c :: r) = len w.
Proof.
  intros Hw Hc. induction Hw as [|b w Hb Hw IH]; cbn [app indexFunc].
  - by rewrite Hc.
  - rewrite Hb, IH. pose proof (len_nonneg w).
    destruct (len w <? 0) eqn:E; [lia |]. rewrite len_cons. lia.
Qed.

Lemma indexFunc_none (f : byte -> bool) (s : bytes) :
  Forall (fun b => f b = false) s -> indexFunc f s = -1.
Proof.
  induction 1 as [|b s Hb Hs IH]; cbn [indexFunc]; [done |]. by rewrite Hb, IH.
Qed.

Lemma indexFunc_cases (f : byte -> bool) (s : bytes) :
  (indexFunc f s = -1 /\ Forall (fun b => f b = false) s)
  \/ exists w c r, s = w ++ c :: r /\ Forall (fun b => f b = false) w /\ f c = true
                   /\ indexFunc f s = len w.
Proof.
  induction s as [|b s IH].
  - left. split; [done | constructor].
  - destruct (f b) eqn:Hb.
    + right. exists [], b, s. repeat split; [constructor | done |]. cbn. by rewrite Hb.
    + destruct IH as [[E Hall] | (w & c & r & -> & Hw & Hc & E)].
      * left. split; [| by constructor]. cbn [indexFunc]. by rewrite Hb, E.
      * right. exists (b :: w), c, r. repeat split; [by constructor | done |].
        apply (indexFunc_stop f (b :: w) c r); [by constructor | done].
Qed.

Lemma TrimLeft_blank (pre s : bytes) : blank pre -> TrimLeft (pre ++ s) = TrimLeft s.
Proof. induction 1 as [|b pre Hb Hpre IH]; cbn [app]; [done |]. by rewrite TrimLeft_sep. Qed.

Lemma TrimLeft_split (s : bytes) :
  exists pre, blank pre /\ s = pre ++ TrimLeft s
    /\ match TrimLeft s with [] => True | b :: _ => splitSpaceOrLF b = false end.
Proof.
  induction s as [|b s (pre & Hpre & E & Hhd)].
  - exists []. repeat split. constructor.
  - destruct (splitSpaceOrLF b) eqn:Hb.
    + exists (b :: pre). rewrite TrimLeft_sep by done. repeat split; [by constructor | | done].
      cbn [app]. by rewrite <- E.
    + exists []. rewrite TrimLeft_id by done. repeat split; [constructor | done].
Qed.

Lemma Trim_word (w : bytes) : word w -> Trim w = w.
Proof.
  intros Hw. unfold Trim. rewrite TrimLeft_word by done.
  destruct (rev w) as [|b x] eqn:E.
  - apply (f_equal (@rev byte)) in E. rewrite rev_involutive in E. by subst.
  - apply (f_equal (@rev byte)) in E. rewrite rev_involutive in E. cbn [rev] in E.
    subst w. apply TrimRight_id. apply Forall_app in Hw as [_ Hb].
    by apply Forall_cons in Hb as [Hb _].
Qed.

Lemma take_len_app {A} (a b : list A) : take (Z.to_nat (len a)) (a ++ b) = a.
Proof. unfold len. rewrite Nat2Z.id. by rewrite take_app_length. Qed.

Lemma TrimLeft_snoc (x : bytes) (b : byte) :
  splitSpaceOrLF b = false -> exists y, TrimLeft (x ++ [b]) = y ++ [b].
Proof.
  intros Hb. induction x as [|c x [y IH]]; cbn [app].
  - exists []. by rewrite TrimLeft_id.
  - destruct (splitSpaceOrLF c) eqn:Hc.
    + rewrite TrimLeft_sep by done. by exists y.
    + rewrite TrimLeft_id by done. by exists (c :: x).
Qed.

Lemma Trim_head (b : byte) (s : bytes) :
  splitSpaceOrLF b = false -> exists t, Trim (b :: s) = b :: t.
Proof.
  intros Hb. unfold Trim. rewrite TrimLeft_id by done. unfold TrimRight.
  cbn [rev]. destruct (TrimLeft_snoc (rev s) b Hb) as [y ->].
  rewrite rev_app_distr. cbn. by eexists.
Qed.

Lemma not_LF_of_word (b : byte) : splitSpaceOrLF b = false -> Byte.eqb b LF = false.
Proof. unfold splitSpaceOrLF. destruct (Byte.eqb b SP), (Byte.eqb b LF); cbn; congruence. Qed.

Lemma LFTcpSplit_line_token (pre : bytes) (b : byte) (line rest : bytes) (atEOF : bool) :
  blank pre -> splitSpaceOrLF b = false ->
  Forall (fun c => Byte.eqb c LF = false) line ->
  LFTcpSplit (pre ++ b :: line ++ LF :: rest) atEOF
  = Token (len pre + len (b :: line) + 1) (Trim (b :: line)).
Proof.
  intros Hpre Hb Hline. unfold LFTcpSplit.
  rewrite TrimLeft_blank by done. rewrite TrimLeft_id by done.
  rewrite len_app. rewrite (len_cons b (line ++ _)).
  pose proof (len_nonneg (line ++ LF :: rest)).
  destruct (1 + len (line ++ LF :: rest) =? 0) eqn:E0; [lia |].
  unfold IndexByte.
  change (b :: line ++ LF :: rest) with ((b :: line) ++ LF :: rest).
  rewrite indexFunc_stop; [| constructor; [by apply not_LF_of_word | done] | done].
  pose proof (len_nonneg (b :: line)).
  destruct (len (b :: line) >=? 0) eqn:E1; [| lia].
  rewrite take_len_app. f_equal. rewrite len_app, (len_cons LF). rewrite !len_cons. lia.
Qed.


Lemma eqb_LF (c : byte) : Byte.eqb c LF = true -> c = LF.
Proof. intros H. by apply Byte.byte_dec_bl in H. Qed.

Lemma LFTcpSplit_bounds (data : bytes) (atEOF : bool) :
  match LFTcpSplit data atEOF with
  | NeedMore => True
  | Token advance token =>
      0 < advance <= len data
      /\ token <> []
      /\ nth (Z.to_nat (advance - 1)) data x00 = LF
  | SplitErr _ | Panic => False
  end.
Proof.
  unfold LFTcpSplit.
  destruct (TrimLeft_split data) as (pre & Hpre & E & Hhd).
  destruct (TrimLeft data) as [|b td] eqn:Etd; [done |].
  pose proof (len_nonneg td). rewrite len_cons.
  destruct (1 + len td =? 0) eqn:E0; [lia |].
  unfold IndexByte.
  destruct (indexFunc_cases (fun c => Byte.eqb c LF) (b :: td))
    as [[-> _] | (w & c & r & Ew & Hw & Hc & ->)]; [done |].
  apply eqb_LF in Hc. subst c.
  pose proof (len_nonneg w). destruct (len w >=? 0) eqn:E1; [| lia].
  rewrite Ew, take_len_app.
  destruct w as [|b' w].
  { cbn [app] in Ew. injection Ew as -> _. by vm_compute in Hhd. }
  cbn [app] in Ew. injection Ew as <- ->.
  assert (El : len data = len pre + len (b :: w) + 1 + len r).
  { rewrite E at 1. rewrite len_app, len_cons, len_app, !len_cons. lia. }
  pose proof (len_nonneg pre). pose proof (len_nonneg r).
  rewrite len_app, (len_cons LF). split; [| split].
  - rewrite El. rewrite !len_cons in *. lia.
  - destruct (Trim_head b w Hhd) as [t ->]. done.
  - match goal with |- nth ?n _ _ = _ =>
      replace n with (length pre + length (b :: w))%nat
        by (rewrite El; rewrite !len_cons; unfold len; cbn [length]; lia)
    end.
    rewrite E. rewrite app_nth2 by lia.
    replace (length pre + length (b :: w) - length pre)%nat with (length (b :: w)) by lia.
    change (b :: w ++ LF :: r) with ((b :: w) ++ LF :: r).
    rewrite app_nth2 by lia. by rewrite Nat.sub_diag.
Qed.

(** X18.  [LFTcpSplit] never fails.  It asks for more data exactly when
    no line feed follows the leading blanks, at the end of the input too
    (a last line without line feed is never handed over); otherwise it
    hands over a token that is not empty and advances, within the buffer,
    to just past a line feed. *)
Theorem LFTcpSplit_total (data : bytes) (atEOF : bool) :
  (LFTcpSplit data atEOF = NeedMore
   <-> Forall (fun c => Byte.eqb c LF = false) (TrimLeft data))
  /\ match LFTcpSplit data atEOF with
     | NeedMore => True
     | Token advance token =>
         0 < advance <= len data
         /\ token <> []
         /\ nth (Z.to_nat (advance - 1)) data x00 = LF
     | SplitErr _ | Panic => False
     end.
Proof.
  split; [| apply LFTcpSplit_bounds].
  unfold LFTcpSplit. split.
  - destruct (len (TrimLeft data) =? 0) eqn:E0.
    + apply Z.eqb_eq in E0. destruct (TrimLeft data); [constructor |].
      rewrite len_cons in E0. pose proof (len_nonneg l). lia.
    + unfold IndexByte.
      destruct (indexFunc_cases (fun c => Byte.eqb c LF) (TrimLeft data))
        as [[-> Hall] | (w & c & r & Ew & Hw & Hc & ->)]; [done |].
      pose proof (len_nonneg w). destruct (len w >=? 0) eqn:E1; [done | lia].
  - intros Hall. destruct (len (TrimLeft data) =? 0); [done |].
    unfold IndexByte. by rewrite indexFunc_none.
Qed.

Lemma TcpSplit_line_token (pre line rest : bytes) (atEOF : bool) :
  blank pre ->
  Forall (fun c => Byte.eqb c LF = false) line ->
  TcpSplit (pre ++ "<"%byte :: line ++ LF :: rest) atEOF
  = Token (len pre + len ("<"%byte :: line) + 1) (Trim ("<"%byte :: line)).
Proof.
  intros Hpre Hline. unfold TcpSplit.
  rewrite TrimLeft_blank by done. rewrite TrimLeft_id by done.
  rewrite len_app. rewrite (len_cons _ (line ++ _)).
  pose proof (len_nonneg (line ++ LF :: rest)).
  destruct (1 + len (line ++ LF :: rest) =? 0) eqn:E0; [lia |].
  cbn [nth]. change (Byte.eqb "<" "<") with true. cbn match.
  unfold IndexByte.
  change ("<"%byte :: line ++ LF :: rest) with (("<"%byte :: line) ++ LF :: rest).
  rewrite indexFunc_stop; [| by constructor | done].
  pose proof (len_nonneg ("<"%byte :: line)).
  destruct (len ("<"%byte :: line) >=? 0) eqn:E1; [| lia].
  rewrite take_len_app. f_equal. rewrite len_app, (len_cons LF). rewrite !len_cons. lia.
Qed.

(** X17.  On a buffer that holds, after any leading blanks, a line that
    ends with a line feed, [LFTcpSplit] hands over the line with its
    blanks trimmed and advances past the line feed; and so does
    [TcpSplit] when the line starts with [<]. *)
Theorem lf_framing_line (pre : bytes) (b : byte) (line rest : bytes) (atEOF : bool) :
  blank pre -> splitSpaceOrLF b = false ->
  Forall (fun c => Byte.eqb c LF = false) line ->
  LFTcpSplit (pre ++ b :: line ++ LF :: rest) atEOF
  = Token (len pre + len (b :: line) + 1) (Trim (b :: line))
  /\ (b = "<"%byte ->
      TcpSplit (pre ++ b :: line ++ LF :: rest) atEOF
      = Token (len pre + len (b :: line) + 1) (Trim (b :: line))).
Proof.
  intros Hpre Hb Hline. split; [by apply LFTcpSplit_line_token |].
  intros ->. by apply TcpSplit_line_token.
Qed.


Lemma isDigit_not_lt (b : byte) : isDigit b -> Byte.eqb b "<"%byte = false.
Proof.
  intros (d & Hd & _). unfold digitVal in Hd.
  destruct b; vm_compute in Hd; try discriminate; reflexivity.
Qed.

Lemma isDigit_not_SP_LF (b : byte) :
  isDigit b -> (Byte.eqb b SP || Byte.eqb b LF)%bool = false.
Proof.
  intros (d & Hd & _). unfold digitVal in Hd.
  destruct b; vm_compute in Hd; try discriminate; reflexivity.
Qed.

Lemma slice_app (a m r : bytes) :
  slice (a ++ m ++ r) (len a) (len a + len m) = Some m.
Proof.
  unfold slice. pose proof (len_nonneg a). pose proof (len_nonneg m). pose proof (len_nonneg r).
  rewrite !len_app.
  destruct (0 <=? len a) eqn:E1; [| lia].
  destruct (len a <=? len a + len m) eqn:E2; [| lia].
  destruct (len a + len m <=? len a + (len m + len r)) eqn:E3; [| lia].
  cbn [andb]. f_equal.
  replace (Z.to_nat (len a)) with (length a) by (unfold len; lia).
  rewrite drop_app_length.
  replace (Z.to_nat (len a + len m - len a)) with (length m) by (unfold len; lia).
  by rewrite take_app_length.
Qed.

(** X19.  Octet counting: on a buffer that holds, after any leading
    blanks, the decimal length of a message, a space and the message,
    [TcpSplit] hands over the message with its blanks trimmed and advances
    to the end of the message, whatever follows it. *)
Theorem TcpSplit_octet_counting (pre msg rest : bytes) (atEOF : bool) :
  blank pre ->
  len (pre ++ octetFrame msg ++ rest) < 2 ^ 63 ->
  TcpSplit (pre ++ octetFrame msg ++ rest) atEOF
  = Token (len pre + len (octetFrame msg)) (Trim msg).
Proof.
  intros Hpre Hlen. unfold octetFrame in *.
  pose proof (len_nonneg pre). pose proof (len_nonneg msg). pose proof (len_nonneg rest).
  pose proof (len_nonneg (itoa (len msg))).
  assert (Hat : Atoi (itoa (len msg)) = (len msg, None)).
  { apply Atoi_itoa. repeat rewrite ?len_app, ?len_cons in Hlen. lia. }
  destruct (itoa_digits (len msg)) as (ds & Eds & Hne & Hds); [done |].
  rewrite Eds in *. clear Eds.
  destruct ds as [|d ds]; [done |].
  pose proof (Forall_inv Hds) as Hd.
  assert (Hpos : 0 < len (d :: ds)) by (rewrite len_cons; pose proof (len_nonneg ds); lia).
  assert (Hl : len (pre ++ ((d :: ds) ++ SP :: msg) ++ rest)
               = len pre + len (d :: ds) + 1 + len msg + len rest).
  { repeat rewrite ?len_app, ?len_cons. lia. }
  rewrite Hl in Hlen.
  unfold TcpSplit. rewrite Hl. rewrite TrimLeft_blank by done.
  rewrite <- !app_assoc. cbn [app].
  rewrite TrimLeft_id by (by apply isDigit_not_space).
  assert (Hl2 : len (d :: ds ++ SP :: msg ++ rest) = len (d :: ds) + 1 + len msg + len rest).
  { repeat rewrite ?len_app, ?len_cons. lia. }
  rewrite Hl2.
  destruct (len (d :: ds) + 1 + len msg + len rest =? 0) eqn:E0; [lia |].
  cbn [nth]. rewrite (isDigit_not_lt d Hd).
  unfold IndexAny.
  change (d :: ds ++ SP :: msg ++ rest) with ((d :: ds) ++ SP :: msg ++ rest).
  rewrite indexFunc_stop;
    [| eapply Forall_impl; [exact Hds | apply isDigit_not_SP_LF] | done].
  destruct (len (d :: ds) <=? 0) eqn:E1; [lia |].
  rewrite take_len_app. rewrite Trim_word by (by apply digits_word). rewrite Hat.
  unfold add64. rewrite !wrap64_small by lia.
  destruct (len pre + len (d :: ds) + 1 + len msg + len rest >=?
            len pre + len (d :: ds) + 1 + len msg + len rest
            - (len (d :: ds) + 1 + len msg + len rest) + len (d :: ds) + 1 + len msg) eqn:E2;
    [| lia].
  replace ((d :: ds) ++ SP :: msg ++ rest) with (((d :: ds) ++ [SP]) ++ msg ++ rest)
    by (by rewrite <- app_assoc).
  replace (len (d :: ds) + 1) with (len ((d :: ds) ++ [SP])) by (rewrite len_app; reflexivity).
  rewrite slice_app. f_equal. repeat rewrite ?len_app, ?len_cons.
  change (len (@nil byte)) with 0. lia.
Qed.


Lemma Atoi_itoa_neg (k : Z) : 0 < k <= 2 ^ 63 -> Atoi (itoa (- k)) = (- k, None).
Proof.
  intros Hk. unfold itoa. destruct (- k <? 0) eqn:Hneg; [| lia].
  set (n := Z.abs_N (- k)).
  assert (Hn : Z.of_N n = k) by (unfold n; lia).
  destruct (digitsFrom_app (S (N.size_nat n)) n []) as (ds & E & Hne & _); [lia |].
  rewrite app_nil_r in E.
  assert (Hp : parseUintFrom ds 0 = (k, None)).
  { rewrite <- E. rewrite parseUintFrom_digitsFrom.
    - cbn [parseUintFrom]. by rewrite Hn.
    - apply size_nat_pow10.
    - rewrite Hn. unfold maxUint64.
      assert (2 ^ 63 < 2 ^ 64 - 1) by (vm_compute; done). lia. }
  rewrite E. unfold Atoi.
  change (Byte.eqb "-" "-") with true. change (Byte.eqb "-" "+") with false.
  cbn [orb negb andb]. unfold ParseUint. destruct ds as [|d ds]; [done |].
  rewrite Hp. destruct (k >? 2 ^ 63) eqn:Hgt; [lia | reflexivity].
Qed.

Lemma wrap64_spec (z : Z) :
  exists k, wrap64 z = z + k * 2 ^ 64 /\ - 2 ^ 63 <= wrap64 z < 2 ^ 63.
Proof.
  unfold wrap64.
  change (2 ^ 63) with 9223372036854775808.
  change (2 ^ 64) with 18446744073709551616.
  exists (- ((z + 9223372036854775808) / 18446744073709551616)).
  pose proof (Z.div_mod (z + 9223372036854775808) 18446744073709551616 ltac:(lia)) as Hdm.
  pose proof (Z.mod_pos_bound (z + 9223372036854775808) 18446744073709551616 ltac:(lia)) as Hb.
  generalize dependent ((z + 9223372036854775808) / 18446744073709551616).
  generalize dependent ((z + 9223372036854775808) mod 18446744073709551616).
  intros. lia.
Qed.

(** X20.  A negative octet count makes [TcpSplit] panic: the test
    [len(data) >= advance] passes and the slice expression has its upper
    bound below its lower bound. *)
Theorem TcpSplit_negative_count (pre rest : bytes) (k : Z) (atEOF : bool) :
  blank pre -> 0 < k <= 2 ^ 63 ->
  len (pre ++ itoa (- k) ++ SP :: rest) < 2 ^ 63 ->
  TcpSplit (pre ++ itoa (- k) ++ SP :: rest) atEOF = Panic.
Proof.
  intros Hpre Hk Hlen.
  pose proof (Atoi_itoa_neg k Hk) as Hat.
  assert (Hit : exists ds, itoa (- k) = "-"%byte :: ds /\ Forall isDigit ds).
  { unfold itoa. destruct (- k <? 0) eqn:Hneg; [| lia].
    destruct (digitsFrom_app (S (N.size_nat (Z.abs_N (- k)))) (Z.abs_N (- k)) [])
      as (ds & E & _ & Hds); [lia |].
    rewrite app_nil_r in E. exists ds. by rewrite E. }
  destruct Hit as (ds & Eit & Hds). rewrite Eit in *. clear Eit.
  set (cnt := "-"%byte :: ds) in *.
  assert (Hcnt : Forall (fun b => (Byte.eqb b SP || Byte.eqb b LF)%bool = false) cnt).
  { constructor; [done |]. eapply Forall_impl; [exact Hds | apply isDigit_not_SP_LF]. }
  assert (Hw : word cnt) by (constructor; [done | by apply digits_word]).
  assert (Hpos : 0 < len cnt) by (unfold cnt; rewrite len_cons; pose proof (len_nonneg ds); lia).
  pose proof (len_nonneg pre). pose proof (len_nonneg rest).
  assert (Hl : len (pre ++ cnt ++ SP :: rest) = len pre + len cnt + 1 + len rest).
  { repeat rewrite ?len_app, ?len_cons. lia. }
  assert (Hl2 : len (cnt ++ SP :: rest) = len cnt + 1 + len rest).
  { repeat rewrite ?len_app, ?len_cons. lia. }
  rewrite Hl in Hlen.
  assert (Htl : TrimLeft (cnt ++ SP :: rest) = cnt ++ SP :: rest).
  { unfold cnt. cbn [app]. by apply TrimLeft_id. }
  unfold TcpSplit. rewrite Hl. rewrite TrimLeft_blank by done. rewrite Htl, Hl2.
  destruct (len cnt + 1 + len rest =? 0) eqn:E0; [lia |].
  replace (nth 0 (cnt ++ SP :: rest) x00) with ("-"%byte) by reflexivity.
  change (Byte.eqb "-" "<") with false. cbn match.
  unfold IndexAny. rewrite indexFunc_stop by done.
  destruct (len cnt <=? 0) eqn:E1; [lia |].
  rewrite take_len_app, Trim_word by done. rewrite Hat.
  unfold add64. rewrite !wrap64_small by lia.
  destruct (len pre + len cnt + 1 + len rest >=?
            len pre + len cnt + 1 + len rest - (len cnt + 1 + len rest) + len cnt + 1 + - k)
    eqn:E2; [| lia].
  unfold slice.
  destruct (len cnt + 1 <=? len cnt + 1 + - k) eqn:E3; [lia |].
  by rewrite andb_false_r.
Qed.

(** X21.  Whenever [TcpSplit] hands over a token, its advance count is
    positive and at most the length of the buffer. *)
Theorem TcpSplit_token_bounds (data : bytes) (atEOF : bool) (advance : Z) (token : bytes) :
  len data < 2 ^ 63 ->
  TcpSplit data atEOF = Token advance token ->
  0 < advance <= len data.
Proof.
  intros Hlen. unfold TcpSplit.
  destruct (TrimLeft_split data) as (pre & Hpre & E & Hhd).
  pose proof (len_nonneg pre).
  assert (El : len data = len pre + len (TrimLeft data)) by (rewrite E at 1; apply len_app).
  destruct (len (TrimLeft data) =? 0) eqn:E0; [done |].
  destruct (Byte.eqb (nth 0 (TrimLeft data) x00) "<"%byte).
  - unfold IndexByte.
    destruct (indexFunc_cases (fun c => Byte.eqb c LF) (TrimLeft data))
      as [[-> _] | (w & c & r & Ew & Hw & Hc & ->)]; [done |].
    pose proof (len_nonneg w). pose proof (len_nonneg r).
    destruct (len w >=? 0) eqn:E1; [| lia].
    intros [= <- _]. rewrite Ew in El. rewrite Ew.
    repeat rewrite ?len_app, ?len_cons in *. lia.
  - unfold IndexAny.
    destruct (indexFunc_cases (fun b => (Byte.eqb b SP || Byte.eqb b LF)%bool) (TrimLeft data))
      as [[-> _] | (w & c & r & Ew & Hw & Hc & ->)]; [done |].
    pose proof (len_nonneg w). pose proof (len_nonneg r).
    destruct (len w <=? 0) eqn:E1; [done |].
    pose proof (Atoi_range (Trim (take (Z.to_nat (len w)) (TrimLeft data)))) as Hr.
    destruct (Atoi _) as [datalen [err|]]; [done |]. cbn [fst] in Hr.
    assert (Etd : len (TrimLeft data) = len w + 1 + len r).
    { rewrite Ew. repeat rewrite ?len_app, ?len_cons. lia. }
    unfold add64.
    destruct (wrap64_spec (len data - len (TrimLeft data) + len w + 1 + datalen))
      as (k1 & Ek1 & Hb1).
    destruct (wrap64_spec (len w + 1 + datalen)) as (k2 & Ek2 & Hb2).
    destruct (len data >=? _) eqn:E2; [| done].
    unfold slice.
    destruct (0 <=? len w + 1) eqn:E3; [| lia].
    destruct (len w + 1 <=? wrap64 (len w + 1 + datalen)) eqn:E4; [| done].
    destruct (wrap64 (len w + 1 + datalen) <=? len (TrimLeft data)) eqn:E5; [| done].
    cbn [andb]. intros [= <- _].
    change (2 ^ 63) with 9223372036854775808 in *.
    change (2 ^ 64) with 18446744073709551616 in *.
    lia.
Qed.

End TcpFacts.

(** ** The advance counts of [RelpSplit] *)

Section SplitterMoreFacts.

Import Wire.

Lemma fieldsFrom_size (f : byte -> bool) (s : bytes) : forall cur : bytes,
  foldr (fun x acc => len x + 1 + acc) 0 (fieldsFrom f s cur) <= len s + len cur + 1.
Proof.
  induction s as [|b s IH]; intros cur; cbn [fieldsFrom].
  - destruct cur as [|c cur']; cbn [foldr].
    + change (len (@nil byte)) with 0. lia.
    + unfold len. rewrite length_rev. cbn [length]. lia.
  - rewrite len_cons. destruct (f b).
    + destruct cur as [|c cur']; cbn [foldr].
      * specialize (IH []). change (len (@nil byte)) with 0 in *. lia.
      * specialize (IH []). change (len (@nil byte)) with 0 in IH.
        unfold len in *. rewrite length_rev. cbn [length] in *. lia.
    + specialize (IH (b :: cur)). rewrite len_cons in IH. lia.
Qed.

(** The token [RelpSplit] hands over ends within the buffer. *)
Lemma RelpSplit_advance_bounds (data : bytes) (atEOF : bool) (advance : Z) (token : bytes) :
  RelpSplit data atEOF = Token advance token -> 0 <= advance <= len data.
Proof.
  unfold RelpSplit.
  pose proof (TrimLeft_len data) as Htl. pose proof (len_nonneg (TrimLeft data)) as Htd.
  destruct (len (TrimLeft data) =? 0); [done |].
  pose proof (fieldsFrom_size splitSpaceOrLF (TrimLeft data) []) as Hsz.
  fold (FieldsFunc (TrimLeft data) splitSpaceOrLF) in Hsz.
  change (len (@nil byte)) with 0 in Hsz.
  destruct (FieldsFunc (TrimLeft data) splitSpaceOrLF) as [|t1 [|c [|t3 rest]]];
    try (by destruct (_ <? 3)).
  destruct (len (t1 :: c :: t3 :: rest) <? 3); [done |].
  cbn [foldr] in Hsz.
  pose proof (len_nonneg t1). pose proof (len_nonneg c). pose proof (len_nonneg t3).
  assert (Hts : len (t1 ++ SP :: c ++ SP :: t3) = len t1 + len c + len t3 + 2).
  { repeat rewrite ?len_app, ?len_cons. lia. }
  rewrite Hts.
  destruct ((len (t1 :: c :: t3 :: rest) =? 3)
            && (len data <? len data - len (TrimLeft data) + (len t1 + len c + len t3 + 2) + 1))
    eqn:Eg; [done |].
  destruct (Atoi t1) as [? [e1|]]; [done |].
  destruct (Atoi t3) as [datalen [e3|]]; [done |].
  destruct (datalen =? 0).
  - intros [= <- _]. split; [lia |].
    apply andb_false_iff in Eg as [Eg | Eg].
    + destruct rest as [|t4 rest]; [by rewrite !len_cons in Eg |].
      cbn [foldr] in Hsz. pose proof (len_nonneg t4).
      assert (0 <= foldr (fun x acc => len x + 1 + acc) 0 rest).
      { clear. induction rest as [|x rest IH]; cbn [foldr]; [done |].
        pose proof (len_nonneg x). lia. }
      lia.
    + apply Z.ltb_ge in Eg. lia.
  - destruct (len data >=? _) eqn:E1; [| done].
    destruct (_ <? 0) eqn:E2; [done |].
    intros [= <- _]. lia.
Qed.

(** X1.  Whatever the buffer, a token that [RelpSplit] hands over ends
    within it: its advance count lies between 0 and the length of the
    buffer.  So a [bufio.Scanner] that runs [RelpSplit] never stops on
    [ErrNegativeAdvance] or [ErrAdvanceTooFar], whatever the input and the
    sizes of the reads. *)
Theorem Scan_never_advance_error
    (fuel max : nat) (buf inp : bytes) (reads : list nat) (eof : bool) :
  (forall advance token,
      RelpSplit buf eof = Token advance token -> 0 <= advance <= len buf)
  /\ snd (Scan fuel max buf inp reads eof) <> ErrNegativeAdvance
  /\ snd (Scan fuel max buf inp reads eof) <> ErrAdvanceTooFar.
Proof.
  split; [intros advance token; apply RelpSplit_advance_bounds |].
  revert buf inp reads eof.
  induction fuel as [|fuel IH]; intros buf inp reads eof; [done |].
  cbn [Scan].
  set (more := if eof then _ else _).
  assert (Hmore : snd more <> ErrNegativeAdvance /\ snd more <> ErrAdvanceTooFar).
  { unfold more. destruct eof; [done |]. destruct (max <=? length buf)%nat; [done |].
    destruct inp; apply IH. }
  destruct (negb (len buf =? 0) || eof); [| done].
  pose proof (RelpSplit_advance_bounds buf eof) as Hb.
  destruct (RelpSplit buf eof) as [|advance token|e|]; try done.
  destruct (Hb advance token eq_refl) as [H0 H1].
  destruct (advance <? 0) eqn:E0; [lia |].
  destruct (advance >? len buf) eqn:E1; [lia |].
  pose proof (IH (drop (Z.to_nat advance) buf) inp reads eof) as H.
  by destruct (Scan fuel max _ inp reads eof).
Qed.

End SplitterMoreFacts.

(** ** The trace of the connection handler *)

Section HandlerMoreFacts.

Context (connID : N) (config : conf.SyslogConfig) (ci : ConnInfo).

Lemma receivedTxnrs_app (evs1 evs2 : list Handler.Event) :
  receivedTxnrs (evs1 ++ evs2) = receivedTxnrs evs1 ++ receivedTxnrs evs2.
Proof. apply omap_app. Qed.

Lemma receivedTxnrs_deadline : receivedTxnrs (deadline config) = [].
Proof. unfold deadline. by destruct (conf.Timeout config >? 0). Qed.

Lemma rawQueuePuts_deadline : rawQueuePuts (deadline config) = [].
Proof. unfold deadline. by destruct (conf.Timeout config >? 0). Qed.

Lemma poolGets_app (evs1 evs2 : list Handler.Event) :
  poolGets (evs1 ++ evs2) = (poolGets evs1 + poolGets evs2)%nat.
Proof. unfold poolGets. by rewrite List.filter_app, length_app. Qed.

Lemma poolGets_deadline : poolGets (deadline config) = 0%nat.
Proof. unfold deadline. by destruct (conf.Timeout config >? 0). Qed.

(** X3.  Whenever an iteration of the loop of [HandleConnection] returns,
    it has refreshed the read deadline (when there is a timeout) and
    incremented the protocol-error counter of the client exactly once,
    and has done nothing else: nothing was written, rented, queued or
    passed to the forwarder. *)
Theorem handleFrame_return_counts_one_error
    (rented : model.RawTcpMessage) (st : HandlerState) (line : bytes) (evs : list Handler.Event) :
  handleFrame connID config ci rented st line = Return evs ->
  evs = deadline config ++ [RelpProtocolErrorsInc (client ci)]
  /\ protocolErrors (client ci) evs = 1%nat
  /\ List.filter isCommandEvent evs = [].
Proof.
  intros H.
  assert (E : evs = deadline config ++ [RelpProtocolErrorsInc (client ci)]).
  { revert H. unfold handleFrame.
    destruct (_ <=? previous st); [congruence |].
    destruct (SplitN line SP 4) as [|s0 [|s1 [|s2 rest]]]; try discriminate.
    destruct (payload _ rest) as [data|]; [| congruence].
    repeat match goal with
           | |- context [bool_decide ?P] => destruct (bool_decide P)
           | |- context [relpIsOpen st] => destruct (relpIsOpen st)
           | |- context [len data =? 0] => destruct (len data =? 0)
           end; cbn [negb]; congruence. }
  subst evs. split; [done |]. split; [apply protocolErrors_deadline | apply commandEvents_deadline].
Qed.

Lemma handleFrame_trace (rented : model.RawTcpMessage) (st : HandlerState) (line : bytes) :
  match handleFrame connID config ci rented st line with
  | Continue st' evs =>
      previous st < previous st'
      /\ (receivedTxnrs evs = [] \/ receivedTxnrs evs = [previous st'])
      /\ poolGets evs = length (rawQueuePuts evs)
      /\ (relpIsOpen st = false ->
          relpIsOpen st' = true /\ receivedTxnrs evs = [] /\ rawQueuePuts evs = [])
  | Return evs | IndexPanic evs =>
      receivedTxnrs evs = [] /\ poolGets evs = length (rawQueuePuts evs)
  end.
Proof.
  unfold handleFrame.
  set (txnr := fst (Atoi (nth 0 (SplitN line SP 4) []))) in *.
  assert (Hpre : forall ev,
             receivedTxnrs (deadline config ++ [RelpProtocolErrorsInc ev]) = []
             /\ poolGets (deadline config ++ [RelpProtocolErrorsInc ev])
                = length (rawQueuePuts (deadline config ++ [RelpProtocolErrorsInc ev]))).
  { intros ev. unfold rawQueuePuts.
    rewrite receivedTxnrs_app, poolGets_app, omap_app, length_app.
    fold (rawQueuePuts (deadline config)).
    rewrite receivedTxnrs_deadline, poolGets_deadline, rawQueuePuts_deadline. done. }
  destruct (txnr <=? previous st) eqn:Hle; [apply Hpre |].
  apply Z.leb_gt in Hle.
  destruct (SplitN line SP 4) as [|s0 [|s1 [|s2 rest]]];
    try (split; [apply receivedTxnrs_deadline |];
         by rewrite poolGets_deadline, rawQueuePuts_deadline).
  destruct (payload _ rest) as [data|]; [| apply Hpre].
  repeat match goal with
         | |- context [bool_decide ?P] => destruct (bool_decide P)
         | |- context [relpIsOpen st] => destruct (relpIsOpen st)
         | |- context [len data =? 0] => destruct (len data =? 0)
         end; cbn [negb]; try apply Hpre; cbn [previous relpIsOpen];
    unfold rawQueuePuts;
    rewrite receivedTxnrs_app, poolGets_app, omap_app, length_app;
    fold (rawQueuePuts (deadline config));
    rewrite receivedTxnrs_deadline, poolGets_deadline, rawQueuePuts_deadline;
    cbn; (split; [lia |]); (split; [tauto |]); (split; [done |]); done.
Qed.

(** X4.  Along a connection, the transaction numbers that the handler
    passes to [forwarder.Received] are strictly increasing, and all of
    them are above the last number seen before. *)
Theorem handleFrames_received_increasing
    (st : HandlerState) (frames : list (bytes * model.RawTcpMessage)) :
  let evs := handleFrames connID config ci st frames in
  StronglySorted Z.lt (receivedTxnrs evs)
  /\ Forall (fun t => previous st < t) (receivedTxnrs evs).
Proof.
  cbv zeta. revert st. induction frames as [|[line rented] frames IH]; intros st.
  - cbn. split; constructor.
  - cbn [handleFrames]. pose proof (handleFrame_trace rented st line) as H.
    destruct (handleFrame connID config ci rented st line) as [st' evs | evs | evs].
    + destruct H as (Hlt & Hrec & _). destruct (IH st') as [Hs Hb].
      rewrite receivedTxnrs_app.
      assert (Hb' : Forall (fun t => previous st < t)
                      (receivedTxnrs (handleFrames connID config ci st' frames))).
      { eapply Forall_impl; [exact Hb |]. cbn. intros; lia. }
      destruct Hrec as [-> | ->]; cbn [app]; [done |].
      split; constructor; done.
    + destruct H as [-> _]. split; constructor.
    + destruct H as [-> _]. split; constructor.
Qed.

(** X5.  Along a connection, the handler takes as many buffers from the
    pool as it puts in the raw ring: a buffer it rents is always queued. *)
Theorem handleFrames_rents_what_it_queues
    (st : HandlerState) (frames : list (bytes * model.RawTcpMessage)) :
  poolGets (handleFrames connID config ci st frames)
  = length (rawQueuePuts (handleFrames connID config ci st frames)).
Proof.
  revert st. induction frames as [|[line rented] frames IH]; intros st; [done |].
  cbn [handleFrames]. pose proof (handleFrame_trace rented st line) as H.
  destruct (handleFrame connID config ci rented st line) as [st' evs | evs | evs].
  - destruct H as (_ & _ & Hp & _). unfold rawQueuePuts in *.
    rewrite poolGets_app, omap_app, length_app, Hp. f_equal. apply IH.
  - by destruct H.
  - by destruct H.
Qed.

(** X6.  While the session is not open, the only frame after which the
    loop goes on is an [open]: it opens the session, and nothing is passed
    to [forwarder.Received] nor put in the raw ring. *)
Theorem handleFrame_closed_session
    (rented : model.RawTcpMessage) (st st' : HandlerState) (line : bytes)
    (evs : list Handler.Event) :
  relpIsOpen st = false ->
  handleFrame connID config ci rented st line = Continue st' evs ->
  relpIsOpen st' = true
  /\ nth 1 (SplitN line SP 4) [] = B "open"
  /\ receivedTxnrs evs = [] /\ rawQueuePuts evs = [].
Proof.
  intros Hopen H. pose proof (handleFrame_trace rented st line) as Ht.
  rewrite H in Ht. destruct Ht as (_ & _ & _ & Ht). destruct (Ht Hopen) as (? & ? & ?).
  repeat split; try done.
  revert H. unfold handleFrame. rewrite Hopen.
  destruct (_ <=? previous st); [discriminate |].
  destruct (SplitN line SP 4) as [|s0 [|s1 [|s2 rest]]]; try discriminate.
  destruct (payload _ rest) as [data|]; [| discriminate].
  destruct (bool_decide (s1 = B "open")) eqn:E; [by apply bool_decide_eq_true_1 in E |].
  repeat match goal with
         | |- context [bool_decide ?P] => destruct (bool_decide P)
         end; cbn [negb]; discriminate.
Qed.

End HandlerMoreFacts.

(** ** Header fields separated by line feeds *)

Section HeaderSeparators.

Lemma parseUintFrom_itoa (z : Z) : 0 <= z < 2 ^ 63 -> parseUintFrom (itoa z) 0 = (z, None).
Proof.
  intros Hz. unfold itoa. destruct (z <? 0) eqn:Hneg; [lia |].
  rewrite parseUintFrom_digitsFrom.
  - cbn [parseUintFrom]. f_equal. lia.
  - apply size_nat_pow10.
  - unfold maxUint64. assert (2 ^ 63 < 2 ^ 64 - 1) by (vm_compute; done). lia.
Qed.

Lemma parseUintFrom_stops (ds : bytes) (c : byte) (r : bytes) : forall (a n : Z),
  parseUintFrom ds a = (n, None) -> digitVal c = None ->
  parseUintFrom (ds ++ c :: r) a = (0, Some ErrSyntax).
Proof.
  induction ds as [|d ds IH]; intros a n Hp Hc; cbn [app parseUintFrom] in *.
  - by rewrite Hc.
  - destruct (digitVal d) as [v|]; [| done].
    destruct (a >=? maxUint64 / 10 + 1); [done |].
    destruct (a * 10 + v >? maxUint64); [done |].
    by apply (IH _ n).
Qed.

Lemma Atoi_number_then_LF (z : Z) (r : bytes) :
  0 <= z < 2 ^ 63 -> Atoi (itoa z ++ LF :: r) = (0, Some ErrSyntax).
Proof.
  intros Hz. pose proof (parseUintFrom_itoa z Hz) as Hp.
  destruct (itoa_digits z) as (ds & E & Hne & Hds); [lia |].
  rewrite E in *. destruct ds as [|d ds]; [done |].
  unfold Atoi. cbn [app].
  destruct (isDigit_not_sign d (Forall_inv Hds)) as [-> ->]. cbn [orb].
  unfold ParseUint.
  change (d :: ds ++ LF :: r) with ((d :: ds) ++ LF :: r).
  by rewrite (parseUintFrom_stops (d :: ds) LF r 0 z Hp).
Qed.

Lemma word_app (x y : bytes) : word x -> word y -> word (x ++ y).
Proof. intros Hx Hy. apply Forall_app. by split. Qed.

Lemma SplitN_no_SP (s : bytes) (n : nat) :
  Forall (fun b => Byte.eqb b SP = false) s -> SplitN s SP (S n) = [s].
Proof. intros H. destruct n; [done |]. cbn [SplitN]. by rewrite cutAt_none. Qed.

(** X2.  [RelpSplit] separates the fields of a header at spaces, carriage
    returns and line feeds, [HandleConnection] at spaces only.  A first
    frame whose fields are separated by line feeds (a transaction number
    that fits Go's [int], a command, and a payload without blanks
    announced with its length) comes out of [RelpSplit] as one token; the
    handler finds no space in it, reads the transaction number 0 from it,
    and indexes [splits[1]] out of range. *)
Theorem lf_separated_header_panics
    (connID : N) (config : conf.SyslogConfig) (ci : ConnInfo) (rented : model.RawTcpMessage)
    (txnr : Z) (command body : bytes) (atEOF : bool) :
  0 <= txnr < 2 ^ 63 ->
  command <> [] -> word command ->
  body <> [] -> word body ->
  len (lfFrame txnr command body) + 1 < 2 ^ 63 ->
  RelpSplit (lfFrame txnr command body ++ [LF]) atEOF
  = Token (len (lfFrame txnr command body) + 1) (lfFrame txnr command body)
  /\ handleFrame connID config ci rented initHandler (lfFrame txnr command body)
     = IndexPanic (deadline config).
Proof.
  intros Ht Hc Hwc Hp Hwp Hlen.
  pose proof (len_nonneg body) as Hn0.
  assert (Hn : 0 < len body).
  { destruct body; [done |]. rewrite len_cons. pose proof (len_nonneg body). lia. }
  assert (Hfr : lfFrame txnr command body
                = itoa txnr ++ LF :: command ++ LF :: itoa (len body) ++ LF :: body)
    by reflexivity.
  assert (Hn63 : len body + 1 < 2 ^ 63).
  { rewrite Hfr in Hlen. repeat rewrite ?len_app, ?len_cons in Hlen.
    pose proof (len_nonneg (itoa txnr)). pose proof (len_nonneg command).
    pose proof (len_nonneg (itoa (len body))). lia. }
  destruct (itoa_digits txnr) as (t1 & E1 & N1 & D1); [lia |].
  destruct (itoa_digits (len body)) as (t3 & E3 & N3 & D3); [lia |].
  pose proof (Atoi_itoa txnr Ht) as A1.
  pose proof (Atoi_itoa (len body) ltac:(lia)) as A3.
  pose proof (Atoi_number_then_LF txnr
                (command ++ LF :: itoa (len body) ++ LF :: body) Ht) as A0.
  rewrite <- Hfr in A0. rewrite E1, E3 in *. clear E1 E3.
  assert (W1 : word t1) by (by apply digits_word).
  assert (W3 : word t3) by (by apply digits_word).
  split.
  - (* the splitter *)
    destruct t1 as [|a y]; [done |].
    assert (Ha : splitSpaceOrLF a = false) by (by apply Forall_inv in W1).
    destruct (rev body) as [|b q] eqn:Er.
    { apply (f_equal (@rev byte)) in Er. rewrite rev_involutive in Er. done. }
    apply (f_equal (@rev byte)) in Er. rewrite rev_involutive in Er. cbn [rev] in Er.
    assert (Hb : splitSpaceOrLF b = false).
    { rewrite Er in Hwp. apply Forall_app in Hwp as [_ Hwp]. by apply Forall_inv in Hwp. }
    assert (Htl : TrimLeft (lfFrame txnr command body ++ [LF])
                  = lfFrame txnr command body ++ [LF]).
    { rewrite Hfr. cbn [app]. by apply TrimLeft_id. }
    assert (Hff : FieldsFunc (TrimLeft (lfFrame txnr command body ++ [LF])) splitSpaceOrLF
                  = (a :: y) :: command :: t3 :: [body]).
    { rewrite Htl.
      replace (lfFrame txnr command body ++ [LF])
        with ((a :: y) ++ LF :: command ++ LF :: t3 ++ LF :: body ++ [LF])
        by (rewrite Hfr; repeat (rewrite <- app_assoc; cbn [app]); reflexivity).
      rewrite FieldsFunc_word_sep by done.
      rewrite FieldsFunc_word_sep by done.
      rewrite FieldsFunc_word_sep by done.
      rewrite FieldsFunc_word_sep by done. done. }
    rewrite (RelpSplit_tokens _ atEOF _ _ _ _ Hff). cbv zeta.
    rewrite Htl, A1, A3.
    assert (Hl4 : (len [a :: y; command; t3; body] =? 3) = false) by reflexivity.
    rewrite Hl4. cbn [andb].
    destruct (len body =? 0) eqn:E0; [lia |].
    assert (Hadv : len (lfFrame txnr command body ++ [LF])
                   = len (lfFrame txnr command body) + 1).
    { rewrite len_app. reflexivity. }
    assert (Htok : len ((a :: y) ++ SP :: command ++ SP :: t3) + 1 + (len body + 1)
                   = len (lfFrame txnr command body) + 1).
    { rewrite Hfr. repeat rewrite ?len_app, ?len_cons. lia. }
    pose proof (len_nonneg (lfFrame txnr command body)).
    unfold add64. rewrite (wrap64_small (len body + 1)) by lia.
    replace (len (lfFrame txnr command body ++ [LF])
             - len (lfFrame txnr command body ++ [LF])
             + len ((a :: y) ++ SP :: command ++ SP :: t3) + 1 + (len body + 1))
      with (len (lfFrame txnr command body) + 1) by lia.
    rewrite wrap64_small by lia. rewrite Hadv.
    destruct (len (lfFrame txnr command body) + 1 >=?
              len (lfFrame txnr command body) + 1) eqn:E1; [| lia].
    destruct (len (lfFrame txnr command body) + 1 <? 0) eqn:E2; [lia |].
    f_equal. rewrite <- Hadv. rewrite <- (app_nil_r (lfFrame txnr command body ++ [LF])) at 2.
    rewrite take_len_app.
    assert (Hx : exists x, lfFrame txnr command body = (a :: x) ++ [b]).
    { rewrite Hfr, Er. exists (y ++ LF :: command ++ LF :: t3 ++ LF :: rev q).
      cbn [app]. f_equal. rewrite <- !app_assoc. cbn [app]. do 2 f_equal.
      rewrite <- !app_assoc. cbn [app]. do 2 f_equal. by rewrite <- app_assoc. }
    destruct Hx as [x ->]. by apply (Trim_content (a :: x) a b x).
  - (* the handler *)
    unfold handleFrame.
    assert (Hsp : Forall (fun b => Byte.eqb b SP = false) (lfFrame txnr command body)).
    { rewrite Hfr.
      apply Forall_app; split; [by apply word_no_SP |]. constructor; [done |].
      apply Forall_app; split; [by apply word_no_SP |]. constructor; [done |].
      apply Forall_app; split; [by apply word_no_SP |]. constructor; [done |].
      by apply word_no_SP. }
    rewrite SplitN_no_SP by done. cbn [nth]. rewrite A0. cbn [fst previous initHandler].
    reflexivity.
Qed.

End HeaderSeparators.

(** ** Removing connections from the ack forwarder *)

Section AckMoreFacts.

(** The three maps of the forwarder after [RemoveConn]. *)
Lemma RemoveConn_maps (c : N) (f : ackForwarder) :
  succ (RemoveConn c f)
  = match succ f !! c with
    | Some (Some _) => delete c (succ f)
    | _ => succ f
    end
  /\ fail (RemoveConn c f)
     = (let m := match fail f !! c with
                 | Some (Some _) => delete c (fail f)
                 | _ => fail f
                 end in
        match comm f !! c with
        | Some (Some _) => <[c := None]> m
        | _ => m
        end)
  /\ comm (RemoveConn c f)
     = match comm f !! c with
       | Some (Some _) => delete c (comm f)
       | _ => comm f
       end
  /\ next (RemoveConn c f) = next f.
Proof.
  unfold RemoveConn.
  set (f1 := match succ f !! c with Some (Some p) => _ | _ => f end).
  assert (H1 : succ f1 = match succ f !! c with
                         | Some (Some _) => delete c (succ f) | _ => succ f end
                /\ fail f1 = fail f /\ comm f1 = comm f /\ next f1 = next f).
  { unfold f1. destruct (succ f !! c) as [[p|]|]; try done.
    destruct (withQueue_maps p q_Dispose f) as (E1 & E2 & E3 & E4).
    cbn. rewrite E1, E2, E3, E4. by rewrite delete_insert_eq. }
  destruct H1 as (S1 & F1 & C1 & N1).
  set (f2 := match fail f1 !! c with Some (Some p) => _ | _ => f1 end).
  assert (H2 : succ f2 = succ f1
               /\ fail f2 = match fail f !! c with
                            | Some (Some _) => delete c (fail f) | _ => fail f end
               /\ comm f2 = comm f1 /\ next f2 = next f1).
  { unfold f2. rewrite F1. destruct (fail f !! c) as [[p|]|]; try done.
    destruct (withQueue_maps p q_Dispose f1) as (E1 & E2 & E3 & E4).
    cbn. rewrite E1, E2, E3, E4, F1. by rewrite delete_insert_eq. }
  destruct H2 as (S2 & F2 & C2 & N2).
  rewrite C2, C1. destruct (comm f !! c) as [[h|]|]; cbn;
    rewrite ?S2, ?S1, ?F2, ?C2, ?C1, ?N2, ?N1; done.
Qed.

Lemma RemoveConn_nil (c : N) (f : ackForwarder) :
  (succ (RemoveConn c f) !! c = None \/ succ (RemoveConn c f) !! c = Some None)
  /\ (fail (RemoveConn c f) !! c = None \/ fail (RemoveConn c f) !! c = Some None)
  /\ (comm (RemoveConn c f) !! c = None \/ comm (RemoveConn c f) !! c = Some None).
Proof.
  destruct (RemoveConn_maps c f) as (-> & -> & -> & _). cbv zeta.
  split; [| split].
  - destruct (succ f !! c) as [[p|]|] eqn:E; rewrite ?lookup_delete_eq, ?E; tauto.
  - destruct (comm f !! c) as [[h|]|]; rewrite ?lookup_insert_eq; try tauto;
      destruct (fail f !! c) as [[p|]|] eqn:E; rewrite ?lookup_delete_eq, ?E; tauto.
  - destruct (comm f !! c) as [[h|]|] eqn:E; rewrite ?lookup_delete_eq, ?E; tauto.
Qed.

Lemma RemoveConn_twice (c : N) (f : ackForwarder) :
  RemoveConn c (RemoveConn c f) = RemoveConn c f.
Proof.
  destruct (RemoveConn_nil c f) as (Hs & Hf & Hc).
  set (f' := RemoveConn c f) in *. unfold RemoveConn.
  destruct Hs as [-> | ->], Hf as [-> | ->], Hc as [-> | ->]; done.
Qed.

(** X8.  After [RemoveConn(connID)], whatever the forwarder held, every
    operation on that connection is void: [Received], [Committed],
    [ForwardSucc] and [ForwardFail] change nothing, [GetSucc], [GetFail]
    and [NextToCommit] return -1, [Wait] returns false at once, and
    removing the connection again changes nothing. *)
Theorem RemoveConn_makes_connection_inert (c : N) (f : ackForwarder) (txnr : Z) :
  let f' := RemoveConn c f in
  Received c txnr f' = f'
  /\ Committed c txnr f' = f'
  /\ ForwardSucc c txnr f' = f'
  /\ ForwardFail c txnr f' = f'
  /\ GetSucc c f' = (-1, f')
  /\ GetFail c f' = (-1, f')
  /\ NextToCommit c f' = -1
  /\ Wait c f' = Some false
  /\ RemoveConn c f' = f'.
Proof.
  cbv zeta. pose proof (RemoveConn_twice c f) as Htwice.
  destruct (RemoveConn_nil c f) as (Hs & Hf & Hc).
  unfold Received, Committed, ForwardSucc, ForwardFail, GetSucc, GetFail, getFrom,
    NextToCommit, Wait, WaitPtrs.
  destruct Hs as [-> | ->], Hf as [-> | ->], Hc as [-> | ->]; done.
Qed.

Lemma RemoveConn_succ_other (c c' : N) (f : ackForwarder) :
  (succ f !! c = None \/ succ f !! c = Some None) ->
  succ (RemoveConn c' f) !! c = None \/ succ (RemoveConn c' f) !! c = Some None.
Proof.
  intros H. destruct (RemoveConn_maps c' f) as (-> & _).
  destruct (succ f !! c') as [[p|]|] eqn:E; try done.
  destruct (decide (c' = c)) as [-> | Hne].
  - left. apply lookup_delete_eq.
  - by rewrite lookup_delete_ne.
Qed.

Lemma foldl_RemoveConn_succ (l : list (N * option N)) : forall (f : ackForwarder) (c : N),
  (succ f !! c = None \/ succ f !! c = Some None \/ c ∈ l.*1) ->
  let f' := foldl (fun f kv => RemoveConn (fst kv) f) f l in
  succ f' !! c = None \/ succ f' !! c = Some None.
Proof.
  induction l as [|kv l IH]; intros f c H; cbn [foldl].
  - destruct H as [H | [H | H]]; [tauto | tauto |]. by apply elem_of_nil in H.
  - apply IH. destruct H as [H | [H | H]].
    + destruct (RemoveConn_succ_other c (fst kv) f); tauto.
    + destruct (RemoveConn_succ_other c (fst kv) f); tauto.
    + cbn [fmap list_fmap] in H. apply elem_of_cons in H as [-> | H]; [| tauto].
      destruct (RemoveConn_nil (fst kv) f) as (Hs & _). tauto.
Qed.

(** X9.  After [RemoveAll], [Wait] returns false for every connection
    id: no response goroutine stays in its loop. *)
Theorem RemoveAll_ends_every_wait (f : ackForwarder) (c : N) :
  Wait c (RemoveAll f) = Some false.
Proof.
  unfold RemoveAll.
  set (f1 := foldl (fun f kv => RemoveConn (fst kv) f) f (map_to_list (succ f))).
  assert (H1 : succ f1 !! c = None \/ succ f1 !! c = Some None).
  { apply foldl_RemoveConn_succ.
    destruct (succ f !! c) as [[p|]|] eqn:E; [| tauto | tauto].
    right. right. apply list_elem_of_fmap. exists (c, Some p). split; [done |].
    by apply elem_of_map_to_list. }
  assert (H2 : let f2 := foldl (fun f kv => RemoveConn (fst kv) f) f1 (map_to_list (fail f1)) in
               succ f2 !! c = None \/ succ f2 !! c = Some None).
  { apply foldl_RemoveConn_succ. tauto. }
  cbv zeta in H2. unfold Wait, WaitPtrs. destruct H2 as [-> | ->]; done.
Qed.

(** X7.  For a connection whose recorded transaction numbers fit Go's
    [int] (the handler records no other), [NextToCommit] returns -1 when
    no transaction is pending (received and not yet committed), and the
    least pending transaction number otherwise. *)
Theorem NextToCommit_least_pending (c : N) (f : ackForwarder) (h : gmap Z bool) :
  comm f !! c = Some (Some h) ->
  (forall k v, h !! k = Some v -> 0 <= k < 2 ^ 63) ->
  (NextToCommit c f = -1 /\ forall k, h !! k <> Some true)
  \/ (h !! NextToCommit c f = Some true
      /\ forall k, h !! k = Some true -> NextToCommit c f <= k).
Proof.
  intros Hc Hk. rewrite NextToCommit_commOf. unfold commOf. rewrite Hc.
  by apply nextOf_min.
Qed.

End AckMoreFacts.

(** ** The outcomes of a parser worker *)

Section ParserMoreFacts.

Import Parser ParserTrace.

Context {SyslogMessage Error Decoder ULID St : Type}.
Context `{!Stasher SyslogMessage Error ULID St}.
Context (GetParser : string -> option (@ParserT SyslogMessage Error Decoder)).
Context (SelectDecoder : string -> Decoder).
Context (Empty : SyslogMessage -> bool).
Context (gen : nat -> ULID).

Let ok := parsesOk GetParser SelectDecoder Empty.

Lemma forwarded_addEvents (evs : list (Event SyslogMessage ULID))
    (raw : model.RawTcpMessage) (r : Result SyslogMessage ULID St) :
  forwarded (events (addEvents evs raw r)) = forwarded evs ++ forwarded (events r).
Proof. unfold forwarded. cbn. apply omap_app. Qed.

Lemma parsedQueuePuts_addEvents (evs : list (Event SyslogMessage ULID))
    (raw : model.RawTcpMessage) (r : Result SyslogMessage ULID St) :
  parsedQueuePuts (events (addEvents evs raw r))
  = parsedQueuePuts evs ++ parsedQueuePuts (events r).
Proof. unfold parsedQueuePuts. cbn. apply omap_app. Qed.

(** X10.  In store mode a worker forwards exactly one outcome (a success
    or a failure) for each buffer it took that parses to a message that
    is not empty, in the order of the ring, and none for a buffer that
    fails to parse or parses to an empty message; it reads one ULID for
    each outcome and puts nothing in the parsed queue. *)
Theorem Parse_store_mode_outcomes (ring : list model.RawTcpMessage) (n : nat) (st : St) :
  let r := Parse GetParser SelectDecoder Empty gen false ring n st in
  map fst (forwarded (events r)) = map key (List.filter ok (consumed r))
  /\ taken r = (n + length (List.filter ok (consumed r)))%nat
  /\ parsedQueuePuts (events r) = [].
Proof.
  cbv zeta. revert n st. induction ring as [|raw ring IH]; intros n st.
  { cbn. repeat split. lia. }
  cbn [Parse]. unfold ok in *.
  destruct (GetParser (model.Format raw)) as [parser|] eqn:Eg.
  2: { cbn. unfold parsesOk. rewrite Eg. cbn. repeat split. lia. }
  destruct (parser _ _ _) as [syslogMsg | e] eqn:Ep.
  - destruct (Empty syslogMsg) eqn:Ee.
    + assert (Hok : parsesOk GetParser SelectDecoder Empty raw = false)
        by (unfold parsesOk; by rewrite Eg, Ep, Ee).
      rewrite forwarded_addEvents, parsedQueuePuts_addEvents, map_app.
      cbn [consumed addEvents List.filter taken]. rewrite Hok.
      destruct (IH n st) as (-> & -> & ->). done.
    + assert (Hok : parsesOk GetParser SelectDecoder Empty raw = true)
        by (unfold parsesOk; by rewrite Eg, Ep, Ee).
      destruct (Stash _ st) as [st' [[f|] [nonf|]]].
      * cbn. rewrite Hok. cbn. repeat split. lia.
      * cbn. rewrite Hok. cbn. repeat split. lia.
      * rewrite forwarded_addEvents, parsedQueuePuts_addEvents, map_app.
        cbn [consumed addEvents List.filter taken]. rewrite Hok.
        destruct (IH (S n) st') as (-> & -> & ->). cbn. repeat split. lia.
      * rewrite forwarded_addEvents, parsedQueuePuts_addEvents, map_app.
        cbn [consumed addEvents List.filter taken]. rewrite Hok.
        destruct (IH (S n) st') as (-> & -> & ->). cbn. repeat split. lia.
  - assert (Hok : parsesOk GetParser SelectDecoder Empty raw = false)
      by (unfold parsesOk; by rewrite Eg, Ep).
    rewrite forwarded_addEvents, parsedQueuePuts_addEvents, map_app.
    cbn [consumed addEvents List.filter taken]. rewrite Hok.
    destruct (IH n st) as (-> & -> & ->). done.
Qed.


(** X12.  A worker asks for the service to stop ([StopAndWait]) exactly
    when it ends on a fatal error of the store: then the last things it
    does are to return the buffer, to forward the failure of that
    buffer's transaction and to ask for the stop; otherwise it never asks
    for a stop. *)
Theorem Parse_stops_on_fatal_error (direct : bool)
    (ring : list model.RawTcpMessage) (n : nat) (st : St) :
  let r := Parse GetParser SelectDecoder Empty gen direct ring n st in
  (exit r = FatalStoreError ->
     exists evs raw,
       events r = evs ++ [PoolPut raw; FwdForwardFail (model.ConnID raw) (model.Txnr raw);
                          StopAndWait]
       /\ existsb isStopAndWait evs = false
       /\ last (consumed r) = Some raw)
  /\ (exit r <> FatalStoreError -> existsb isStopAndWait (events r) = false).
Proof.
  cbv zeta. revert n st. induction ring as [|raw ring IH]; intros n st.
  { cbn. split; done. }
  cbn [Parse].
  assert (Hadd : forall (evs : list (Event SyslogMessage ULID)) (r0 : Result SyslogMessage ULID St),
    existsb isStopAndWait evs = false ->
    ((exit r0 = FatalStoreError ->
       exists evs0 raw0,
         events r0 = evs0 ++ [PoolPut raw0;
                              FwdForwardFail (model.ConnID raw0) (model.Txnr raw0); StopAndWait]
         /\ existsb isStopAndWait evs0 = false /\ last (consumed r0) = Some raw0)
     /\ (exit r0 <> FatalStoreError -> existsb isStopAndWait (events r0) = false)) ->
    (exit (addEvents evs raw r0) = FatalStoreError ->
       exists evs0 raw0,
         events (addEvents evs raw r0)
         = evs0 ++ [PoolPut raw0;
                    FwdForwardFail (model.ConnID raw0) (model.Txnr raw0); StopAndWait]
         /\ existsb isStopAndWait evs0 = false
         /\ last (consumed (addEvents evs raw r0)) = Some raw0)
    /\ (exit (addEvents evs raw r0) <> FatalStoreError ->
        existsb isStopAndWait (events (addEvents evs raw r0)) = false)).
  { intros evs r0 Hevs [H1 H2]. cbn [exit addEvents events consumed]. split.
    - intros He. destruct (H1 He) as (evs0 & raw0 & E & Hn & Hl).
      exists (evs ++ evs0), raw0. rewrite E, app_assoc. split; [done |].
      split; [rewrite existsb_app, Hevs, Hn; done |].
      destruct (consumed r0) as [|x l]; [done |]. by rewrite last_cons, Hl.
    - intros He. rewrite existsb_app, Hevs. by apply H2. }
  destruct (GetParser (model.Format raw)) as [parser|]; [| cbn; split; done].
  destruct (parser _ _ _) as [syslogMsg | e].
  - destruct (Empty syslogMsg); [by apply Hadd |].
    destruct direct; [by apply Hadd |].
    destruct (Stash _ st) as [st' [[f|] [nonf|]]]; try (by apply Hadd).
    + cbn. split; [| done]. intros _. by exists [], raw.
    + cbn. split; [| done]. intros _. by exists [], raw.
  - by apply Hadd.
Qed.

End ParserMoreFacts.

(** ** Direct mode: the producer and its answers *)

Section KafkaFacts.

Import Parser Kafka.

Context {SyslogMessage ULID Config Env Serialized Error : Type}.
Context (configs : string -> option Config).
Context (NewFilterEnvironment : Config -> Env).
Context (TopicOf : Env -> SyslogMessage -> Env * string).
Context (PartitionKey : Env -> SyslogMessage -> Env * string).
Context (PartitionNumber : Env -> SyslogMessage -> Env * Z).
Context (FilterMessage : Env -> SyslogMessage -> Env * (FilterResult * SyslogMessage)).
Context (Marshal : ParsedMessage SyslogMessage -> Serialized + Error).
Context (TimeReportedNum : SyslogMessage -> Z).
Context (test : bool).

(** The environments of the local map were made from configurations. *)
Let cached (envs : @Envs Env) : Prop :=
  forall confId, getEnv envs confId <> None -> configs confId <> None.

Lemma getEnv_setEnv (envs : @Envs Env) (confId confId' : string) (e : Env) :
  getEnv (setEnv envs confId e) confId' <> None ->
  confId' = confId \/ getEnv envs confId' <> None.
Proof.
  unfold getEnv, setEnv. cbn [List.find fst].
  destruct (String.eqb confId confId') eqn:E.
  - apply String.eqb_eq in E. intros _. by left.
  - intros H. right. intros Hn. apply H. clear H.
    induction envs as [|[k v] envs IH]; [done |].
    cbn [List.filter List.find fst] in *.
    destruct (String.eqb k confId) eqn:E1; cbn [negb].
    + destruct (String.eqb k confId') eqn:E2.
      * apply String.eqb_eq in E1, E2. subst. by rewrite String.eqb_refl in E.
      * by apply IH.
    + cbn [List.find fst]. destruct (String.eqb k confId') eqn:E2; [done |]. by apply IH.
Qed.

Lemma pushOne_settles (envs : Envs) (message : TcpUdpParsedMessage SyslogMessage ULID) :
  cached envs ->
  let r := pushOne (Serialized := Serialized) configs NewFilterEnvironment TopicOf PartitionKey
                   PartitionNumber FilterMessage Marshal TimeReportedNum test envs message in
  cached (fst r)
  /\ settled (snd r)
     = (if hasConfig configs message then [(Parser.ConnID message, Parser.Txnr message)] else [])
  /\ existsb isStopAndWait (snd r) = false
  /\ (test = true -> existsb isProducerInput (snd r) = false)
  /\ (test = false -> existsb isForwardSucc (snd r) = false).
Proof.
  intros Hc. cbv zeta. unfold pushOne, hasConfig.
  assert (Hset : forall envs' e, cached envs' -> configs (ConfId message) <> None ->
                   cached (setEnv envs' (ConfId message) e)).
  { intros envs' e H1 H2 confId H. apply getEnv_setEnv in H as [-> | H]; [done | by apply H1]. }
  destruct (getEnv envs (ConfId message)) as [e|] eqn:Eg.
  - assert (Hcfg : configs (ConfId message) <> None) by (apply Hc; by rewrite Eg).
    destruct (configs (ConfId message)) as [config|]; [| done].
    destruct (TopicOf e _) as [e1 topic].
    destruct (String.length topic =? 0)%nat; [by repeat split; try apply Hset |].
    destruct (PartitionKey e1 _) as [e2 pk]. destruct (PartitionNumber e2 _) as [e3 pn].
    destruct (FilterMessage e3 _) as [e4 [[| | |] fields]];
      try (by repeat split; try apply Hset).
    destruct (Marshal _) as [ser|err]; [| by repeat split; try apply Hset].
    destruct test; by repeat split; try apply Hset.
  - destruct (configs (ConfId message)) as [config|] eqn:Ecfg; [| by repeat split].
    assert (Hcfg : configs (ConfId message) <> None) by (by rewrite Ecfg).
    assert (Hc1 : cached (setEnv envs (ConfId message) (NewFilterEnvironment config)))
      by (by apply Hset).
    destruct (TopicOf _ _) as [e1 topic].
    destruct (String.length topic =? 0)%nat; [by repeat split; try apply Hset |].
    destruct (PartitionKey e1 _) as [e2 pk]. destruct (PartitionNumber e2 _) as [e3 pn].
    destruct (FilterMessage e3 _) as [e4 [[| | |] fields]];
      try (by repeat split; try apply Hset).
    destruct (Marshal _) as [ser|err]; [| by repeat split; try apply Hset].
    destruct test; by repeat split; try apply Hset.
Qed.


Lemma pushLoop_settles (gots : list (Got SyslogMessage ULID)) : forall envs : Envs,
  cached envs ->
  let evs := pushLoop (Serialized := Serialized) configs NewFilterEnvironment TopicOf
                      PartitionKey PartitionNumber FilterMessage Marshal TimeReportedNum test envs gots in
  settled evs
  = map (fun m => (Parser.ConnID m, Parser.Txnr m))
        (List.filter (hasConfig configs) (reached gots))
  /\ (existsb isStopAndWait evs = true <-> GotError ∈ gots)
  /\ (test = true -> existsb isProducerInput evs = false)
  /\ (test = false -> existsb isForwardSucc evs = false).
Proof.
  induction gots as [|g gots IH]; intros envs Hc; cbv zeta.
  - cbn. repeat split; try done. intros H. by apply elem_of_nil in H.
  - destruct g as [message | |]; cbn [pushLoop reached].
    + pose proof (pushOne_settles envs message Hc) as H1. cbv zeta in H1.
      destruct (pushOne _ _ _ _ _ _ _ _ _ envs message) as [envs' evs1].
      cbn [fst snd] in H1. destruct H1 as (Hc' & Hs & Hn & Ht & Hf).
      destruct (IH envs' Hc') as (IH1 & IH2 & IH3 & IH4).
      unfold settled in *. rewrite omap_app, !existsb_app, Hs, IH1, Hn.
      cbn [List.filter orb]. split; [by destruct (hasConfig configs message) |].
      split; [| split].
      * rewrite IH2. split; [by right |]. intros H.
        apply elem_of_cons in H as [H | H]; [done | done].
      * intros Htest. by rewrite Ht, IH3.
      * intros Htest. by rewrite Hf, IH4.
    + destruct (IH envs Hc) as (IH1 & IH2 & IH3 & IH4).
      split; [done |]. split; [| done].
      rewrite IH2. split; [by right |]. intros H.
      apply elem_of_cons in H as [H | H]; [done | done].
    + cbn. repeat split; try done. intros _. by left.
Qed.

(** X13.  In direct mode [push2kafka] settles, in the order of the parsed
    queue, each message it takes whose configuration is known, and each
    of them once: it forwards the failure of the transaction (no topic, a
    message that the filter does not pass, a message that cannot be
    serialized), or it hands the message to the producer with the
    connection and the transaction number as metadata (in test mode: it
    forwards the success).  For a message whose configuration is unknown
    it forwards nothing.  It asks for the service to stop exactly when
    the queue returns an error, and settles nothing after that; without
    such an error the last thing it does is to close the producer. *)
Theorem push2kafka_settles_each_message (gots : list (Got SyslogMessage ULID)) :
  let evs := push2kafka (Serialized := Serialized) configs NewFilterEnvironment TopicOf
                        PartitionKey PartitionNumber FilterMessage Marshal TimeReportedNum test gots in
  settled evs
  = map (fun m => (Parser.ConnID m, Parser.Txnr m))
        (List.filter (hasConfig configs) (reached gots))
  /\ (existsb isStopAndWait evs = true <-> GotError ∈ gots)
  /\ (test = true -> existsb isProducerInput evs = false)
  /\ (test = false -> existsb isForwardSucc evs = false)
  /\ (GotError ∉ gots -> last evs = Some AsyncClose).
Proof.
  cbv zeta. unfold push2kafka.
  destruct (pushLoop_settles gots []) as (H1 & H2 & H3 & H4); [by intros confId H |].
  cbv zeta in H1, H2, H3, H4.
  unfold settled in *. rewrite omap_app, !existsb_app, H1. cbn [omap existsb orb].
  rewrite app_nil_r, !orb_false_r. repeat split; try done; try apply H2.
  intros _. apply last_snoc.
Qed.

End KafkaFacts.

Section KafkaResponseFacts.

Import Kafka.

Lemma answered_cons2 (a b : ResponseEvent) (evs : list ResponseEvent) :
  answered (a :: b :: evs) = answered [a; b] ++ answered evs.
Proof. unfold answered. by rewrite <- omap_app. Qed.

Lemma responsesLoop_spec (rs : list Response) : forall so fo : bool,
  wellFormed so fo rs = true ->
  let r := responsesLoop so fo rs in
  answered (fst r) = omap outcomeOf (upToFatal rs)
  /\ (RespStopAndWait ∈ fst r <-> existsb isFatal rs = true)
  /\ (existsb isFatal rs = true -> snd r = Stopping /\ last (fst r) = Some RespStopAndWait).
Proof.
  induction rs as [|r rs IH]; intros so fo Hwf; cbv zeta.
  - cbn. destruct (negb so && negb fo); cbn; repeat split; try done;
      intros H; by apply elem_of_nil in H.
  - cbn [wellFormed] in Hwf. cbn [responsesLoop].
    assert (Hstep : forall (a b : ResponseEvent) (o : N * Z * bool) so' fo' r0,
               answered [a; b] = [o] -> outcomeOf r0 = Some o -> isFatal r0 = false ->
               upToFatal (r0 :: rs) = r0 :: upToFatal rs ->
               a <> RespStopAndWait -> b <> RespStopAndWait ->
               wellFormed so' fo' rs = true ->
               let r := (let (evs, e) := responsesLoop so' fo' rs in (a :: b :: evs, e)) in
               answered (fst r) = omap outcomeOf (upToFatal (r0 :: rs))
               /\ (RespStopAndWait ∈ fst r <-> existsb isFatal (r0 :: rs) = true)
               /\ (existsb isFatal (r0 :: rs) = true ->
                   snd r = Stopping /\ last (fst r) = Some RespStopAndWait)).
    { intros a b o so' fo' r0 Ha Ho Hf Hu Hna Hnb Hwf'. cbv zeta.
      specialize (IH _ _ Hwf'). cbv zeta in IH.
      destruct (responsesLoop so' fo' rs) as [evs e]. cbn [fst snd] in *.
      destruct IH as (I1 & I2 & I3).
      rewrite Hu. change (omap outcomeOf (r0 :: upToFatal rs))
        with (match outcomeOf r0 with
              | Some y => y :: omap outcomeOf (upToFatal rs)
              | None => omap outcomeOf (upToFatal rs)
              end).
      cbn [existsb]. rewrite Ho, Hf. cbn [orb].
      rewrite answered_cons2, Ha, I1. split; [done |]. split; [split |].
      - intros Hin. apply I2.
        apply elem_of_cons in Hin as [Hin | Hin]; [done |].
        apply elem_of_cons in Hin as [Hin | Hin]; [done |]. done.
      - intros Hfat. do 2 right. by apply I2.
      - intros Hfat. destruct (I3 Hfat) as [He Hl]. split; [done |].
        destruct evs; [done |]. exact Hl. }
    destruct r as [metad topic | metad topic fatal | |];
      apply andb_true_iff in Hwf as [Ho Hwf]; subst; cbn [negb andb].
    + by apply (Hstep _ _ (ConnID metad, Txnr metad, true)).
    + destruct so; cbn [negb andb]; destruct fatal.
      * cbn. split; [done |]. split; [split; [done |] | done].
        intros _. do 2 right. left.
      * by apply (Hstep _ _ (ConnID metad, Txnr metad, false)).
      * cbn. split; [done |]. split; [split; [done |] | done].
        intros _. do 2 right. left.
      * by apply (Hstep _ _ (ConnID metad, Txnr metad, false)).
    + specialize (IH _ _ Hwf). cbv zeta in IH. by destruct fo.
    + specialize (IH _ _ Hwf). cbv zeta in IH. by destruct so.
Qed.

Lemma responsesLoop_ending (rs : list Response) : forall so fo : bool,
  wellFormed so fo rs = true -> existsb isFatal rs = false ->
  snd (responsesLoop so fo rs)
  = if (negb so || existsb isSuccessesClosed rs) && (negb fo || existsb isErrorsClosed rs)
    then Returned else Selecting.
Proof.
  induction rs as [|r rs IH]; intros so fo Hwf Hnf.
  - by destruct so, fo.
  - cbn [wellFormed] in Hwf. cbn [existsb] in Hnf.
    apply orb_false_iff in Hnf as [Hr Hnf].
    destruct r as [metad topic | metad topic fatal | |];
      apply andb_true_iff in Hwf as [Ho Hwf]; subst; cbn in Hr; subst;
      cbn [responsesLoop existsb isSuccessesClosed isErrorsClosed negb andb orb].
    + specialize (IH _ _ Hwf Hnf). by destruct (responsesLoop true fo rs).
    + rewrite andb_false_r. destruct fatal; [done |].
      specialize (IH _ _ Hwf Hnf). by destruct (responsesLoop so true rs).
    + rewrite (IH _ _ Hwf Hnf). cbn [negb orb]. done.
    + rewrite andb_false_r, (IH _ _ Hwf Hnf). cbn [negb orb]. done.
Qed.

(** X14.  As long as the producer delivers nothing on a channel it has
    closed, [handleKafkaResponses] forwards one outcome for each delivery,
    in order (a success for an ack, a failure for an error), up to the
    first fatal error included; it asks for the service to stop exactly
    when there is such an error, right after forwarding its failure, and
    forwards nothing afterwards.  Without a fatal error it returns once
    both channels are closed, and waits for deliveries otherwise. *)
Theorem handleKafkaResponses_forwards_until_fatal (rs : list Response) :
  wellFormed true true rs = true ->
  let r := handleKafkaResponses rs in
  answered (fst r) = omap outcomeOf (upToFatal rs)
  /\ (RespStopAndWait ∈ fst r <-> existsb isFatal rs = true)
  /\ (existsb isFatal rs = true -> snd r = Stopping /\ last (fst r) = Some RespStopAndWait)
  /\ (existsb isFatal rs = false ->
      snd r = if existsb isSuccessesClosed rs && existsb isErrorsClosed rs
              then Returned else Selecting).
Proof.
  intros Hwf. cbv zeta. unfold handleKafkaResponses.
  destruct (responsesLoop_spec rs true true Hwf) as (H1 & H2 & H3).
  split; [done |]. split; [done |]. split; [done |].
  intros Hnf. by rewrite (responsesLoop_ending rs true true Hwf Hnf).
Qed.

End KafkaResponseFacts.

(** ** The answers of the plugin controller *)

Section PluginMoreFacts.

Import Plugin PluginTrace.

Context {ListenerInfo Message Families DecodeError : Type}.
Context (unmarshalInfos : bytes -> list ListenerInfo + DecodeError).
Context (unmarshalMsg : bytes -> Message + DecodeError).
Context (unmarshalFamilies : bytes -> Families + DecodeError).
Context (hasRegistry : bool).

Lemma onceDo_keeps (v w : @InfosAndError ListenerInfo DecodeError)
    (st : @ListenState ListenerInfo Message Families DecodeError) :
  once st = Some v -> onceDo w st = st.
Proof. intros H. unfold onceDo. by rewrite H. Qed.

Lemma listenStep_once (st : ListenState) (text : bytes) (v : InfosAndError) :
  once st = Some v ->
  once (fst (listenStep unmarshalInfos unmarshalMsg unmarshalFamilies hasRegistry st text))
  = Some v.
Proof.
  intros H. unfold listenStep.
  repeat match goal with
         | |- context [bool_decide ?P] => destruct (bool_decide P)
         | |- context [match ?x with _ => _ end] =>
             lazymatch x with
             | context [once] => fail
             | _ => destruct x
             end
         end; cbn [fst negb]; rewrite ?(onceDo_keeps v) by done; done.
Qed.

Lemma listenLoop_once (msgs : list bytes) : forall (st : ListenState) (v : InfosAndError),
  once st = Some v ->
  once (fst (listenLoop unmarshalInfos unmarshalMsg unmarshalFamilies hasRegistry msgs st))
  = Some v.
Proof.
  induction msgs as [|m msgs IH]; intros st v H; [done |].
  cbn [listenLoop]. pose proof (listenStep_once st m v H) as H1.
  destruct (listenStep _ _ _ _ st m) as [st1 [|]]; [done |]. by apply IH.
Qed.

Lemma listenDefer_once (st : @ListenState ListenerInfo Message Families DecodeError)
    (c : Controller) :
  once (fst (listenDefer st c))
  = Some (default (mkIE None (Some (Errorf unexpectedEnd))) (once st)).
Proof.
  unfold listenDefer, onceDo.
  destruct (once st) as [v|] eqn:E; cbn;
    repeat match goal with
           | |- context [if ?b then _ else _] => destruct b
           end; cbn; done.
Qed.

(** X24.  [Start] receives one value from the goroutine of [listen], the
    first that is sent: once a value was sent, no later message of the
    child and not the deferred function either replaces it. *)
Theorem listen_first_answer_wins
    (msgs : list bytes) (st : ListenState) (c : Controller) (v : InfosAndError) :
  once st = Some v ->
  let st' := fst (listenLoop unmarshalInfos unmarshalMsg unmarshalFamilies hasRegistry msgs st) in
  once st' = Some v /\ once (fst (listenDefer st' c)) = Some v.
Proof.
  intros H. cbv zeta. pose proof (listenLoop_once msgs st v H) as H1.
  split; [done |]. by rewrite listenDefer_once, H1.
Qed.


Lemma stashed_app (evs1 evs2 : list (@Event ListenerInfo Message Families)) :
  stashed (evs1 ++ evs2) = stashed evs1 ++ stashed evs2.
Proof. apply omap_app. Qed.

Lemma stashed_unregister (l : list ListenerInfo) :
  stashed (Message := Message) (Families := Families) (map UnregisterTcpListener l) = [].
Proof. by induction l. Qed.

Lemma stashed_register (l : list ListenerInfo) :
  stashed (Message := Message) (Families := Families) (map RegisterTcpListener l) = [].
Proof. by induction l. Qed.

Lemma listenStep_stash (st : ListenState) (text : bytes) :
  let st' := fst (listenStep unmarshalInfos unmarshalMsg unmarshalFamilies hasRegistry st text) in
  (stashed (trace st') = stashed (trace st)
   \/ (initialized st = true /\ exists m, stashed (trace st') = stashed (trace st) ++ [m]))
  /\ (initialized st = true -> initialized st' = true).
Proof.
  cbv zeta. destruct st as [ini ki ns on oi tr].
  unfold listenStep, onceDo, setKill, emit. cbn [initialized kill normalStop once outerInfos trace].
  repeat match goal with
         | |- context [bool_decide ?P] => destruct (bool_decide P)
         | |- context [match ?x with _ => _ end] => destruct x eqn:?
         end;
    cbn [fst negb initialized kill normalStop once outerInfos trace] in *;
    rewrite ?stashed_app, ?stashed_unregister, ?stashed_register, ?app_nil_r;
    try (split; [by left | done]).
  all: split; [| done]; right; split; [by destruct ini | by eexists].
Qed.

Lemma listenLoop_stash (msgs : list bytes) : forall st : ListenState,
  (initialized st = false -> stashed (trace st) = []) ->
  let st' := fst (listenLoop unmarshalInfos unmarshalMsg unmarshalFamilies hasRegistry msgs st) in
  initialized st' = false -> stashed (trace st') = [].
Proof.
  induction msgs as [|m msgs IH]; intros st H; [done |].
  cbn [listenLoop]. pose proof (listenStep_stash st m) as [Hs Hi]. cbv zeta in Hs, Hi.
  destruct (listenStep _ _ _ _ st m) as [st1 [|]]; cbn [fst] in *.
  - intros Hi1. destruct Hs as [-> | [Ht _]].
    + apply H. destruct (initialized st); [by rewrite Hi in Hi1 | done].
    + rewrite Hi in Hi1 by done. done.
  - apply IH. intros Hi1. destruct Hs as [-> | [Ht _]].
    + apply H. destruct (initialized st); [by rewrite Hi in Hi1 | done].
    + rewrite Hi in Hi1 by done. done.
Qed.

(** X26.  Nothing is stashed before the plugin has reported [started]:
    as long as the goroutine of [listen] has accepted no [started]
    message, it has called [stasher.Stash] for no message. *)
Theorem listen_stashes_after_started (msgs : list bytes) :
  let st := fst (listenLoop unmarshalInfos unmarshalMsg unmarshalFamilies hasRegistry
                            msgs initListen) in
  initialized st = false -> stashed (trace st) = [].
Proof. apply listenLoop_stash. done. Qed.

Lemma SplitN_command (w body : bytes) :
  Forall (fun b => Byte.eqb b SP = false) w ->
  SplitN (w ++ SP :: body) SP 2 = [w; body].
Proof. intros Hw. cbn [SplitN]. by rewrite cutAt_word. Qed.


End PluginMoreFacts.

(** ** The commands of the binder *)

Section BinderMoreFacts.

Import Binder.

Context {Listener PacketConn OSError : Type}.
Context (netListen : bytes -> bytes -> Listener + OSError).
Context (netListenPacket : bytes -> bytes -> PacketConn + OSError).
Context (errorText : OSError -> bytes).
Context (writeOk : bytes -> bool).

Lemma eqb_byte_refl (b : byte) : Byte.eqb b b = true.
Proof. by apply Byte.byte_dec_lb. Qed.

Lemma cutAt_sep (sep : byte) (w r : bytes) :
  Forall (fun b => Byte.eqb b sep = false) w -> cutAt sep (w ++ sep :: r) = Some (w, r).
Proof.
  induction 1 as [|b w Hb Hw IH]; cbn [app cutAt].
  - by rewrite eqb_byte_refl.
  - by rewrite Hb, IH.
Qed.

Lemma cutAt_absent (sep : byte) (w : bytes) :
  Forall (fun b => Byte.eqb b sep = false) w -> cutAt sep w = None.
Proof. induction 1 as [|b w Hb Hw IH]; cbn [cutAt]; [done |]. by rewrite Hb, IH. Qed.

Lemma Trim_ends (a b : byte) (y z : bytes) :
  splitSpaceOrLF a = false -> splitSpaceOrLF b = false ->
  a :: y = z ++ [b] -> Trim (a :: y) = a :: y.
Proof.
  intros Ha Hb E. unfold Trim. rewrite TrimLeft_id by done. rewrite E. by apply TrimRight_id.
Qed.

Lemma Split_word (w : bytes) : forall cur r,
  Forall (fun b => Byte.eqb b SP = false) w ->
  Split (w ++ SP :: r) SP cur = (rev cur ++ w) :: Split r SP [].
Proof.
  induction w as [|b w IH]; intros cur r Hw; cbn [app Split].
  - change (Byte.eqb SP SP) with true. cbn match. by rewrite app_nil_r.
  - apply Forall_cons in Hw as [Hb Hw]. rewrite Hb, IH by done. cbn [rev].
    by rewrite <- app_assoc.
Qed.

Lemma Split_last (w : bytes) : forall cur,
  Forall (fun b => Byte.eqb b SP = false) w -> Split w SP cur = [rev cur ++ w].
Proof.
  induction w as [|b w IH]; intros cur Hw; cbn [Split].
  - by rewrite app_nil_r.
  - apply Forall_cons in Hw as [Hb Hw]. rewrite Hb, IH by done. cbn [rev].
    by rewrite <- app_assoc.
Qed.

Lemma Split_Join (addrs : list bytes) :
  addrs <> [] -> Forall word addrs -> Split (Join addrs) SP [] = addrs.
Proof.
  induction addrs as [|a addrs IH]; intros Hne Hw; [done |].
  apply Forall_cons in Hw as [Ha Hw]. destruct addrs as [|a' addrs].
  - cbn [Join]. rewrite Split_last by (by apply word_no_SP). done.
  - change (Join (a :: a' :: addrs)) with (a ++ SP :: Join (a' :: addrs)).
    rewrite Split_word by (by apply word_no_SP). cbn [rev app]. f_equal. by apply IH.
Qed.

Lemma Join_ends (addrs : list bytes) :
  addrs <> [] -> Forall (fun w => w <> [] /\ word w) addrs ->
  (exists a y, Join addrs = a :: y /\ splitSpaceOrLF a = false)
  /\ (exists z b, Join addrs = z ++ [b] /\ splitSpaceOrLF b = false).
Proof.
  induction addrs as [|w addrs IH]; intros Hne Hall; [done |].
  apply Forall_cons in Hall as [[Hw0 Hw] Hall].
  assert (Hhd : exists a y, w = a :: y /\ splitSpaceOrLF a = false).
  { destruct w as [|a y]; [done |]. exists a, y. split; [done |]. by apply Forall_inv in Hw. }
  destruct addrs as [|w' addrs].
  - cbn [Join]. split; [done |].
    destruct (rev w) as [|b q] eqn:Er.
    { apply (f_equal (@rev byte)) in Er. rewrite rev_involutive in Er. done. }
    apply (f_equal (@rev byte)) in Er. rewrite rev_involutive in Er. cbn [rev] in Er.
    exists (rev q), b. split; [done |]. rewrite Er in Hw.
    apply Forall_app in Hw as [_ Hw]. by apply Forall_inv in Hw.
  - change (Join (w :: w' :: addrs)) with (w ++ SP :: Join (w' :: addrs)).
    destruct (IH ltac:(done) Hall) as [_ (z & b & Ez & Hb)]. split.
    + destruct Hhd as (a & y & -> & Ha). by exists a, (y ++ SP :: Join (w' :: addrs)).
    + exists (w ++ SP :: z), b. rewrite Ez. split; [| done].
      by rewrite <- app_assoc.
Qed.

(** The parsing of a command line [COMMAND SP ARGS]. *)
Lemma binder_line (cmd args : bytes) (a b : byte) (y z : bytes) :
  cmd <> [] -> word cmd ->
  args = a :: y -> args = z ++ [b] ->
  splitSpaceOrLF a = false -> splitSpaceOrLF b = false ->
  let rmsg := Trim (cmd ++ SP :: args) in
  nth 0 (SplitN rmsg SP 2) [] = cmd
  /\ Trim (drop (length (nth 0 (SplitN rmsg SP 2) [])) rmsg) = args.
Proof.
  intros Hc Hw Ea Ez Ha Hb. cbv zeta.
  destruct cmd as [|c0 cmd]; [done |].
  assert (Hc0 : splitSpaceOrLF c0 = false) by (by apply Forall_inv in Hw).
  assert (Ht : Trim ((c0 :: cmd) ++ SP :: args) = (c0 :: cmd) ++ SP :: args).
  { cbn [app]. apply (Trim_ends c0 b _ (c0 :: cmd ++ SP :: z)); try done.
    rewrite Ez. cbn [app]. f_equal. rewrite <- app_assoc. done. }
  rewrite Ht. rewrite SplitN_command by (by apply word_no_SP). cbn [nth].
  split; [done |]. rewrite drop_app_length.
  unfold Trim. rewrite TrimLeft_sep by done. fold (Trim args).
  rewrite Ea. apply (Trim_ends a b y z); try done. by rewrite <- Ea.
Qed.

Lemma listenAddrs_panics (addrs : list bytes) : forall ls : Listeners,
  Exists noColon addrs ->
  listenAddrs netListen netListenPacket errorText writeOk addrs ls = None.
Proof.
  induction addrs as [|addr addrs IH]; intros ls Hex; [by apply Exists_nil in Hex |].
  cbn [listenAddrs].
  apply Exists_cons in Hex as [Hno | Hex].
  - unfold BinderListen, BinderPacket. cbn [SplitN]. rewrite cutAt_absent by done.
    by destruct (IsStream _).
  - match goal with
    | |- match ?step with _ => _ end = None => destruct step as [[ls' evs]|]; [| done]
    end.
    by rewrite IH.
Qed.

(** X28.  A [listen] command with an address that has no colon makes the
    binder index [parts[1]] out of range, whatever the other addresses of
    the command are and whatever the binds answer; so does the bare
    command [listen]. *)
Theorem binder_listen_without_colon_panics (ls : Listeners) :
  binderCommand netListen netListenPacket errorText writeOk ls (B "listen") = Panicked
  /\ forall addrs : list bytes,
       addrs <> [] -> Forall (fun w => w <> [] /\ word w) addrs ->
       Exists noColon addrs ->
       binderCommand netListen netListenPacket errorText writeOk ls
                     (B "listen" ++ SP :: Join addrs)
       = Panicked.
Proof.
  split; [reflexivity |].
  intros addrs Hne Hall Hex.
  destruct (Join_ends addrs Hne Hall) as [(a & y & Ea & Ha) (z & b & Ez & Hb)].
  destruct (binder_line (B "listen") (Join addrs) a b y z) as [Hcmd Hargs];
    try done; [repeat constructor |].
  unfold binderCommand. cbv zeta in Hcmd, Hargs. rewrite Hargs, Hcmd.
  rewrite bool_decide_eq_true_2 by done.
  rewrite Split_Join; [| done | eapply Forall_impl; [exact Hall | by intros w [_ Hw]]].
  by rewrite listenAddrs_panics.
Qed.

Lemma delListener_setListener (addr : bytes) (l : Listener) (ls : Listeners) :
  delListener addr (setListener addr l ls) = delListener addr ls
  /\ hasListener addr (setListener addr l ls) = true.
Proof.
  unfold delListener, setListener, hasListener. cbn [List.filter existsb fst].
  rewrite bool_decide_eq_true_2 by done. cbn. split; [| done].
  induction ls as [|kv ls IH]; [done |]. cbn [List.filter].
  destruct (negb (bool_decide (fst kv = addr))) eqn:E; cbn [List.filter]; rewrite ?E, IH; done.
Qed.

(** X29.  What [listen] opens, [stoplisten] closes: after a [listen] for
    a stream address that binds and is confirmed, the binder keeps the
    listener; a [stoplisten] for the same address then closes it, forgets
    it, and answers [stopped ADDR] with a line feed. *)
Theorem binder_stoplisten_undoes_listen
    (ls : Listeners) (lnet laddr : bytes) (l : Listener) :
  let addr := lnet ++ ":"%byte :: laddr in
  lnet <> [] -> word addr -> noColon lnet ->
  IsStream lnet = true -> netListen lnet laddr = inl l ->
  writeOk (B "confirmlisten " ++ addr) = true ->
  binderCommand netListen netListenPacket errorText writeOk ls (B "listen" ++ SP :: addr)
  = Continue (setListener addr l ls) [ChildWrite (B "confirmlisten " ++ addr)]
  /\ binderCommand netListen netListenPacket errorText writeOk (setListener addr l ls)
                   (B "stoplisten" ++ SP :: addr)
     = Continue (delListener addr ls)
                [ListenerClose addr; ChildWrite (B "stopped " ++ addr ++ [LF])].
Proof.
  intros addr Hne Hw Hno Hs Hl Hwr.
  assert (Hends : (exists a y, addr = a :: y /\ splitSpaceOrLF a = false)
                  /\ (exists z b, addr = z ++ [b] /\ splitSpaceOrLF b = false)).
  { apply (Join_ends [addr]); [done |]. constructor; [| done]. split; [| done].
    unfold addr. by destruct lnet. }
  destruct Hends as [(a & y & Ea & Ha) (z & b & Ez & Hb)].
  assert (Hsplit : SplitN addr ":"%byte 2 = [lnet; laddr]).
  { unfold addr. cbn [SplitN]. by rewrite cutAt_sep. }
  split.
  - destruct (binder_line (B "listen") addr a b y z) as [Hcmd Hargs];
      try done; [repeat constructor |].
    unfold binderCommand. cbv zeta in Hcmd, Hargs. rewrite Hargs, Hcmd.
    rewrite bool_decide_eq_true_2 by done.
    rewrite Split_last by (by apply word_no_SP). cbn [rev app listenAddrs].
    unfold BinderListen. rewrite Hsplit. cbn [nth]. rewrite Hs, Hl, Hwr. done.
  - destruct (binder_line (B "stoplisten") addr a b y z) as [Hcmd Hargs];
      try done; [repeat constructor |].
    unfold binderCommand. cbv zeta in Hcmd, Hargs. rewrite Hargs, Hcmd.
    rewrite bool_decide_eq_false_2 by done.
    rewrite bool_decide_eq_false_2 by done.
    rewrite bool_decide_eq_true_2 by done.
    destruct (delListener_setListener addr l ls) as [-> ->]. done.
Qed.

End BinderMoreFacts.

(** ** The life cycle of the RELP service *)

Section ServiceFacts.

Import Service.

Lemma statusInv_closed (s : RelpServiceImpl) :
  statusInv s -> closed (StatusChan s) = bool_decide (status s = FinalStopped).
Proof.
  intros [[H1 H2] _]. destruct (closed (StatusChan s)) eqn:E.
  - symmetry. apply bool_decide_eq_true_2. by apply H1.
  - symmetry. apply bool_decide_eq_false_2. intros Hf. pose proof (H2 Hf). congruence.
Qed.

Lemma call_statusInv (c : Call) (s : RelpServiceImpl) :
  statusInv s -> exists s' evs, call c s = Some (s', evs) /\ statusInv s'.
Proof.
  intros Hinv. pose proof (statusInv_closed s Hinv) as Hc.
  destruct s as [st [snt cl] t d q]. cbn in Hc. subst cl.
  destruct Hinv as [_ Hlast]. cbn in Hlast.
  assert (Hnew : forall st' t' q',
             st' <> FinalStopped ->
             statusInv (mkImpl st' (mkChan (snt ++ [st']) false) t' d q')).
  { intros st' t' q' Hne. split; cbn; [split; [done | by intros ->] |].
    right. apply last_snoc. }
  assert (Hfin : forall t' q',
             statusInv (mkImpl FinalStopped (mkChan (snt ++ [FinalStopped]) true) t' d q')).
  { intros t' q'. split; cbn; [done |]. right. apply last_snoc. }
  assert (Hsame : forall t', st <> FinalStopped ->
             statusInv (mkImpl st (mkChan snt false) t' d q)).
  { intros t' Hne. split; cbn; [split; [done | by intros ->] | done]. }
  assert (Hkeep : st = FinalStopped ->
             statusInv (mkImpl st (mkChan snt true) t d q)).
  { intros ->. split; cbn; [done | done]. }
  destruct c as [t0 n p cpus | | | |]; destruct st;
    unfold call, Start, Stop, FinalStop, StopAndWait, EndWait, doStop, announce, closeChan;
    cbn; repeat (case_bool_decide; try done); cbn;
    repeat match goal with
           | |- context [if ?b then _ else _] => destruct b eqn:?
           end; cbn;
    eexists _, _; (split; [reflexivity |]);
    first [ by apply Hnew | by apply Hfin | by apply Hsame | by apply Hkeep ].
Qed.

(** X15.  Whatever the sequence of [Start], [Stop], [FinalStop],
    [StopAndWait] and [EndWait] on a new [RelpServiceImpl], and whatever
    the listeners and the producer do, no call sends on the status channel
    after it was closed nor closes it twice; the channel is closed exactly
    when the status is [FinalStopped], and the last status sent is the
    current status (nothing is sent before the first change).  The calls
    are taken to return from their waits on the goroutines. *)
Theorem status_channel_is_safe (cs : list Call) (direct : bool) :
  exists s evs,
    calls cs (NewRelpServiceImpl direct) = Some (s, evs)
    /\ (closed (StatusChan s) = true <-> status s = FinalStopped)
    /\ ((sent (StatusChan s) = [] /\ status s = Stopped)
        \/ last (sent (StatusChan s)) = Some (status s)).
Proof.
  assert (H : forall s, statusInv s ->
                exists s' evs, calls cs s = Some (s', evs) /\ statusInv s').
  { induction cs as [|c cs IH]; intros s Hs; [by exists s, [] |].
    cbn [calls]. destruct (call_statusInv c s Hs) as (s1 & evs1 & -> & H1).
    destruct (IH s1 H1) as (s2 & evs2 & -> & H2). by exists s2, (evs1 ++ evs2). }
  destruct (H (NewRelpServiceImpl direct)) as (s & evs & E & Hs).
  { split; cbn; [done | by left]. }
  by exists s, evs.
Qed.

(** X16.  When [FinalStop] returns the service is [FinalStopped], and
    nothing in it makes the status channel panic; and
    in [FinalStopped] every call leaves the service as it is and does
    nothing, [Start] returning [ServerDefinitelyStopped]. *)
Theorem FinalStop_is_final (s : RelpServiceImpl) :
  statusInv s ->
  (exists s' evs, FinalStop s = Some (s', evs) /\ status s' = FinalStopped /\ statusInv s')
  /\ (status s = FinalStopped ->
      (forall c, call c s = Some (s, []))
      /\ forall t n p cpus, Start t n p cpus s = Some (s, [], inr ServerDefinitelyStopped)).
Proof.
  intros Hinv. split.
  - destruct (call_statusInv CallFinalStop s Hinv) as (s' & evs & E & Hs').
    exists s', evs. repeat split; try done; try apply Hs'.
    revert E. cbn [call]. unfold FinalStop, doStop, announce, closeChan.
    pose proof (statusInv_closed s Hinv) as Hc. rewrite Hc.
    destruct (status s) eqn:Est; cbn; intros [= <- _]; try done.
  - intros Hf. pose proof (statusInv_closed s Hinv) as Hc. rewrite Hf in Hc.
    destruct s as [st [snt cl] t d q]. cbn in *. subst. split.
    + intros [t0 n p cpus | | | |]; reflexivity.
    + reflexivity.
Qed.

End ServiceFacts.

(** ** The life cycle of the TCP service *)

Section TcpServiceFacts.

Import TcpService.

Lemma tcp_call_inv (c : Call) (s : tcpServerImpl) :
  statusInv s ->
  match call c s with
  | Returns s' _ _ => statusInv s'
  | Blocks => c = CallWaitClosed /\ (status s = TcpStarted \/ statusChan s = None)
  | Panics => False
  end.
Proof.
  unfold statusInv. destruct s as [[|] ch]; cbn [status statusChan]; intros Hinv;
    destruct c as [n | |]; unfold call, Start, Stop, WaitClosed;
    cbn [status statusChan]; repeat (case_bool_decide; try done).
  - destruct (0 <? n)%nat; cbn; [done |]. right. by eexists.
  - destruct Hinv as [-> | [b ->]]; cbn.
    + split; [done | by right].
    + right. by eexists.
  - subst ch. cbn. right. by eexists.
  - subst ch. cbn. split; [done | by left].
Qed.

(** X22.  Whatever the sequence of [Start] and [Stop] on a new TCP
    service, no call blocks or panics on the status channel; afterwards
    [WaitClosed] returns exactly when the service is stopped and was
    started at least once, and it blocks when the service is started or
    was never started. *)
Theorem tcp_WaitClosed_returns_when_stopped (cs : list Call) :
  Forall (fun c => c <> CallWaitClosed) cs ->
  exists s evs,
    calls cs NewTcpService = Returns s evs tt
    /\ ((exists s', WaitClosed s = Returns s' [] tt)
        <-> status s = TcpStopped /\ statusChan s <> None)
    /\ (WaitClosed s = Blocks <-> status s = TcpStarted \/ statusChan s = None).
Proof.
  intros Hcs.
  assert (H : forall s, statusInv s ->
                exists s' evs, calls cs s = Returns s' evs tt /\ statusInv s').
  { induction Hcs as [|c cs Hc Hcs IH]; intros s Hs; [by exists s, [] |].
    cbn [calls]. pose proof (tcp_call_inv c s Hs) as H1.
    destruct (call c s) as [s1 evs1 []| |]; [| by destruct H1 | done].
    destruct (IH s1 H1) as (s2 & evs2 & -> & H2). by exists s2, (evs1 ++ evs2). }
  destruct (H NewTcpService) as (s & evs & E & Hs); [by left |].
  exists s, evs. split; [done |].
  unfold statusInv in Hs. unfold WaitClosed.
  destruct s as [[|] ch]; cbn [status statusChan] in *.
  - destruct Hs as [-> | [b ->]]; cbn.
    + split; split; try done; try (by intros [? ?]); try (by intros [? ?]); by right.
    + split; split; try done.
      * by intros _; eexists.
      * by intros [? | ?].
  - subst ch. cbn. split; split; try done; try (by intros [? ?]). by left.
Qed.

End TcpServiceFacts.

(** ** The life cycle of the UDP service *)

Section UdpServiceFacts.

Import UdpService.

Lemma udp_call_inv (c : Call) (s : udpServiceImpl) :
  statusInv s ->
  match call c s with
  | Returns s' _ _ => statusInv s'
  | Blocks => c = CallWaitClosed /\ (status s = UdpStarted \/ statusChan s = None)
  | Panics => False
  end.
Proof.
  unfold statusInv. destruct s as [[|] ch]; cbn [status statusChan]; intros Hinv;
    destruct c as [n | |]; unfold call, Start, Stop, WaitClosed;
    cbn [status statusChan]; repeat (case_bool_decide; try done).
  - destruct (0 <? n)%nat; cbn; [done |]. right. by eexists.
  - destruct Hinv as [-> | [b ->]]; cbn.
    + split; [done | by right].
    + right. by eexists.
  - subst ch. cbn. right. by eexists.
  - subst ch. cbn. split; [done | by left].
Qed.

(** X23.  Whatever the sequence of [Start] and [Stop] on a new UDP
    service, no call blocks or panics on the status channel; afterwards
    [WaitClosed] returns exactly when the service is stopped and was
    started at least once, and it blocks when the service is started or
    was never started. *)
Theorem udp_WaitClosed_returns_when_stopped (cs : list Call) :
  Forall (fun c => c <> CallWaitClosed) cs ->
  exists s evs,
    calls cs NewUdpService = Returns s evs tt
    /\ ((exists s', WaitClosed s = Returns s' [] tt)
        <-> status s = UdpStopped /\ statusChan s <> None)
    /\ (WaitClosed s = Blocks <-> status s = UdpStarted \/ statusChan s = None).
Proof.
  intros Hcs.
  assert (H : forall s, statusInv s ->
                exists s' evs, calls cs s = Returns s' evs tt /\ statusInv s').
  { induction Hcs as [|c cs Hc Hcs IH]; intros s Hs; [by exists s, [] |].
    cbn [calls]. pose proof (udp_call_inv c s Hs) as H1.
    destruct (call c s) as [s1 evs1 []| |]; [| by destruct H1 | done].
    destruct (IH s1 H1) as (s2 & evs2 & -> & H2). by exists s2, (evs1 ++ evs2). }
  destruct (H NewUdpService) as (s & evs & E & Hs); [by left |].
  exists s, evs. split; [done |].
  unfold statusInv in Hs. unfold WaitClosed.
  destruct s as [[|] ch]; cbn [status statusChan] in *.
  - destruct Hs as [-> | [b ->]]; cbn.
    + split; split; try done; try (by intros [? ?]); try (by intros [? ?]); by right.
    + split; split; try done.
      * by intros _; eexists.
      * by intros [? | ?].
  - subst ch. cbn. split; split; try done; try (by intros [? ?]). by left.
Qed.

End UdpServiceFacts.

(** ** The names of the services *)

Section FactoryFacts.

Import Factory.

Lemma init_fold (order : list (string * Types)) : forall (maps : TypeMap * TypeMap) (t : Types),
  NoDup (order.*2) ->
  let r := foldl (fun maps kv =>
                    (set (fst maps) (snd kv) (fst kv),
                     set (snd maps) (snd kv) ("confined-" ++ fst kv)%string)) maps order in
  (forall name, (name, t) ∈ order ->
     fst r t = Some name /\ snd r t = Some ("confined-" ++ name)%string)
  /\ (t ∉ order.*2 -> fst r t = fst maps t /\ snd r t = snd maps t).
Proof.
  induction order as [|[k v] order IH]; intros maps t Hnd; cbn [foldl].
  - split; [| done]. intros name H. by apply elem_of_nil in H.
  - cbn [fmap list_fmap] in Hnd. apply NoDup_cons in Hnd as [Hv Hnd].
    cbn [fst snd].
    destruct (IH (set (fst maps) v k, set (snd maps) v ("confined-" ++ k)%string) t Hnd)
      as [H1 H2].
    cbv zeta in H1, H2. cbn [fst snd] in H1, H2. split.
    + intros name Hin. apply elem_of_cons in Hin as [Hin | Hin]; [| by apply H1].
      injection Hin as -> ->. destruct (H2 Hv) as [-> ->].
      unfold set. by rewrite bool_decide_eq_true_2.
    + intros Hnot. cbn [fmap list_fmap snd] in Hnot.
      apply not_elem_of_cons in Hnot as [Hne Hnot].
      destruct (H2 Hnot) as [-> ->]. unfold set.
      by rewrite bool_decide_eq_false_2.
Qed.

(** X30.  In whatever order [init] ranges over [Names2Types], it fills
    [Types2Names] with the inverse of [Names2Types] and
    [Types2ConfinedNames] with the same names prefixed by [confined-]:
    every service type has exactly its own name. *)
Theorem init_inverts_Names2Types (order : list (string * Types)) :
  order ≡ₚ Names2Types ->
  let (Types2Names, Types2ConfinedNames) := init order in
  forall (name : string) (t : Types),
    (name, t) ∈ Names2Types
    <-> Types2Names t = Some name
        /\ Types2ConfinedNames t = Some ("confined-" ++ name)%string.
Proof.
  intros Hp. destruct (init order) as [n c] eqn:E. intros name t.
  assert (Hnd : NoDup (order.*2)).
  { rewrite Hp. apply (bool_decide_unpack _). by vm_compute. }
  assert (Hall : exists name0, (name0, t) ∈ order).
  { setoid_rewrite Hp. unfold Names2Types.
    destruct t; eexists;
      repeat first [ apply list_elem_of_here | apply list_elem_of_further ]. }
  destruct (init_fold order (empty, empty) t Hnd) as [H1 _].
  cbv zeta in H1. fold (init order) in H1. rewrite E in H1. cbn [fst snd] in H1.
  split.
  - intros Hin. apply H1. by rewrite Hp.
  - intros [Hn _]. destruct Hall as [name0 Hin0].
    destruct (H1 name0 Hin0) as [Hn0 _]. rewrite Hn in Hn0. injection Hn0 as ->.
    by rewrite <- Hp.
Qed.

End FactoryFacts.

(** ** Instances *)

Section TcpScenarios.

Lemma lf_framing_line_witness :
  let data := [CR; LF] ++ B "<13>Oct 11 22:14:15 x " ++ LF :: B "<14>" in
  LFTcpSplit data false = Token 25 (B "<13>Oct 11 22:14:15 x")
  /\ TcpSplit data false = Token 25 (B "<13>Oct 11 22:14:15 x").
Proof.
  cbv zeta.
  assert (H1 : blank [CR; LF]) by (repeat constructor).
  assert (H2 : splitSpaceOrLF "<"%byte = false) by reflexivity.
  assert (H3 : Forall (fun c => Byte.eqb c LF = false) (B "13>Oct 11 22:14:15 x "))
    by (repeat constructor).
  destruct (lf_framing_line [CR; LF] "<"%byte (B "13>Oct 11 22:14:15 x ") (B "<14>")
              false H1 H2 H3) as [HL HT].
  split; [exact HL | exact (HT eq_refl)].
Defined.

Lemma TcpSplit_octet_counting_witness :
  TcpSplit (B "11 <13>a" ++ LF :: B "b c d12 <") false
  = Token 14 (B "<13>a" ++ LF :: B "b c d").
Proof.
  assert (H1 : blank []) by constructor.
  assert (H2 : len ([] ++ octetFrame (B "<13>a" ++ LF :: B "b c d") ++ B "12 <") < 2 ^ 63)
    by (vm_compute; reflexivity).
  exact (TcpSplit_octet_counting [] (B "<13>a" ++ LF :: B "b c d") (B "12 <") false H1 H2).
Defined.

Lemma TcpSplit_negative_count_witness :
  TcpSplit (B "-1 <13>a") false = Panic.
Proof.
  assert (H1 : blank []) by constructor.
  assert (H2 : 0 < 1 <= 2 ^ 63) by (split; [lia | vm_compute; discriminate]).
  assert (H3 : len ([] ++ itoa (- 1) ++ SP :: B "<13>a") < 2 ^ 63) by (vm_compute; reflexivity).
  exact (TcpSplit_negative_count [] (B "<13>a") 1 false H1 H2 H3).
Defined.

Lemma TcpSplit_token_bounds_witness :
  0 < 7 <= len (B "5 hello world").
Proof.
  assert (H1 : len (B "5 hello world") < 2 ^ 63) by (vm_compute; reflexivity).
  assert (H2 : TcpSplit (B "5 hello world") false = Token 7 (B "hello")) by reflexivity.
  exact (TcpSplit_token_bounds (B "5 hello world") false 7 (B "hello") H1 H2).
Defined.

End TcpScenarios.

Section MoreScenarios.

Import Parser Plugin PluginTrace Factory.

Lemma NextToCommit_least_pending_witness :
  let f := Received 1%N 3 (Received 1%N 5 (snd (AddConn newAckForwarder))) in
  let h : gmap Z bool := <[3 := true]> (<[5 := true]> ∅) in
  (NextToCommit 1%N f = -1 /\ forall k, h !! k <> Some true)
  \/ (h !! NextToCommit 1%N f = Some true
      /\ forall k, h !! k = Some true -> NextToCommit 1%N f <= k).
Proof.
  cbv zeta. apply NextToCommit_least_pending; [vm_compute; reflexivity |].
  intros k v H.
  apply lookup_insert_Some in H as [[<- _] | [_ H]]; [split; [lia | reflexivity] |].
  apply lookup_insert_Some in H as [[<- _] | [_ H]]; [split; [lia | reflexivity] |].
  by rewrite lookup_empty in H.
Defined.

(** A [syslog] frame on a session that was not opened. *)
Lemma handleFrame_return_counts_one_error_witness :
  deadline cfg0 ++ [RelpProtocolErrorsInc (client ci0)]
  = deadline cfg0 ++ [RelpProtocolErrorsInc (client ci0)]
  /\ protocolErrors (client ci0) (deadline cfg0 ++ [RelpProtocolErrorsInc (client ci0)]) = 1%nat
  /\ List.filter isCommandEvent (deadline cfg0 ++ [RelpProtocolErrorsInc (client ci0)]) = [].
Proof.
  exact (handleFrame_return_counts_one_error 1%N cfg0 ci0 buf0 initHandler
           (B "1 syslog 4 test") _ eq_refl).
Defined.

Lemma handleFrame_closed_session_witness :
  relpIsOpen (mkHandler 1 true) = true
  /\ nth 1 (SplitN (B "1 open 0") SP 4) [] = B "open"
  /\ receivedTxnrs [ConnWrite (B "1 rsp 7 200 OK" ++ [LF; LF])] = []
  /\ rawQueuePuts [ConnWrite (B "1 rsp 7 200 OK" ++ [LF; LF])] = [].
Proof.
  exact (handleFrame_closed_session 1%N cfg0 ci0 buf0 initHandler (mkHandler 1 true)
           (B "1 open 0") [ConnWrite (B "1 rsp 7 200 OK" ++ [LF; LF])] eq_refl eq_refl).
Defined.

(** The frame [1 syslog 4 test] with line feeds for spaces. *)
Lemma lf_separated_header_panics_witness :
  RelpSplit (lfFrame 1 (B "syslog") (B "test") ++ [LF]) false
  = Token (len (lfFrame 1 (B "syslog") (B "test")) + 1) (lfFrame 1 (B "syslog") (B "test"))
  /\ handleFrame 1%N cfg0 ci0 buf0 initHandler (lfFrame 1 (B "syslog") (B "test"))
     = IndexPanic (deadline cfg0).
Proof.
  assert (H1 : 0 <= 1 < 2 ^ 63) by (split; [lia | reflexivity]).
  assert (H2 : B "syslog" <> []) by discriminate.
  assert (H3 : word (B "syslog")) by (repeat constructor).
  assert (H4 : B "test" <> []) by discriminate.
  assert (H5 : word (B "test")) by (repeat constructor).
  assert (H6 : len (lfFrame 1 (B "syslog") (B "test")) + 1 < 2 ^ 63) by reflexivity.
  exact (lf_separated_header_panics 1%N cfg0 ci0 buf0 1 (B "syslog") (B "test") false
           H1 H2 H3 H4 H5 H6).
Defined.

Lemma listen_first_answer_wins_witness :
  let st : @ListenState unit unit unit unit :=
    mkListen true false false (Some (mkIE (Some []) None)) [] [] in
  let st' := fst (listenLoop decodesInfos decodes decodes false [B "starterror boom"] st) in
  once st' = Some (mkIE (Some []) None)
  /\ once (fst (listenDefer st' created0)) = Some (mkIE (Some []) None).
Proof.
  exact (listen_first_answer_wins decodesInfos decodes decodes false [B "starterror boom"]
           (mkListen true false false (Some (mkIE (Some []) None)) [] []) created0
           (mkIE (Some []) None) eq_refl).
Defined.

Lemma listen_stashes_after_started_witness :
  stashed (trace (fst (listenLoop decodesInfos decodes decodes false
                                  [B "infos []"; B "syslog payload"] initListen))) = [].
Proof.
  exact (listen_stashes_after_started decodesInfos decodes decodes false
           [B "infos []"; B "syslog payload"] eq_refl).
Defined.


Lemma binder_listen_without_colon_panics_witness :
  Binder.binderCommand bindsAll bindsAll inUse writes []
                (B "listen" ++ SP :: Join [B "tcp:0.0.0.0:2514"; B "udp"])
  = Binder.Panicked.
Proof.
  assert (H1 : [B "tcp:0.0.0.0:2514"; B "udp"] <> []) by discriminate.
  assert (H2 : Forall (fun w => w <> [] /\ word w) [B "tcp:0.0.0.0:2514"; B "udp"]).
  { repeat constructor; discriminate. }
  assert (H3 : Exists noColon [B "tcp:0.0.0.0:2514"; B "udp"]).
  { apply Exists_cons_tl, Exists_cons_hd. repeat constructor. }
  exact (proj2 (binder_listen_without_colon_panics bindsAll bindsAll inUse writes [])
           [B "tcp:0.0.0.0:2514"; B "udp"] H1 H2 H3).
Defined.

Lemma binder_stoplisten_undoes_listen_witness :
  Binder.binderCommand bindsAll bindsAll inUse writes []
                (B "listen" ++ SP :: B "tcp" ++ ":"%byte :: B "0.0.0.0:2514")
  = Binder.Continue (Binder.setListener (B "tcp" ++ ":"%byte :: B "0.0.0.0:2514") tt [])
             [Binder.ChildWrite (B "confirmlisten " ++ B "tcp" ++ ":"%byte :: B "0.0.0.0:2514")]
  /\ Binder.binderCommand bindsAll bindsAll inUse writes
                   (Binder.setListener (B "tcp" ++ ":"%byte :: B "0.0.0.0:2514") tt [])
                   (B "stoplisten" ++ SP :: B "tcp" ++ ":"%byte :: B "0.0.0.0:2514")
     = Binder.Continue (Binder.delListener (B "tcp" ++ ":"%byte :: B "0.0.0.0:2514") [])
                [Binder.ListenerClose (B "tcp" ++ ":"%byte :: B "0.0.0.0:2514");
                 Binder.ChildWrite (B "stopped " ++ (B "tcp" ++ ":"%byte :: B "0.0.0.0:2514") ++ [LF])].
Proof.
  assert (H1 : B "tcp" <> []) by discriminate.
  assert (H2 : word (B "tcp" ++ ":"%byte :: B "0.0.0.0:2514")) by (repeat constructor).
  assert (H3 : noColon (B "tcp")) by (repeat constructor).
  exact (binder_stoplisten_undoes_listen bindsAll bindsAll inUse writes []
           (B "tcp") (B "0.0.0.0:2514") tt H1 H2 H3 eq_refl eq_refl eq_refl).
Defined.

Lemma FinalStop_is_final_witness :
  (exists s' evs, Service.FinalStop (Service.NewRelpServiceImpl true) = Some (s', evs)
                  /\ Service.status s' = Service.FinalStopped /\ Service.statusInv s')
  /\ (Service.status (Service.NewRelpServiceImpl true) = Service.FinalStopped ->
      (forall c, Service.call c (Service.NewRelpServiceImpl true) = Some (Service.NewRelpServiceImpl true, []))
      /\ forall t n p cpus,
           Service.Start t n p cpus (Service.NewRelpServiceImpl true)
           = Some (Service.NewRelpServiceImpl true, [], inr Service.ServerDefinitelyStopped)).
Proof.
  assert (H : Service.statusInv (Service.NewRelpServiceImpl true)) by (split; cbn; [done | by left]).
  exact (FinalStop_is_final (Service.NewRelpServiceImpl true) H).
Defined.

Lemma tcp_WaitClosed_returns_when_stopped_witness :
  exists s evs,
    TcpService.calls [TcpService.CallStart 2; TcpService.CallStop; TcpService.CallStart 0]
                     TcpService.NewTcpService
    = TcpService.Returns s evs tt
    /\ ((exists s', TcpService.WaitClosed s = TcpService.Returns s' [] tt)
        <-> TcpService.status s = TcpService.TcpStopped /\ TcpService.statusChan s <> None)
    /\ (TcpService.WaitClosed s = TcpService.Blocks
        <-> TcpService.status s = TcpService.TcpStarted \/ TcpService.statusChan s = None).
Proof.
  assert (H : Forall (fun c => c <> TcpService.CallWaitClosed)
                [TcpService.CallStart 2; TcpService.CallStop; TcpService.CallStart 0])
    by (repeat constructor; discriminate).
  exact (tcp_WaitClosed_returns_when_stopped _ H).
Defined.

Lemma udp_WaitClosed_returns_when_stopped_witness :
  exists s evs,
    UdpService.calls [UdpService.CallStart 2; UdpService.CallStop; UdpService.CallStart 0]
                     UdpService.NewUdpService
    = UdpService.Returns s evs tt
    /\ ((exists s', UdpService.WaitClosed s = UdpService.Returns s' [] tt)
        <-> UdpService.status s = UdpService.UdpStopped /\ UdpService.statusChan s <> None)
    /\ (UdpService.WaitClosed s = UdpService.Blocks
        <-> UdpService.status s = UdpService.UdpStarted \/ UdpService.statusChan s = None).
Proof.
  assert (H : Forall (fun c => c <> UdpService.CallWaitClosed)
                [UdpService.CallStart 2; UdpService.CallStop; UdpService.CallStart 0])
    by (repeat constructor; discriminate).
  exact (udp_WaitClosed_returns_when_stopped _ H).
Defined.

Lemma init_inverts_Names2Types_witness :
  rev Names2Types ≡ₚ Names2Types
  /\ (let (Types2Names, Types2ConfinedNames) := init (rev Names2Types) in
      forall (name : string) (t : Types),
        (name, t) ∈ Names2Types
        <-> Types2Names t = Some name
            /\ Types2ConfinedNames t = Some ("confined-" ++ name)%string).
Proof.
  assert (H : rev Names2Types ≡ₚ Names2Types) by (symmetry; apply Permutation_rev).
  split; [exact H |].
  exact (init_inverts_Names2Types (rev Names2Types) H).
Defined.

End MoreScenarios.

Section KafkaScenarios.

Import Kafka.

Lemma handleKafkaResponses_forwards_until_fatal_witness :
  let rs := [Success (mkMeta 1 7) "logs"; Failure (mkMeta 2 7) "logs" false;
             SuccessesClosed; Failure (mkMeta 3 7) "logs" true;
             Failure (mkMeta 4 7) "logs" false] in
  wellFormed true true rs = true
  /\ answered (fst (handleKafkaResponses rs))
     = [(7%N, 1, true); (7%N, 2, false); (7%N, 3, false)]
  /\ snd (handleKafkaResponses rs) = Stopping.
Proof.
  cbv zeta. split; [reflexivity |].
  match goal with
  | |- context [handleKafkaResponses ?rs] =>
      destruct (handleKafkaResponses_forwards_until_fatal rs eq_refl) as (H1 & _ & H3 & _)
  end.
  split; [exact H1 | exact (proj1 (H3 eq_refl))].
Defined.

End KafkaScenarios.
